(** * IPC synchronizer: the simulation core and its deadlock analysis

    A shallow embedding of [src/lib/types.ts], [src/lib/deadlock-utils.ts]
    and the state logic of [src/components/ProcessCanvas.tsx], followed by
    the properties of the specification that are stated about them.  The
    clicks, demos and effects of the canvas, the labels of
    [src/components/IPCConnection.tsx], the node click of
    [src/components/ProcessNode.tsx] and the log handling of the
    synchronizer page are embedded as well, with properties of their own
    at the end.

    Numbers that the code only counts with (loads, capacities, reader
    counts, progress) are integers [Z]; [Math.random()] results and canvas
    positions are rationals [Q], and a product with a [Math.random()]
    result is rounded to a double.  JavaScript [Set]s of identifiers are
    [gset string]; arrays are lists; the object that serves as the
    dependency graph has its own properties and a prototype. *)

From Stdlib Require Import ZArith QArith Qround Qpower Lqa Ascii String.
From stdpp Require Import gmap strings list sorting pretty.

Set Warnings "-clear-no-such-hyp".

Local Open Scope string_scope.
Local Open Scope list_scope.
Local Open Scope Z_scope.

(** ** [src/lib/types.ts] *)

Inductive IPCType := Pipe | Queue | Memory.
Inductive ProcessState := PIdle | PRunning | PBlocked | PDeadlocked.
Inductive ConnectionState := CIdle | CActive | CDeadlocked.
Inductive MemoryAccessType := ReadAccess | WriteAccess.
Inductive TransferType := Produce | Consume.

#[global] Instance IPCType_eq_dec : EqDecision IPCType.
Proof. solve_decision. Defined.
#[global] Instance ProcessState_eq_dec : EqDecision ProcessState.
Proof. solve_decision. Defined.
#[global] Instance ConnectionState_eq_dec : EqDecision ConnectionState.
Proof. solve_decision. Defined.

Record Position := { pos_x : Q; pos_y : Q }.

Record MemoryAccess := { ma_type : MemoryAccessType; ma_regionId : string }.

Record Process := {
  p_id : string;
  p_name : string;
  p_position : Position;
  p_state : ProcessState;
  p_resources : list string;
  p_waitingFor : option string;
  p_memoryAccess : option MemoryAccess
}.

Record Semaphore := {
  maxReaders : Z;
  currentReaders : Z;
  hasWriter : bool
}.

Record MemoryRegion := { mr_id : string; mr_semaphore : Semaphore }.

Record Connection := {
  c_id : string;
  c_from : string;
  c_to : string;
  c_type : IPCType;
  c_state : ConnectionState;
  c_capacity : option Z;
  c_currentLoad : option Z;
  c_memoryRegion : option MemoryRegion
}.

Record DataTransfer := {
  t_id : string;
  t_connectionId : string;
  t_startTime : Z;
  t_progress : Z;
  t_size : Z;
  t_type : TransferType
}.

(** [x || d] on an optional number: [undefined] and [0] are falsy. *)
Definition or_default (x : option Z) (d : Z) : Z :=
  match x with
  | Some v => if v =? 0 then d else v
  | None => d
  end.

(** ** JavaScript array and object helpers *)

(** [l.indexOf(x)]: the first position of [x], or [-1]. *)
Fixpoint indexOf (x : string) (l : list string) : Z :=
  match l with
  | [] => -1
  | y :: l' =>
      if decide (y = x) then 0
      else let i := indexOf x l' in if i <? 0 then -1 else 1 + i
  end.

(** [l.slice(start)]: a negative [start] counts from the end. *)
Definition slice {A} (start : Z) (l : list A) : list A :=
  if start <? 0
  then drop (Z.to_nat (Z.max (Z.of_nat (length l) + start) 0)) l
  else drop (Z.to_nat start) l.

(** ** Doubles

    The finite doubles are rationals; an arithmetic operation gives the
    double nearest to the exact result. *)

(** The integer part of the binary logarithm of a positive rational. *)
Definition ilog2 (q : Q) : Z :=
  let k := Z.log2 (Qnum q) - Z.log2 (Zpos (Qden q)) in
  if Qle_bool (2 ^ k) q then k else k - 1.

(** The exponent of the last binary place of the doubles next to a
    positive rational: 52 places below the leading one, and -1074 for the
    subnormal numbers. *)
Definition ulp_exponent (q : Q) : Z := Z.max (ilog2 q - 52) (-1074).

(** The nearest integer, the even one of two that are equally near. *)
Definition round_half_even (x : Q) : Z :=
  let n := Qfloor x in
  match (x - inject_Z n ?= 1 # 2)%Q with
  | Lt => n
  | Gt => n + 1
  | Eq => if Z.even n then n else n + 1
  end.

Definition nearest_double (q : Q) : Q :=
  let e := ulp_exponent q in
  (inject_Z (round_half_even (q / 2 ^ e)) * 2 ^ e)%Q.

(** The double that a number below the overflow threshold is rounded
    to. *)
Definition to_double (q : Q) : Q :=
  match (q ?= 0)%Q with
  | Eq => 0%Q
  | Gt => nearest_double q
  | Lt => (- nearest_double (- q))%Q
  end.

Definition is_double (q : Q) : Prop := (to_double q == q)%Q.

#[global] Instance is_double_dec q : Decision (is_double q).
Proof. unfold is_double. apply Qeq_dec. Defined.

(** [x * y] on doubles. *)
Definition double_mul (x y : Q) : Q := to_double (x * y).

(** ** JavaScript objects *)

(** What a call does: it returns a value or throws a [TypeError].
    [Unfinished] is the answer of a search that was given too small a
    bound on its depth. *)
Inductive Outcome (A : Type) :=
| Returns (a : A)
| ThrowsTypeError
| Unfinished.

Arguments Returns {A} a.
Arguments ThrowsTypeError {A}.
Arguments Unfinished {A}.

(** The own properties of an object that is used as a dictionary from
    identifiers to arrays: an association list in insertion order, one
    entry per key. *)
Definition Properties : Type := list (string * list string).

Fixpoint own_get (ps : Properties) (k : string) : option (list string) :=
  match ps with
  | [] => None
  | (k', v) :: ps' => if decide (k' = k) then Some v else own_get ps' k
  end.

(** An existing key keeps its place. *)
Fixpoint own_set (ps : Properties) (k : string) (v : list string) : Properties :=
  match ps with
  | [] => [(k, v)]
  | (k', v') :: ps' =>
      if decide (k' = k) then (k', v) :: ps' else (k', v') :: own_set ps' k v
  end.

(** Keys that are canonical array indices (decimal, no leading zero, at
    most 2^32 - 2) are enumerated first by [Object.keys], in ascending
    numeric order; the other keys follow in insertion order. *)
Definition digit_of (a : ascii) : option N :=
  let n := N_of_ascii a in
  if ((48 <=? n) && (n <=? 57))%N then Some (n - 48)%N else None.

Fixpoint digits_value (acc : N) (l : list ascii) : option N :=
  match l with
  | [] => Some acc
  | a :: l' =>
      match digit_of a with
      | Some d => digits_value (10 * acc + d)%N l'
      | None => None
      end
  end.

Definition array_index (k : string) : option N :=
  match list_ascii_of_string k with
  | [] => None
  | a :: rest =>
      if bool_decide (a = "0"%char) && negb (bool_decide (rest = [])) then None
      else match digits_value 0%N (a :: rest) with
           | Some n => if (n <=? 4294967294)%N then Some n else None
           | None => None
           end
  end.

Definition index_keys (ks : list string) : list (N * string) :=
  omap (fun k => match array_index k with
                 | Some n => Some (n, k)
                 | None => None
                 end) ks.

Definition index_le (a b : N * string) : Prop := (a.1 <= b.1)%N.

#[global] Instance index_le_dec a b : Decision (index_le a b).
Proof. unfold index_le. apply _. Defined.

(** The names of the members of [Object.prototype], which every plain
    object inherits, and of [Array.prototype] (ECMAScript 2023), which
    every array inherits besides. *)
Definition Object_prototype_members : list string :=
  [ "constructor"; "__defineGetter__"; "__defineSetter__"; "hasOwnProperty";
    "__lookupGetter__"; "__lookupSetter__"; "isPrototypeOf";
    "propertyIsEnumerable"; "toString"; "valueOf"; "__proto__";
    "toLocaleString" ].

Definition Array_prototype_members : list string :=
  [ "length"; "constructor"; "at"; "concat"; "copyWithin"; "fill"; "find";
    "findIndex"; "findLast"; "findLastIndex"; "lastIndexOf"; "pop"; "push";
    "reverse"; "shift"; "unshift"; "slice"; "sort"; "splice"; "includes";
    "indexOf"; "join"; "keys"; "entries"; "values"; "forEach"; "filter";
    "flat"; "flatMap"; "map"; "every"; "some"; "reduce"; "reduceRight";
    "toLocaleString"; "toString"; "toReversed"; "toSorted"; "toSpliced";
    "with" ].

(** The object [graph = {}] of [detectDeadlockCycles].  Its prototype is
    [Object.prototype] ([proto = None]) until an assignment to
    [graph["__proto__"]] makes the assigned array its prototype
    ([proto = Some array]); the prototype of that array is
    [Array.prototype]. *)
Record Graph := { own : Properties; proto : option (list string) }.

(** What [graph[k]] can be: [undefined], an array of identifiers (an own
    property, or the array that is the prototype), the length or an
    element of the array that is the prototype, or a member of
    [Object.prototype] or [Array.prototype] ([Object.prototype] itself
    for ["__proto__"]), of which only this matters: it is an object, it
    has no [push], and it cannot be iterated. *)
Inductive Value :=
| Undefined
| ArrayOf (elements : list string)
| NumberOf (n : nat)
| StringOf (s : string)
| Builtin.

Definition to_boolean (v : Value) : bool :=
  match v with
  | Undefined | NumberOf O | StringOf "" => false
  | _ => true
  end.

(** [graph[k]]: an own property, or else what the prototype chain has. *)
Definition graph_get (g : Graph) (k : string) : Value :=
  match own_get (own g) k with
  | Some elements => ArrayOf elements
  | None =>
      match proto g with
      | None =>
          if decide (k ∈ Object_prototype_members) then Builtin else Undefined
      | Some array =>
          if decide (k = "__proto__") then ArrayOf array
          else if decide (k = "length") then NumberOf (length array)
          else
            match array_index k ≫= fun i => array !! N.to_nat i with
            | Some element => StringOf element
            | None =>
                if decide (k ∈ Array_prototype_members ++ Object_prototype_members)
                then Builtin else Undefined
            end
      end
  end.

(** [graph[k] = v] for an array [v]: the setter of ["__proto__"] replaces
    the prototype and creates no property; every other key becomes or
    stays an own property. *)
Definition graph_set (g : Graph) (k : string) (v : list string) : Graph :=
  if decide (k = "__proto__") then {| own := own g; proto := Some v |}
  else {| own := own_set (own g) k v; proto := proto g |}.

(** [graph[k].push(x)]: only an array has a [push]. *)
Definition graph_push (g : Graph) (k x : string) : Outcome Graph :=
  match own_get (own g) k, proto g with
  | Some elements, _ =>
      Returns {| own := own_set (own g) k (elements ++ [x]); proto := proto g |}
  | None, Some array =>
      if decide (k = "__proto__")
      then Returns {| own := own g; proto := Some (array ++ [x]) |}
      else ThrowsTypeError
  | None, None => ThrowsTypeError
  end.

(** The strings that [for ... of] takes out of a string, one for each
    character (a character of a string here is one UTF-16 code unit, and
    no surrogate). *)
Definition characters (s : string) : list string :=
  (fun a => String a EmptyString) <$> list_ascii_of_string s.

(** [graph[k] || []], as the loop [for (const neighbor of ...)] goes
    through it: a number other than 0 and an object that is no array
    cannot be iterated. *)
Definition neighbors_of (g : Graph) (k : string) : Outcome (list string) :=
  match graph_get g k with
  | ArrayOf elements => Returns elements
  | StringOf s => Returns (characters s)
  | Undefined | NumberOf O => Returns []
  | NumberOf (S _) | Builtin => ThrowsTypeError
  end.

(** [Object.keys(graph)]: the own keys. *)
Definition Object_keys (g : Graph) : list string :=
  let ks := (own g).*1 in
  (merge_sort index_le (index_keys ks)).*2
  ++ filter (fun k => array_index k = None) ks.

(** ** [src/lib/deadlock-utils.ts] *)

Record DeadlockCycle := {
  dc_id : string;
  dc_processes : list string;
  dc_connections : list string;
  dc_detectedAt : Z;
  dc_resolved : bool;
  dc_resolutionStrategy : option string
}.

(** What the surroundings supply: the successive results of
    [generateId()] (from [lib/utils], not part of the sources at hand), of
    [Math.random()], and the clock. *)
Record Env := {
  genId : nat -> string;
  random : nat -> Q;
  now : Z
}.

Definition is_active (c : Connection) : Prop := c_state c = CActive.

#[global] Instance is_active_dec c : Decision (is_active c).
Proof. unfold is_active. apply _. Defined.

(** The two [forEach] loops that build the dependency graph; the
    second ends with the first connection that throws. *)
Definition graph_init (processes : list Process) : Graph :=
  foldl (fun g p => graph_set g (p_id p) []) {| own := []; proto := None |} processes.

Definition graph_add_edge (g : Graph) (conn : Connection) : Outcome Graph :=
  let g1 := if to_boolean (graph_get g (c_from conn)) then g
            else graph_set g (c_from conn) [] in
  graph_push g1 (c_from conn) (c_to conn).

Definition graph_add_edges (g : Graph) (activeConnections : list Connection)
    : Outcome Graph :=
  foldl (fun r conn => match r with
                       | Returns g' => graph_add_edge g' conn
                       | _ => r
                       end)
        (Returns g) activeConnections.

Definition build_graph (processes : list Process)
    (activeConnections : list Connection) : Outcome Graph :=
  graph_add_edges (graph_init processes) activeConnections.

(** The mutable variables the search closes over. *)
Record Dfs := {
  cycles : list DeadlockCycle;
  visited : gset string;
  recursionStack : gset string
}.

Definition push_cycle (env : Env) (cyclePath cycleConnections : list string)
    (st : Dfs) : Dfs :=
  {| cycles := cycles st ++
       [ {| dc_id := genId env (length (cycles st));
            dc_processes := cyclePath;
            dc_connections := cycleConnections;
            dc_detectedAt := now env;
            dc_resolved := false;
            dc_resolutionStrategy := None |} ];
     visited := visited st;
     recursionStack := recursionStack st |}.

(** The [for (const neighbor of neighbors)] loop of [findCycles]; [rec]
    is the recursive call. *)
Fixpoint visit_neighbors
    (rec : string -> list string -> list string -> Dfs -> Outcome Dfs)
    (activeConnections : list Connection) (nodeId : string)
    (path connPath : list string) (neighbors : list string) (st : Dfs)
    : Outcome Dfs :=
  match neighbors with
  | [] => Returns st
  | neighbor :: rest =>
      match List.find (fun c => bool_decide (c_from c = nodeId /\ c_to c = neighbor))
                      activeConnections with
      | Some conn =>
          match rec neighbor (path ++ [nodeId]) (connPath ++ [c_id conn]) st with
          | Returns st' =>
              visit_neighbors rec activeConnections nodeId path connPath rest st'
          | failure => failure
          end
      | None => visit_neighbors rec activeConnections nodeId path connPath rest st
      end
  end.

(** [findCycles]; [fuel] bounds the depth of the recursion. *)
Fixpoint findCycles (env : Env) (graph : Graph) (activeConnections : list Connection)
    (fuel : nat) (nodeId : string) (path connPath : list string) (st : Dfs)
    : Outcome Dfs :=
  match fuel with
  | O => Unfinished
  | S fuel' =>
      if decide (nodeId ∈ recursionStack st) then
        let cycleStartIndex := indexOf nodeId path in
        let cyclePath := slice cycleStartIndex path ++ [nodeId] in
        let cycleConnections := slice cycleStartIndex connPath in
        Returns (push_cycle env cyclePath cycleConnections st)
      else if decide (nodeId ∈ visited st) then Returns st
      else
        let st1 := {| cycles := cycles st;
                      visited := {[nodeId]} ∪ visited st;
                      recursionStack := {[nodeId]} ∪ recursionStack st |} in
        match neighbors_of graph nodeId with
        | Returns neighbors =>
            match visit_neighbors (findCycles env graph activeConnections fuel')
                    activeConnections nodeId path connPath neighbors st1 with
            | Returns st2 =>
                Returns {| cycles := cycles st2;
                           visited := visited st2;
                           recursionStack := recursionStack st2 ∖ {[nodeId]} |}
            | failure => failure
            end
        | ThrowsTypeError => ThrowsTypeError
        | Unfinished => Unfinished
        end
  end.

(** The final [for (const processId of Object.keys(graph))] loop. *)
Fixpoint search_from (env : Env) (graph : Graph) (activeConnections : list Connection)
    (fuel : nat) (roots : list string) (st : Dfs) : Outcome Dfs :=
  match roots with
  | [] => Returns st
  | processId :: rest =>
      match findCycles env graph activeConnections fuel processId [] [] st with
      | Returns st' => search_from env graph activeConnections fuel rest st'
      | failure => failure
      end
  end.

(** Every nested call of [findCycles] but the innermost is on a node not
    visited before, and every such node is a graph key or the target of an
    active connection: this depth always suffices. *)
Definition search_depth (graph : Graph) (activeConnections : list Connection) : nat :=
  S (length (own graph) + length activeConnections).

Definition detectDeadlockCycles (env : Env) (processes : list Process)
    (connections : list Connection) : Outcome (list DeadlockCycle) :=
  let activeConnections := filter is_active connections in
  match build_graph processes activeConnections with
  | Returns graph =>
      let st0 := {| cycles := []; visited := ∅; recursionStack := ∅ |} in
      match search_from env graph activeConnections
              (search_depth graph activeConnections) (Object_keys graph) st0 with
      | Returns st => Returns (cycles st)
      | ThrowsTypeError => ThrowsTypeError
      | Unfinished => Unfinished
      end
  | ThrowsTypeError => ThrowsTypeError
  | Unfinished => Unfinished
  end.

(** ** [src/components/ProcessCanvas.tsx]: component state and effects *)

Record ConnectMode := {
  cm_active : bool;
  cm_fromProcess : option string;
  cm_type : IPCType
}.

(** The [useState] cells of the component.  A handler is a closure of
    one render: inside it [processes], [connections] and [dataTransfers]
    are [const] bindings to the values of that render, whatever the
    handler passes to the setters meanwhile. *)
Record State := {
  processes : list Process;
  connections : list Connection;
  dataTransfers : list DataTransfer;
  connectMode : ConnectMode
}.

Inductive LogType := LInfo | LWarning | LError | LSuccess.

(** Log entries and toasts, without their free-text details. *)
Record LogEntry := { log_id : string; log_type : LogType; log_message : string }.
Record Toast := { toast_title : string; toast_destructive : bool }.

(** The three callbacks handed to [setTimeout], with the variables they
    capture besides the state of the render. *)
Inductive TimerBody :=
| UnblockProcess (processId : string)
| ReleaseSend (connection : Connection) (fromProcessId resourceId : string)
| ReleaseConsume (connection : Connection) (toProcessId resourceId : string).

Record Timer := { tm_delay : Z; tm_closure : State; tm_body : TimerBody }.

(** What a handler does: the values it passes to each state setter, in
    call order, the timers it registers, what it reports, and how many
    identifiers and random numbers it has drawn. *)
Record Effects := {
  set_processes : list (list Process);
  set_connections : list (list Connection);
  set_dataTransfers : list (list DataTransfer);
  set_connectMode : list ConnectMode;
  timers : list Timer;
  logs : list LogEntry;
  toasts : list Toast;
  ids_used : nat;
  randoms_used : nat
}.

Definition no_effects : Effects :=
  {| set_processes := []; set_connections := []; set_dataTransfers := [];
     set_connectMode := []; timers := []; logs := []; toasts := [];
     ids_used := 0; randoms_used := 0 |}.

Definition Handler (A : Type) : Type := Effects -> A * Effects.

Definition ret {A} (a : A) : Handler A := fun e => (a, e).

Definition bind {A B} (m : Handler A) (k : A -> Handler B) : Handler B :=
  fun e => let (a, e') := m e in k a e'.

Declare Scope handler_scope.
Delimit Scope handler_scope with handler.
Notation "x <- m ;; k" := (bind m (fun x => k))
  (at level 100, m at next level, right associativity) : handler_scope.
Notation "m ;; k" := (bind m (fun _ => k))
  (at level 100, right associativity) : handler_scope.
Local Open Scope handler_scope.

Definition setProcesses (v : list Process) : Handler unit := fun e =>
  (tt, {| set_processes := set_processes e ++ [v];
          set_connections := set_connections e;
          set_dataTransfers := set_dataTransfers e;
          set_connectMode := set_connectMode e;
          timers := timers e; logs := logs e; toasts := toasts e;
          ids_used := ids_used e; randoms_used := randoms_used e |}).

Definition setConnections (v : list Connection) : Handler unit := fun e =>
  (tt, {| set_processes := set_processes e;
          set_connections := set_connections e ++ [v];
          set_dataTransfers := set_dataTransfers e;
          set_connectMode := set_connectMode e;
          timers := timers e; logs := logs e; toasts := toasts e;
          ids_used := ids_used e; randoms_used := randoms_used e |}).

Definition setDataTransfers (v : list DataTransfer) : Handler unit := fun e =>
  (tt, {| set_processes := set_processes e;
          set_connections := set_connections e;
          set_dataTransfers := set_dataTransfers e ++ [v];
          set_connectMode := set_connectMode e;
          timers := timers e; logs := logs e; toasts := toasts e;
          ids_used := ids_used e; randoms_used := randoms_used e |}).

Definition setConnectMode (v : ConnectMode) : Handler unit := fun e =>
  (tt, {| set_processes := set_processes e;
          set_connections := set_connections e;
          set_dataTransfers := set_dataTransfers e;
          set_connectMode := set_connectMode e ++ [v];
          timers := timers e; logs := logs e; toasts := toasts e;
          ids_used := ids_used e; randoms_used := randoms_used e |}).

Definition setTimeout (closure : State) (body : TimerBody) (delay : Z)
    : Handler unit := fun e =>
  (tt, {| set_processes := set_processes e;
          set_connections := set_connections e;
          set_dataTransfers := set_dataTransfers e;
          set_connectMode := set_connectMode e;
          timers := timers e ++
            [ {| tm_delay := delay; tm_closure := closure; tm_body := body |} ];
          logs := logs e; toasts := toasts e;
          ids_used := ids_used e; randoms_used := randoms_used e |}).

Definition toast (title : string) (destructive : bool) : Handler unit := fun e =>
  (tt, {| set_processes := set_processes e;
          set_connections := set_connections e;
          set_dataTransfers := set_dataTransfers e;
          set_connectMode := set_connectMode e;
          timers := timers e; logs := logs e;
          toasts := toasts e ++
            [ {| toast_title := title; toast_destructive := destructive |} ];
          ids_used := ids_used e; randoms_used := randoms_used e |}).

Definition generateId (env : Env) : Handler string := fun e =>
  (genId env (ids_used e),
   {| set_processes := set_processes e;
      set_connections := set_connections e;
      set_dataTransfers := set_dataTransfers e;
      set_connectMode := set_connectMode e;
      timers := timers e; logs := logs e; toasts := toasts e;
      ids_used := S (ids_used e); randoms_used := randoms_used e |}).

Definition Math_random (env : Env) : Handler Q := fun e =>
  (random env (randoms_used e),
   {| set_processes := set_processes e;
      set_connections := set_connections e;
      set_dataTransfers := set_dataTransfers e;
      set_connectMode := set_connectMode e;
      timers := timers e; logs := logs e; toasts := toasts e;
      ids_used := ids_used e; randoms_used := S (randoms_used e) |}).

Definition push_log (entry : LogEntry) : Handler unit := fun e =>
  (tt, {| set_processes := set_processes e;
          set_connections := set_connections e;
          set_dataTransfers := set_dataTransfers e;
          set_connectMode := set_connectMode e;
          timers := timers e; logs := logs e ++ [entry]; toasts := toasts e;
          ids_used := ids_used e; randoms_used := randoms_used e |}).

Definition logEvent (env : Env) (type : LogType) (message : string)
    : Handler unit :=
  id <- generateId env;;
  push_log {| log_id := id; log_type := type; log_message := message |}.

Definition run (h : Handler unit) : Effects := snd (h no_effects).

(** React queues the updates of a handler and applies them in call
    order before the next render.  Every update of the handlers below is
    a plain value (none is an updater function), and a plain value
    replaces the cell: the next render sees the last value passed to each
    setter, and the former value of a cell no setter was called on. *)
Definition commit (st : State) (e : Effects) : State :=
  {| processes := default (processes st) (last (set_processes e));
     connections := default (connections st) (last (set_connections e));
     dataTransfers := default (dataTransfers st) (last (set_dataTransfers e));
     connectMode := default (connectMode st) (last (set_connectMode e)) |}.

(** Object spreads [{ ...p, field: value }]. *)
Definition p_set_state (s : ProcessState) (p : Process) : Process :=
  {| p_id := p_id p; p_name := p_name p; p_position := p_position p;
     p_state := s; p_resources := p_resources p;
     p_waitingFor := p_waitingFor p; p_memoryAccess := p_memoryAccess p |}.

Definition p_set_waitingFor (w : option string) (p : Process) : Process :=
  {| p_id := p_id p; p_name := p_name p; p_position := p_position p;
     p_state := p_state p; p_resources := p_resources p;
     p_waitingFor := w; p_memoryAccess := p_memoryAccess p |}.

Definition p_set_resources (r : list string) (p : Process) : Process :=
  {| p_id := p_id p; p_name := p_name p; p_position := p_position p;
     p_state := p_state p; p_resources := r;
     p_waitingFor := p_waitingFor p; p_memoryAccess := p_memoryAccess p |}.

Definition p_set_memoryAccess (m : option MemoryAccess) (p : Process) : Process :=
  {| p_id := p_id p; p_name := p_name p; p_position := p_position p;
     p_state := p_state p; p_resources := p_resources p;
     p_waitingFor := p_waitingFor p; p_memoryAccess := m |}.

Definition c_set_state (s : ConnectionState) (c : Connection) : Connection :=
  {| c_id := c_id c; c_from := c_from c; c_to := c_to c; c_type := c_type c;
     c_state := s; c_capacity := c_capacity c;
     c_currentLoad := c_currentLoad c; c_memoryRegion := c_memoryRegion c |}.

Definition c_set_currentLoad (l : option Z) (c : Connection) : Connection :=
  {| c_id := c_id c; c_from := c_from c; c_to := c_to c; c_type := c_type c;
     c_state := c_state c; c_capacity := c_capacity c;
     c_currentLoad := l; c_memoryRegion := c_memoryRegion c |}.

Definition c_set_semaphore (f : Semaphore -> Semaphore) (c : Connection) : Connection :=
  {| c_id := c_id c; c_from := c_from c; c_to := c_to c; c_type := c_type c;
     c_state := c_state c; c_capacity := c_capacity c;
     c_currentLoad := c_currentLoad c;
     c_memoryRegion :=
       match c_memoryRegion c with
       | Some r => Some {| mr_id := mr_id r; mr_semaphore := f (mr_semaphore r) |}
       | None => None
       end |}.

Definition sem_set_hasWriter (b : bool) (s : Semaphore) : Semaphore :=
  {| maxReaders := maxReaders s; currentReaders := currentReaders s; hasWriter := b |}.

Definition sem_set_currentReaders (n : Z) (s : Semaphore) : Semaphore :=
  {| maxReaders := maxReaders s; currentReaders := n; hasWriter := hasWriter s |}.

(** [processes.map((p) => p.id === processId ? f(p) : p)] *)
Definition map_process (processId : string) (f : Process -> Process)
    (ps : list Process) : list Process :=
  (fun p => if decide (p_id p = processId) then f p else p) <$> ps.

(** [connections.map((c) => c.id === connectionId ? f(c) : c)] *)
Definition map_connection (connectionId : string) (f : Connection -> Connection)
    (cs : list Connection) : list Connection :=
  (fun c => if decide (c_id c = connectionId) then f c else c) <$> cs.

(** [connections.map((c) => c.memoryRegion?.id === regionId ? ... : c)],
    the change being one to the semaphore of the region. *)
Definition map_region (regionId : string) (f : Semaphore -> Semaphore)
    (cs : list Connection) : list Connection :=
  (fun c => if decide (mr_id <$> c_memoryRegion c = Some regionId)
            then c_set_semaphore f c else c) <$> cs.

(** ** [src/components/ProcessCanvas.tsx]: the handlers

    Each handler takes the state [st] of the render it was created in.
    The [return] statements of the source are the branches that end
    here without running what follows. *)

Definition new_region_semaphore : Semaphore :=
  {| maxReaders := 5; currentReaders := 0; hasWriter := false |}.

Definition idle_mode : ConnectMode :=
  {| cm_active := false; cm_fromProcess := None; cm_type := Pipe |}.

(** [connectionExists] of [completeConnection]. *)
Definition connectionExists (cs : list Connection) (fromProcess toProcessId : string)
    : bool :=
  existsb (fun conn =>
    bool_decide ((c_from conn = fromProcess /\ c_to conn = toProcessId) \/
                 (c_from conn = toProcessId /\ c_to conn = fromProcess /\
                  c_type conn = Pipe))) cs.

Definition completeConnection (env : Env) (st : State) (toProcessId : string)
    : Handler unit :=
  match cm_fromProcess (connectMode st) with
  | Some fromProcess =>
      if negb (cm_active (connectMode st))
         || bool_decide (fromProcess = "")
         || bool_decide (fromProcess = toProcessId)
      then ret tt
      else
        let type := cm_type (connectMode st) in
        match (if decide (type = Memory)
               then List.find (fun conn =>
                      bool_decide (c_type conn = Memory) &&
                      bool_decide (is_Some (c_memoryRegion conn)))
                      (connections st)
               else None) with
        | Some existingMemoryConnection =>
            id <- generateId env;;
            setConnections (connections st ++
              [ {| c_id := id; c_from := fromProcess; c_to := toProcessId;
                   c_type := Memory; c_state := CIdle;
                   c_capacity := None; c_currentLoad := None;
                   c_memoryRegion := c_memoryRegion existingMemoryConnection |} ]);;
            logEvent env LSuccess "Memory Connection Created";;
            setConnectMode idle_mode
        | None =>
            if connectionExists (connections st) fromProcess toProcessId then
              logEvent env LWarning "Connection Failed";;
              toast "Connection exists" true;;
              setConnectMode idle_mode
            else
              id <- generateId env;;
              region <- (if decide (type = Memory)
                         then rid <- generateId env;;
                              ret (Some {| mr_id := rid;
                                           mr_semaphore := new_region_semaphore |})
                         else ret None);;
              setConnections (connections st ++
                [ {| c_id := id; c_from := fromProcess; c_to := toProcessId;
                     c_type := type; c_state := CIdle;
                     c_capacity := if decide (type = Queue) then Some 10 else None;
                     c_currentLoad := Some 0;
                     c_memoryRegion := region |} ]);;
              logEvent env LSuccess "Connection Created";;
              toast "Connection Created" false;;
              setConnectMode idle_mode
        end
  | None => ret tt
  end.

(** [busyProcesses] of [checkForDeadlocks]. *)
Definition busyProcesses (activeConnections : list Connection) : gset string :=
  foldl (fun busy conn => {[c_to conn]} ∪ ({[c_from conn]} ∪ busy))
        ∅ activeConnections.

Definition checkForDeadlocks (env : Env) (st : State) : Handler unit :=
  let activeConnections := filter is_active (connections st) in
  if bool_decide (0 < length activeConnections)%nat
     && bool_decide (size (busyProcesses activeConnections) = length (processes st))
     && bool_decide (1 < length (processes st))%nat
  then
    setProcesses (p_set_state PDeadlocked <$> processes st);;
    setConnections
      ((fun c => c_set_state
                   (if decide (c_state c = CActive) then CDeadlocked else c_state c) c)
       <$> connections st);;
    logEvent env LError "Deadlock Detected";;
    toast "Deadlock Detected" true
  else ret tt.

(** The connection that [sendData] and [consumeData] resolve a pair of
    processes to. *)
Definition find_connection (cs : list Connection) (fromProcessId toProcessId : string)
    : option Connection :=
  List.find (fun c =>
    bool_decide ((c_from c = fromProcessId /\ c_to c = toProcessId) \/
                 (c_type c = Pipe /\ c_from c = toProcessId /\
                  c_to c = fromProcessId))) cs.

(** [connection.type === "memory" && connection.memoryRegion] *)
Definition guarded_region (connection : Connection) : option MemoryRegion :=
  if decide (c_type connection = Memory) then c_memoryRegion connection else None.

(** [Math.floor(Math.random() * 5) + 1] *)
Definition transfer_size (r : Q) : Z := Qfloor (double_mul r 5) + 1.

(** The part of [sendData] after the queue and memory checks. *)
Definition send_transfer (env : Env) (st : State) (connection : Connection)
    (fromProcessId : string) : Handler unit :=
  id <- generateId env;;
  let resourceId := String.append
        (if decide (c_type connection = Memory) then "mem_" else "res_") id in
  setProcesses (map_process fromProcessId
    (fun p => p_set_resources (p_resources p ++ [resourceId])
                (p_set_state PRunning p)) (processes st));;
  tid <- generateId env;;
  r <- Math_random env;;
  setDataTransfers (dataTransfers st ++
    [ {| t_id := tid; t_connectionId := c_id connection;
         t_startTime := now env; t_progress := 0;
         t_size := transfer_size r; t_type := Produce |} ]);;
  setConnections (map_connection (c_id connection)
    (fun c => c_set_currentLoad (Some (or_default (c_currentLoad c) 0 + 1))
                (c_set_state CActive c)) (connections st));;
  logEvent env LInfo "Data Transfer Started";;
  setTimeout st (ReleaseSend connection fromProcessId resourceId) 2000;;
  checkForDeadlocks env st.

(** The shared-memory part of [sendData], then the transfer. *)
Definition send_memory (env : Env) (st : State) (connection : Connection)
    (fromProcessId : string) : Handler unit :=
  match guarded_region connection with
  | Some region =>
      if hasWriter (mr_semaphore region)
         || bool_decide (0 < currentReaders (mr_semaphore region))
      then
        logEvent env LWarning "Memory Access Blocked";;
        toast "Memory Locked" true;;
        setProcesses (map_process fromProcessId
          (fun p => p_set_waitingFor (Some (mr_id region))
                      (p_set_state PBlocked p)) (processes st))
      else
        setConnections (map_region (mr_id region) (sem_set_hasWriter true)
                          (connections st));;
        send_transfer env st connection fromProcessId
  | None => send_transfer env st connection fromProcessId
  end.

Definition sendData (env : Env) (st : State) (fromProcessId toProcessId : string)
    : Handler unit :=
  match find_connection (connections st) fromProcessId toProcessId with
  | None => ret tt
  | Some connection =>
      if decide (c_type connection = Queue) then
        let currentLoad := or_default (c_currentLoad connection) 0 in
        let capacity := or_default (c_capacity connection) 10 in
        if bool_decide (capacity <= currentLoad) then
          logEvent env LWarning "Buffer Full";;
          toast "Queue Full" true
        else
          r <- Math_random env;;
          if Qlt_le_dec r (2 # 10) then
            setProcesses (map_process fromProcessId (p_set_state PBlocked)
                            (processes st));;
            setTimeout st (UnblockProcess fromProcessId) 1000
          else send_memory env st connection fromProcessId
      else send_memory env st connection fromProcessId
  end.

(** The part of [consumeData] after the queue and memory checks. *)
Definition consume_transfer (env : Env) (st : State) (connection : Connection)
    (toProcessId : string) : Handler unit :=
  resourceId <- generateId env;;
  setProcesses (map_process toProcessId
    (fun p => p_set_resources (p_resources p ++ [resourceId])
                (p_set_state PRunning p)) (processes st));;
  tid <- generateId env;;
  r <- Math_random env;;
  setDataTransfers (dataTransfers st ++
    [ {| t_id := tid; t_connectionId := c_id connection;
         t_startTime := now env; t_progress := 0;
         t_size := transfer_size r; t_type := Consume |} ]);;
  setConnections (map_connection (c_id connection)
    (fun c => c_set_currentLoad
                (Some (Z.max 0 (or_default (c_currentLoad c) 1 - 1)))
                (c_set_state CActive c)) (connections st));;
  logEvent env LInfo "Resource Consumption Started";;
  setTimeout st (ReleaseConsume connection toProcessId resourceId) 2000.

Definition consumeData (env : Env) (st : State) (fromProcessId toProcessId : string)
    : Handler unit :=
  match find_connection (connections st) fromProcessId toProcessId with
  | None => ret tt
  | Some connection =>
      if decide (c_type connection = Queue) then
        let currentLoad := or_default (c_currentLoad connection) 0 in
        if bool_decide (currentLoad = 0) then
          logEvent env LWarning "Queue Empty";;
          toast "Queue Empty" true;;
          setProcesses (map_process toProcessId (p_set_state PBlocked)
                          (processes st));;
          setTimeout st (UnblockProcess toProcessId) 1000
        else consume_transfer env st connection toProcessId
      else
        match guarded_region connection with
        | Some region =>
            if hasWriter (mr_semaphore region) then
              logEvent env LWarning "Memory Access Blocked";;
              toast "Memory Locked" true;;
              setProcesses (map_process toProcessId
                (fun p => p_set_waitingFor (Some (mr_id region))
                            (p_set_state PBlocked p)) (processes st))
            else if bool_decide (maxReaders (mr_semaphore region)
                                 <= currentReaders (mr_semaphore region)) then
              logEvent env LWarning "Memory Access Blocked";;
              toast "Reader Limit" true
            else
              setConnections (map_region (mr_id region)
                (fun s => sem_set_currentReaders (currentReaders s + 1) s)
                (connections st));;
              id <- generateId env;;
              let resourceId := String.append "read_mem_" id in
              setProcesses (map_process toProcessId
                (fun p => p_set_memoryAccess
                            (Some {| ma_type := ReadAccess;
                                     ma_regionId := mr_id region |})
                            (p_set_resources (p_resources p ++ [resourceId])
                               (p_set_state PRunning p))) (processes st));;
              consume_transfer env st connection toProcessId
        | None => consume_transfer env st connection toProcessId
        end
  end.

(** The end of both release callbacks: waking the processes that wait
    for the region. *)
Definition wake_waiters (st : State) (connection : Connection) : Handler unit :=
  match guarded_region connection with
  | Some region =>
      let blockedProcesses :=
        filter (fun p => p_state p = PBlocked /\ p_waitingFor p = Some (mr_id region))
               (processes st) in
      if bool_decide (0 < length blockedProcesses)%nat then
        setProcesses
          ((fun p => if decide (p_waitingFor p = Some (mr_id region))
                     then p_set_waitingFor None (p_set_state PIdle p) else p)
           <$> processes st)
      else ret tt
  | None => ret tt
  end.

Definition release_process (st : State) (processId resourceId : string)
    : Handler unit :=
  setProcesses (map_process processId
    (fun p => p_set_memoryAccess None
                (p_set_resources
                   (filter (fun r => r <> resourceId) (p_resources p))
                   (p_set_state PIdle p))) (processes st)).

(** A timer callback, run with the state [st] it captured. *)
Definition run_timer_body (env : Env) (st : State) (body : TimerBody)
    : Handler unit :=
  match body with
  | UnblockProcess processId =>
      setProcesses (map_process processId (p_set_state PIdle) (processes st))
  | ReleaseSend connection fromProcessId resourceId =>
      match guarded_region connection with
      | Some region =>
          setConnections (map_region (mr_id region) (sem_set_hasWriter false)
                            (connections st))
      | None => ret tt
      end;;
      release_process st fromProcessId resourceId;;
      logEvent env LInfo "Resources Released";;
      wake_waiters st connection
  | ReleaseConsume connection toProcessId resourceId =>
      match guarded_region connection with
      | Some region =>
          setConnections (map_region (mr_id region)
            (fun s => sem_set_currentReaders (Z.max 0 (currentReaders s - 1)) s)
            (connections st))
      | None => ret tt
      end;;
      release_process st toProcessId resourceId;;
      logEvent env LInfo "Resources Released";;
      wake_waiters st connection
  end.

Definition run_timer (env : Env) (t : Timer) : Handler unit :=
  run_timer_body env (tm_closure t) (tm_body t).

(** The 500 ms interval of the transfer effect.  Its updates are
    functions of the current cells ([prev]); [connections.find] looks
    the connection up in the state [closure] of the render that started
    the interval.  The log entry of a completion is left out. *)
Definition complete_transfer (closure : State) (prev : list Connection)
    (transfer : DataTransfer) : list Connection :=
  match List.find (fun c => bool_decide (c_id c = t_connectionId transfer))
                  (connections closure) with
  | Some connection =>
      map_connection (c_id connection)
        (fun c => c_set_currentLoad
                    (Some (Z.max 0 (or_default (c_currentLoad c) 0 - 1))) c) prev
  | None => prev
  end.

Definition advance (transfer : DataTransfer) : DataTransfer :=
  if decide (100 <= t_progress transfer) then transfer
  else {| t_id := t_id transfer; t_connectionId := t_connectionId transfer;
          t_startTime := t_startTime transfer;
          t_progress := t_progress transfer + 10;
          t_size := t_size transfer; t_type := t_type transfer |}.

Definition tick (closure cur : State) : State :=
  let prev := dataTransfers cur in
  let completedTransfers := filter (fun t => 100 <= t_progress t) prev in
  let updatedTransfers := filter (fun t => t_progress t < 100) (advance <$> prev) in
  {| processes := processes cur;
     connections := foldl (complete_transfer closure) (connections cur)
                      completedTransfers;
     dataTransfers := updatedTransfers;
     connectMode := connectMode cur |}.

Definition addProcess (env : Env) (st : State) (position : Position)
    : Handler unit :=
  id <- generateId env;;
  setProcesses (processes st ++
    [ {| p_id := id;
         p_name := String.append "Process " (pretty (S (length (processes st))));
         p_position := position; p_state := PIdle; p_resources := [];
         p_waitingFor := None; p_memoryAccess := None |} ]);;
  logEvent env LInfo "Process Created".

Definition startConnection (env : Env) (st : State) (processId : string)
    (type : IPCType) : Handler unit :=
  setConnectMode {| cm_active := true; cm_fromProcess := Some processId;
                    cm_type := type |};;
  logEvent env LInfo "Connection Started";;
  toast "Connection Started" false.

Definition removeProcess (env : Env) (st : State) (processId : string)
    : Handler unit :=
  setProcesses (filter (fun p => p_id p <> processId) (processes st));;
  setConnections (filter (fun c => c_from c <> processId /\ c_to c <> processId)
                         (connections st));;
  logEvent env LWarning "Process Removed".

(** The records that [createProducerConsumerSimulation] and
    [createDeadlockDemoSimulation] install, given the identifiers drawn
    for them. *)
Definition demo_process (id name : string) (x y : Z) : Process :=
  {| p_id := id; p_name := name;
     p_position := {| pos_x := inject_Z x; pos_y := inject_Z y |};
     p_state := PIdle; p_resources := []; p_waitingFor := None;
     p_memoryAccess := None |}.

Definition demo_queue (id from to : string) : Connection :=
  {| c_id := id; c_from := from; c_to := to; c_type := Queue; c_state := CIdle;
     c_capacity := Some 5; c_currentLoad := Some 0; c_memoryRegion := None |}.

Definition demo_memory (id from to : string) : Connection :=
  {| c_id := id; c_from := from; c_to := to; c_type := Memory; c_state := CIdle;
     c_capacity := None; c_currentLoad := Some 0; c_memoryRegion := None |}.

Definition producerConsumerDemo (producer consumer buffer q1 q2 : string) : State :=
  {| processes := [ demo_process producer "Producer" 200 200;
                    demo_process consumer "Consumer" 500 200;
                    demo_process buffer "Buffer" 350 350 ];
     connections := [ demo_queue q1 producer buffer;
                      demo_queue q2 buffer consumer ];
     dataTransfers := [];
     connectMode := idle_mode |}.

Definition deadlockDemo (a b c ab bc ca : string) : State :=
  {| processes := [ demo_process a "Process A" 250 150;
                    demo_process b "Process B" 450 150;
                    demo_process c "Process C" 350 300 ];
     connections := [ demo_memory ab a b; demo_memory bc b c;
                      demo_memory ca c a ];
     dataTransfers := [];
     connectMode := idle_mode |}.

(** ** The component over time

    The state of the last render together with the timers that have not
    fired yet.  An operation runs one handler on the current state and
    commits what it set; a timer runs on the state it captured. *)
Record World := {
  current : State;
  pending : list Timer;
  ids_drawn : nat;
  randoms_drawn : nat
}.

Inductive Op :=
| OpAddProcess (position : Position)
| OpRemoveProcess (processId : string)
| OpStartConnection (processId : string) (type : IPCType)
| OpCompleteConnection (toProcessId : string)
| OpSend (fromProcessId toProcessId : string)
| OpConsume (fromProcessId toProcessId : string)
| OpFire (n : nat)
| OpTick.

(** The identifiers and random numbers still to come. *)
Definition rest_of (env : Env) (w : World) : Env :=
  {| genId := fun n => genId env (ids_drawn w + n)%nat;
     random := fun n => random env (randoms_drawn w + n)%nat;
     now := now env |}.

Definition after (w : World) (pending' : list Timer) (h : Handler unit) : World :=
  let e := run h in
  {| current := commit (current w) e;
     pending := pending' ++ timers e;
     ids_drawn := (ids_drawn w + ids_used e)%nat;
     randoms_drawn := (randoms_drawn w + randoms_used e)%nat |}.

Definition step (env : Env) (w : World) (op : Op) : World :=
  let st := current w in
  let env' := rest_of env w in
  match op with
  | OpAddProcess position => after w (pending w) (addProcess env' st position)
  | OpRemoveProcess processId => after w (pending w) (removeProcess env' st processId)
  | OpStartConnection processId type =>
      after w (pending w) (startConnection env' st processId type)
  | OpCompleteConnection toProcessId =>
      after w (pending w) (completeConnection env' st toProcessId)
  | OpSend f t => after w (pending w) (sendData env' st f t)
  | OpConsume f t => after w (pending w) (consumeData env' st f t)
  | OpFire n =>
      match pending w !! n with
      | Some t => after w (delete n (pending w)) (run_timer env' t)
      | None => w
      end
  | OpTick =>
      {| current := tick st st; pending := pending w;
         ids_drawn := ids_drawn w; randoms_drawn := randoms_drawn w |}
  end.

Definition steps (env : Env) (w : World) (ops : list Op) : World :=
  foldl (step env) w ops.

Definition on_state (st : State) : World :=
  {| current := st; pending := []; ids_drawn := 0; randoms_drawn := 0 |}.

Definition empty_canvas : World :=
  on_state {| processes := []; connections := []; dataTransfers := [];
              connectMode := idle_mode |}.

(** ** The vocabulary of the specification *)

(** The wait-for graph: an edge for every active connection. *)
Definition edge (activeConnections : list Connection) (u v : string) : Prop :=
  exists c, c ∈ activeConnections /\ c_from c = u /\ c_to c = v.

Inductive reaches (activeConnections : list Connection) : string -> string -> Prop :=
| reaches_edge u v : edge activeConnections u v -> reaches activeConnections u v
| reaches_more u v w :
    edge activeConnections u v -> reaches activeConnections v w ->
    reaches activeConnections u w.

Definition has_cycle (activeConnections : list Connection) : Prop :=
  exists u, reaches activeConnections u u.

(** [walk active nodes ids last]: the connection with the i-th identifier
    is active and leads from the i-th node to the next one, the last of
    them to [last]. *)
Fixpoint walk (activeConnections : list Connection) (nodes ids : list string)
    (last : string) : Prop :=
  match nodes, ids with
  | [], [] => True
  | u :: nodes', i :: ids' =>
      (exists c, c ∈ activeConnections /\ c_id c = i /\ c_from c = u /\
                 c_to c = hd last nodes')
      /\ walk activeConnections nodes' ids' last
  | _, _ => False
  end.

(** A reported cycle traces a cycle of the graph: its process list is a
    list of distinct nodes followed by the first of them again, and its
    connection list leads along it and back. *)
Definition traces_cycle (activeConnections : list Connection) (cyc : DeadlockCycle)
    : Prop :=
  exists first rest,
    dc_processes cyc = first :: rest ++ [first] /\
    NoDup (first :: rest) /\
    walk activeConnections (first :: rest) (dc_connections cyc) first.

(** A name that the graph inherits: the name of a member of
    [Object.prototype] that is no identifier of a process.  What the graph
    has under such a name is no array. *)
Definition inherited (processes : list Process) (k : string) : Prop :=
  k ∈ Object_prototype_members /\ k ∉ p_id <$> processes.

(** No process is called "__proto__", and no active connection starts or
    ends at a name that the graph inherits. *)
Definition usable_ids (processes : list Process)
    (activeConnections : list Connection) : Prop :=
  ("__proto__" ∉ p_id <$> processes) /\
  Forall (fun c => ~ inherited processes (c_from c) /\
                   ~ inherited processes (c_to c)) activeConnections.

#[global] Instance inherited_dec processes k : Decision (inherited processes k).
Proof. unfold inherited. apply _. Defined.

#[global] Instance usable_ids_dec processes activeConnections :
  Decision (usable_ids processes activeConnections).
Proof. unfold usable_ids. apply _. Defined.

(** What the search has made of the nodes that it has visited: none of
    them has made it throw, and of a node that is off the recursion stack
    it has visited every neighbour that an active connection leads to. *)
Definition visited_ok (graph : Graph) (activeConnections : list Connection)
    (st : Dfs) : Prop :=
  recursionStack st ⊆ visited st /\
  (forall x, x ∈ visited st -> neighbors_of graph x <> ThrowsTypeError) /\
  (forall x neighbors v,
     x ∈ visited st -> x ∉ recursionStack st ->
     neighbors_of graph x = Returns neighbors -> v ∈ neighbors ->
     is_Some (List.find (fun c => bool_decide (c_from c = x /\ c_to c = v))
                        activeConnections) ->
     v ∈ visited st).

(** Invariants of the search.  A node is finished once it is visited and
    off the recursion stack; as long as no cycle has been reported, the
    finished nodes are closed under edges and lie on no cycle. *)
Definition finished (st : Dfs) (u : string) : Prop :=
  u ∈ visited st /\ u ∉ recursionStack st.

Definition finished_ok (activeConnections : list Connection) (st : Dfs) : Prop :=
  cycles st = [] ->
  forall u, finished st u ->
    (forall v, edge activeConnections u v -> finished st v) /\
    ~ reaches activeConnections u u.

Definition search_inv (activeConnections : list Connection) (st : Dfs) : Prop :=
  recursionStack st ⊆ visited st /\
  Forall (traces_cycle activeConnections) (cycles st) /\
  finished_ok activeConnections st.

(** What a call of [findCycles] on a node of [U] guarantees, for a given
    depth. *)
Definition call_ok (env : Env) (graph : Graph) (active : list Connection)
    (U : gset string) (fuel : nat) : Prop :=
  forall n path connPath st,
    n ∈ U ->
    (size (U ∖ visited st) < fuel)%nat ->
    recursionStack st = list_to_set path ->
    NoDup path ->
    walk active path connPath n ->
    search_inv active st ->
    exists st',
      findCycles env graph active fuel n path connPath st = Returns st' /\
      recursionStack st' = recursionStack st /\
      visited st ⊆ visited st' /\
      n ∈ visited st' /\
      (cycles st' = [] -> cycles st = [] /\ n ∉ recursionStack st) /\
      search_inv active st'.

(** The active connections are exactly three, and they form the cycle
    [a -> b -> c -> a] of three different processes. *)
Definition forms_three_cycle (activeConnections : list Connection)
    (a b c : string) (cab cbc cca : Connection) : Prop :=
  activeConnections ≡ₚ [cab; cbc; cca] /\
  (c_from cab = a /\ c_to cab = b) /\
  (c_from cbc = b /\ c_to cbc = c) /\
  (c_from cca = c /\ c_to cca = a) /\
  a <> b /\ b <> c /\ a <> c.

(** The record that the [n]-th [cycles.push] of a scan creates. *)
Definition reported (env : Env) (n : nat) (cyclePath cycleConnections : list string)
    : DeadlockCycle :=
  {| dc_id := genId env n; dc_processes := cyclePath;
     dc_connections := cycleConnections; dc_detectedAt := now env;
     dc_resolved := false; dc_resolutionStrategy := None |}.

(** Sample surroundings and records for the concrete scenarios. *)
Definition sample_env : Env :=
  {| genId := fun n => String.append "id" (pretty n);
     random := fun _ => 1 # 2;
     now := 0 |}.

Definition idle_process (id : string) : Process := demo_process id id 0 0.

Definition active_memory (id from to : string) : Connection :=
  c_set_state CActive (demo_memory id from to).

(** The first sentence of the cycle-detection property, read literally:
    whenever the active connections form the cycle [a -> b -> c -> a],
    some reported cycle lists the processes as [a; b; c; a] and the
    connections in that order. *)
Definition reports_cycle_as_labelled (env : Env) (processes : list Process)
    (connections : list Connection) (a b c : string) (cab cbc cca : Connection)
    : Prop :=
  forms_three_cycle (filter is_active connections) a b c cab cbc cca ->
  exists found cyc,
    detectDeadlockCycles env processes connections = Returns found /\
    cyc ∈ found /\
    dc_processes cyc = [a; b; c; a] /\
    dc_connections cyc = [c_id cab; c_id cbc; c_id cca].

(** ** Vocabulary for the resource coordinator *)

(** The failures of an acquisition, told apart by the toast that reports
    them; a pair of processes without a connection is not reported at all. *)
Inductive Failure :=
| QueueFull | QueueEmpty | MemoryLocked | MaxReadersReached | NoConnectionBetween.

Definition failure_of_toast (t : Toast) : option Failure :=
  if decide (toast_title t = "Queue Full") then Some QueueFull
  else if decide (toast_title t = "Queue Empty") then Some QueueEmpty
  else if decide (toast_title t = "Memory Locked") then Some MemoryLocked
  else if decide (toast_title t = "Reader Limit") then Some MaxReadersReached
  else None.

Definition failure (st : State) (fromProcessId toProcessId : string) (e : Effects)
    : option Failure :=
  match find_connection (connections st) fromProcessId toProcessId with
  | None => Some NoConnectionBetween
  | Some _ => head (toasts e) ≫= failure_of_toast
  end.

(** The error-handling property, read literally: an acquisition that
    fails leaves the whole state as it was. *)
Definition failure_changes_nothing
    (op : Env -> State -> string -> string -> Handler unit)
    (env : Env) (st : State) (fromProcessId toProcessId : string) : Prop :=
  let e := run (op env st fromProcessId toProcessId) in
  is_Some (failure st fromProcessId toProcessId e) -> commit st e = st.

(** The state [st] with only the process [processId] changed by [f]. *)
Definition only_process (st : State) (processId : string) (f : Process -> Process)
    : State :=
  {| processes := map_process processId f (processes st);
     connections := connections st;
     dataTransfers := dataTransfers st;
     connectMode := connectMode st |}.

Definition block : Process -> Process := p_set_state PBlocked.

Definition block_on (regionId : string) (p : Process) : Process :=
  p_set_waitingFor (Some regionId) (p_set_state PBlocked p).

(** The invariant of bounded queues. *)
Definition load_ok (c : Connection) : Prop :=
  c_type c = Queue ->
  0 <= or_default (c_currentLoad c) 0 <= or_default (c_capacity c) 10.

(** The invariant of the reader/writer semaphore, and the agreement of
    the copies of a region that the connections carry. *)
Definition sem_ok (s : Semaphore) : Prop :=
  (hasWriter s = true -> currentReaders s = 0) /\
  (0 < currentReaders s -> hasWriter s = false) /\
  0 <= currentReaders s <= maxReaders s.

Definition regions_ok (cs : list Connection) : Prop :=
  (forall c r, c ∈ cs -> c_memoryRegion c = Some r -> sem_ok (mr_semaphore r)) /\
  (forall c1 c2 r1 r2, c1 ∈ cs -> c2 ∈ cs ->
     c_memoryRegion c1 = Some r1 -> c_memoryRegion c2 = Some r2 ->
     mr_id r1 = mr_id r2 -> mr_semaphore r1 = mr_semaphore r2).

(** Every connection list that a handler writes, now or through the
    timers it registers. *)
Definition connection_writes (env : Env) (e : Effects) : list (list Connection) :=
  set_connections e ++
  (timers e ≫= fun t => set_connections (run (run_timer env t))).

Definition process_writes (env : Env) (e : Effects) : list (list Process) :=
  set_processes e ++
  (timers e ≫= fun t => set_processes (run (run_timer env t))).

(** ** Vocabulary for connection creation *)

Definition duplicate_rejected (e : Effects) : Prop :=
  {| toast_title := "Connection exists"; toast_destructive := true |} ∈ toasts e.

(** The duplicate rule in the words of the specification. *)
Definition duplicate_as_specified (cs : list Connection)
    (fromProcess toProcessId : string) (type : IPCType) : Prop :=
  type <> Memory /\
  ((exists c, c ∈ cs /\ c_from c = fromProcess /\ c_to c = toProcessId /\
              c_type c = type) \/
   (type = Pipe /\
    exists c, c ∈ cs /\ c_from c = toProcessId /\ c_to c = fromProcess /\
              c_type c = Pipe)).

(** The duplicate rule of [completeConnection]. *)
Definition reusable_region (cs : list Connection) (type : IPCType) : Prop :=
  type = Memory /\
  exists c, c ∈ cs /\ c_type c = Memory /\ is_Some (c_memoryRegion c).

Definition duplicate_in_code (cs : list Connection)
    (fromProcess toProcessId : string) (type : IPCType) : Prop :=
  ~ reusable_region cs type /\
  exists c, c ∈ cs /\
    ((c_from c = fromProcess /\ c_to c = toProcessId) \/
     (c_from c = toProcessId /\ c_to c = fromProcess /\ c_type c = Pipe)).

Definition connecting (fromProcess : string) (type : IPCType) : ConnectMode :=
  {| cm_active := true; cm_fromProcess := Some fromProcess; cm_type := type |}.

(** ** Vocabulary for the deadlock check *)

Definition deadlock_flagged (e : Effects) : Prop :=
  {| toast_title := "Deadlock Detected"; toast_destructive := true |} ∈ toasts e.

(** A process is implicated in the cycles found when it is on one. *)
Definition implicated (found : list DeadlockCycle) (processId : string) : Prop :=
  exists cyc, cyc ∈ found /\ processId ∈ dc_processes cyc.

(** The marking property, read literally: the deadlock check changes the
    state of no process outside the cycles found. *)
Definition marks_only_implicated (env : Env) (st : State) : Prop :=
  forall found i p p',
    detectDeadlockCycles env (processes st) (connections st) = Returns found ->
    processes st !! i = Some p ->
    processes (commit st (run (checkForDeadlocks env st))) !! i = Some p' ->
    p_state p' <> p_state p ->
    implicated found (p_id p).

Definition deadlock_mark (c : Connection) : Connection :=
  c_set_state (if decide (c_state c = CActive) then CDeadlocked else c_state c) c.

Definition activate_all (st : State) : State :=
  {| processes := processes st;
     connections := c_set_state CActive <$> connections st;
     dataTransfers := dataTransfers st;
     connectMode := connectMode st |}.

(** Every process is an end of some active connection. *)
Definition all_busy (st : State) : Prop :=
  forall p, p ∈ processes st ->
    exists c, c ∈ connections st /\ is_active c /\
              (c_from c = p_id p \/ c_to c = p_id p).

(** Identifiers are unique, and connections join existing processes. *)
Definition well_formed (st : State) : Prop :=
  NoDup (p_id <$> processes st) /\
  forall c, c ∈ connections st ->
    c_from c ∈ p_id <$> processes st /\ c_to c ∈ p_id <$> processes st.

(** The saturation property, read literally: the check flags a deadlock
    exactly when some connection is active, every process is an end of
    some active connection, and there is more than one process. *)
Definition saturation_as_specified (env : Env) (st : State) : Prop :=
  deadlock_flagged (run (checkForDeadlocks env st)) <->
  (exists c, c ∈ connections st /\ is_active c) /\ all_busy st /\
  (1 < length (processes st))%nat.

(** ** Vocabulary for the release *)

Definition released (resourceId : string) (p : Process) : Process :=
  p_set_memoryAccess None
    (p_set_resources (filter (fun r => r <> resourceId) (p_resources p))
       (p_set_state PIdle p)).

Definition woken (regionId : string) (p : Process) : Process :=
  if decide (p_waitingFor p = Some regionId)
  then p_set_waitingFor None (p_set_state PIdle p) else p.

Definition blocked_on (regionId : string) (p : Process) : Prop :=
  p_state p = PBlocked /\ p_waitingFor p = Some regionId.

(** What a failed acquisition by [requester] leaves behind: nothing for
    a full queue, a reached reader limit or a missing connection; for an
    empty queue or a locked region, only the requester changes, to
    blocked (and waiting for the region). *)
Definition failure_outcome (st st' : State) (requester : string)
    (connection : option Connection) (fl : Failure) : Prop :=
  match fl with
  | QueueFull | MaxReadersReached | NoConnectionBetween => st' = st
  | QueueEmpty => st' = only_process st requester block
  | MemoryLocked =>
      exists region,
        connection ≫= c_memoryRegion = Some region /\
        st' = only_process st requester (block_on (mr_id region))
  end.

(** ** The paths through [sendData] and [consumeData]

    The effects of each path, written out. *)

Definition effects (ps : list (list Process)) (cs : list (list Connection))
    (ts : list (list DataTransfer)) (tm : list Timer) (lg : list LogEntry)
    (to : list Toast) (ids randoms : nat) : Effects :=
  {| set_processes := ps; set_connections := cs; set_dataTransfers := ts;
     set_connectMode := []; timers := tm; logs := lg; toasts := to;
     ids_used := ids; randoms_used := randoms |}.

Definition log_entry (env : Env) (n : nat) (type : LogType) (message : string)
    : LogEntry :=
  {| log_id := genId env n; log_type := type; log_message := message |}.

Definition failed (title : string) : Toast :=
  {| toast_title := title; toast_destructive := true |}.

Definition timer (delay : Z) (st : State) (body : TimerBody) : Timer :=
  {| tm_delay := delay; tm_closure := st; tm_body := body |}.

(** The test of [checkForDeadlocks]. *)
Definition saturated (st : State) : bool :=
  bool_decide (0 < length (filter is_active (connections st)))%nat
  && bool_decide (size (busyProcesses (filter is_active (connections st)))
                  = length (processes st))
  && bool_decide (1 < length (processes st))%nat.

Definition holding (resourceId : string) (p : Process) : Process :=
  p_set_resources (p_resources p ++ [resourceId]) (p_set_state PRunning p).

Definition reading (resourceId regionId : string) (p : Process) : Process :=
  p_set_memoryAccess (Some {| ma_type := ReadAccess; ma_regionId := regionId |})
    (holding resourceId p).

Definition sent (c : Connection) : Connection :=
  c_set_currentLoad (Some (or_default (c_currentLoad c) 0 + 1))
    (c_set_state CActive c).

Definition consumed (c : Connection) : Connection :=
  c_set_currentLoad (Some (Z.max 0 (or_default (c_currentLoad c) 1 - 1)))
    (c_set_state CActive c).

Definition add_reader (s : Semaphore) : Semaphore :=
  sem_set_currentReaders (currentReaders s + 1) s.

Definition drop_reader (s : Semaphore) : Semaphore :=
  sem_set_currentReaders (Z.max 0 (currentReaders s - 1)) s.

Definition new_transfer (env : Env) (id : nat) (r : nat) (connection : Connection)
    (type : TransferType) : DataTransfer :=
  {| t_id := genId env id; t_connectionId := c_id connection;
     t_startTime := now env; t_progress := 0;
     t_size := transfer_size (random env r); t_type := type |}.

Definition send_resource (env : Env) (connection : Connection) : string :=
  String.append (if decide (c_type connection = Memory) then "mem_" else "res_")
                (genId env 0).

(** A send that goes through: [randoms] tells whether the queue drew a
    random number first. *)
Definition send_success (env : Env) (st : State) (connection : Connection)
    (fromProcessId : string) (randoms : nat) : Effects :=
  let resourceId := send_resource env connection in
  let alarm := saturated st in
  effects
    (map_process fromProcessId (holding resourceId) (processes st)
     :: if alarm then [p_set_state PDeadlocked <$> processes st] else [])
    (match guarded_region connection with
     | Some region => [map_region (mr_id region) (sem_set_hasWriter true)
                         (connections st)]
     | None => []
     end ++
     map_connection (c_id connection) sent (connections st)
     :: if alarm then [deadlock_mark <$> connections st] else [])
    [dataTransfers st ++ [new_transfer env 1 randoms connection Produce]]
    [timer 2000 st (ReleaseSend connection fromProcessId resourceId)]
    (log_entry env 2 LInfo "Data Transfer Started"
     :: if alarm then [log_entry env 3 LError "Deadlock Detected"] else [])
    (if alarm then [failed "Deadlock Detected"] else [])
    (if alarm then 4 else 3) (S randoms).

Inductive send_path (env : Env) (st : State) (fromProcessId toProcessId : string)
    : Effects -> Prop :=
| send_no_connection :
    find_connection (connections st) fromProcessId toProcessId = None ->
    send_path env st fromProcessId toProcessId no_effects
| send_queue_full connection :
    find_connection (connections st) fromProcessId toProcessId = Some connection ->
    c_type connection = Queue ->
    or_default (c_capacity connection) 10 <= or_default (c_currentLoad connection) 0 ->
    send_path env st fromProcessId toProcessId
      (effects [] [] [] [] [log_entry env 0 LWarning "Buffer Full"]
         [failed "Queue Full"] 1 0)
| send_queue_contended connection :
    find_connection (connections st) fromProcessId toProcessId = Some connection ->
    c_type connection = Queue ->
    or_default (c_currentLoad connection) 0 < or_default (c_capacity connection) 10 ->
    (random env 0 < 2 # 10)%Q ->
    send_path env st fromProcessId toProcessId
      (effects [map_process fromProcessId block (processes st)] [] []
         [timer 1000 st (UnblockProcess fromProcessId)] [] [] 0 1)
| send_queue connection :
    find_connection (connections st) fromProcessId toProcessId = Some connection ->
    c_type connection = Queue ->
    or_default (c_currentLoad connection) 0 < or_default (c_capacity connection) 10 ->
    (2 # 10 <= random env 0)%Q ->
    send_path env st fromProcessId toProcessId
      (send_success env st connection fromProcessId 1)
| send_memory_locked connection region :
    find_connection (connections st) fromProcessId toProcessId = Some connection ->
    c_type connection = Memory ->
    c_memoryRegion connection = Some region ->
    hasWriter (mr_semaphore region) = true \/ 0 < currentReaders (mr_semaphore region) ->
    send_path env st fromProcessId toProcessId
      (effects [map_process fromProcessId (block_on (mr_id region)) (processes st)]
         [] [] [] [log_entry env 0 LWarning "Memory Access Blocked"]
         [failed "Memory Locked"] 1 0)
| send_memory_write connection region :
    find_connection (connections st) fromProcessId toProcessId = Some connection ->
    c_type connection = Memory ->
    c_memoryRegion connection = Some region ->
    hasWriter (mr_semaphore region) = false ->
    currentReaders (mr_semaphore region) <= 0 ->
    send_path env st fromProcessId toProcessId
      (send_success env st connection fromProcessId 0)
| send_plain connection :
    find_connection (connections st) fromProcessId toProcessId = Some connection ->
    c_type connection <> Queue ->
    guarded_region connection = None ->
    send_path env st fromProcessId toProcessId
      (send_success env st connection fromProcessId 0).

(** A consumption that goes through. *)
Definition consume_success (env : Env) (st : State) (connection : Connection)
    (toProcessId : string) : Effects :=
  let first := match guarded_region connection with Some _ => 1%nat | None => 0%nat end in
  effects
    (match guarded_region connection with
     | Some region =>
         [map_process toProcessId
            (reading (String.append "read_mem_" (genId env 0)) (mr_id region))
            (processes st)]
     | None => []
     end ++
     [map_process toProcessId (holding (genId env first)) (processes st)])
    (match guarded_region connection with
     | Some region => [map_region (mr_id region) add_reader (connections st)]
     | None => []
     end ++
     [map_connection (c_id connection) consumed (connections st)])
    [dataTransfers st ++ [new_transfer env (S first) 0 connection Consume]]
    [timer 2000 st (ReleaseConsume connection toProcessId (genId env first))]
    [log_entry env (S (S first)) LInfo "Resource Consumption Started"]
    [] (S (S (S first))) 1.

Inductive consume_path (env : Env) (st : State) (fromProcessId toProcessId : string)
    : Effects -> Prop :=
| consume_no_connection :
    find_connection (connections st) fromProcessId toProcessId = None ->
    consume_path env st fromProcessId toProcessId no_effects
| consume_queue_empty connection :
    find_connection (connections st) fromProcessId toProcessId = Some connection ->
    c_type connection = Queue ->
    or_default (c_currentLoad connection) 0 = 0 ->
    consume_path env st fromProcessId toProcessId
      (effects [map_process toProcessId block (processes st)] [] []
         [timer 1000 st (UnblockProcess toProcessId)]
         [log_entry env 0 LWarning "Queue Empty"] [failed "Queue Empty"] 1 0)
| consume_queue connection :
    find_connection (connections st) fromProcessId toProcessId = Some connection ->
    c_type connection = Queue ->
    or_default (c_currentLoad connection) 0 <> 0 ->
    consume_path env st fromProcessId toProcessId
      (consume_success env st connection toProcessId)
| consume_memory_locked connection region :
    find_connection (connections st) fromProcessId toProcessId = Some connection ->
    c_type connection = Memory ->
    c_memoryRegion connection = Some region ->
    hasWriter (mr_semaphore region) = true ->
    consume_path env st fromProcessId toProcessId
      (effects [map_process toProcessId (block_on (mr_id region)) (processes st)]
         [] [] [] [log_entry env 0 LWarning "Memory Access Blocked"]
         [failed "Memory Locked"] 1 0)
| consume_reader_limit connection region :
    find_connection (connections st) fromProcessId toProcessId = Some connection ->
    c_type connection = Memory ->
    c_memoryRegion connection = Some region ->
    hasWriter (mr_semaphore region) = false ->
    maxReaders (mr_semaphore region) <= currentReaders (mr_semaphore region) ->
    consume_path env st fromProcessId toProcessId
      (effects [] [] [] [] [log_entry env 0 LWarning "Memory Access Blocked"]
         [failed "Reader Limit"] 1 0)
| consume_memory_read connection region :
    find_connection (connections st) fromProcessId toProcessId = Some connection ->
    c_type connection = Memory ->
    c_memoryRegion connection = Some region ->
    hasWriter (mr_semaphore region) = false ->
    currentReaders (mr_semaphore region) < maxReaders (mr_semaphore region) ->
    consume_path env st fromProcessId toProcessId
      (consume_success env st connection toProcessId)
| consume_plain connection :
    find_connection (connections st) fromProcessId toProcessId = Some connection ->
    c_type connection <> Queue ->
    guarded_region connection = None ->
    consume_path env st fromProcessId toProcessId
      (consume_success env st connection toProcessId).

Definition queue_demo : State := producerConsumerDemo "P" "C" "B" "q1" "q2".

(** Two processes joined by one active connection: everyone is busy,
    and there is no cycle. *)
Definition busy_pair : State :=
  {| processes := [idle_process "A"; idle_process "B"];
     connections := [active_memory "ab" "A" "B"];
     dataTransfers := []; connectMode := idle_mode |}.

(** A canvas with a connection left over from a removed process: three
    processes are added, a pipe is started at the first of them, the first
    is removed, the pipe is completed at the third, and the third sends
    over it. *)
Definition canvas_with_dangling_pipe : State :=
  current (steps sample_env empty_canvas
    [ OpAddProcess {| pos_x := 0; pos_y := 0 |};
      OpAddProcess {| pos_x := 1; pos_y := 0 |};
      OpAddProcess {| pos_x := 2; pos_y := 0 |};
      OpStartConnection "id0" Pipe;
      OpRemoveProcess "id0";
      OpCompleteConnection "id4";
      OpSend "id4" "id0" ]).

(** A cycle of three processes and a fourth process that takes no part. *)
Definition cycle_with_bystander : State :=
  {| processes := [idle_process "A"; idle_process "B"; idle_process "C";
                   idle_process "D"];
     connections := [active_memory "ab" "A" "B"; active_memory "bc" "B" "C";
                     active_memory "ca" "C" "A"];
     dataTransfers := []; connectMode := idle_mode |}.

(** A cycle of three processes and a fourth process that sends into it. *)
Definition cycle_with_feeder : State :=
  {| processes := [idle_process "A"; idle_process "B"; idle_process "C";
                   idle_process "D"];
     connections := [active_memory "ab" "A" "B"; active_memory "bc" "B" "C";
                     active_memory "ca" "C" "A"; active_memory "da" "D" "A"];
     dataTransfers := []; connectMode := idle_mode |}.

(** The duplicate rule of the specification, as a property of
    [completeConnection]. *)
Definition rejects_as_specified (env : Env) (st : State) (toProcessId : string)
    : Prop :=
  forall from type,
    connectMode st = connecting from type ->
    (duplicate_rejected (run (completeConnection env st toProcessId)) <->
     duplicate_as_specified (connections st) from toProcessId type).

(** Two processes joined by a queue, and a pipe requested between them in
    the same direction. *)
Definition pipe_over_queue : State :=
  {| processes := [idle_process "A"; idle_process "B"];
     connections := [demo_queue "q" "A" "B"];
     dataTransfers := [];
     connectMode := connecting "A" Pipe |}.

(** A region [m] and a memory connection that carries it. *)
Definition shared_region (writer : bool) (readers : Z) : MemoryRegion :=
  {| mr_id := "m";
     mr_semaphore := {| maxReaders := 5; currentReaders := readers;
                        hasWriter := writer |} |}.

Definition shared_memory (id from to : string) (region : MemoryRegion) : Connection :=
  {| c_id := id; c_from := from; c_to := to; c_type := Memory; c_state := CIdle;
     c_capacity := None; c_currentLoad := Some 0; c_memoryRegion := Some region |}.

(** A writer [P] of the region [m], and a process [W] blocked on [m]. *)
Definition blocked_waiter : State :=
  {| processes := [ holding "mem_x" (idle_process "P");
                    block_on "m" (idle_process "W") ];
     connections := [shared_memory "pw" "P" "W" (shared_region true 0)];
     dataTransfers := [];
     connectMode := idle_mode |}.

(** ** Vocabulary for memory connections without a region *)

(** No process of [after] has been set to blocked or been given
    something to wait for. *)
Definition never_blocks (before after : list Process) : Prop :=
  Forall2 (fun p p' => p_waitingFor p' = p_waitingFor p /\
                       (p_state p' = PBlocked -> p_state p = PBlocked))
          before after.

(** The state with every semaphore replaced through [g]. *)
Definition with_semaphores (g : Semaphore -> Semaphore) (st : State) : State :=
  {| processes := processes st;
     connections := c_set_semaphore g <$> connections st;
     dataTransfers := dataTransfers st;
     connectMode := connectMode st |}.

(** A three-process state with a memory connection that carries no
    region, as the deadlock demo creates it. *)
Definition regionless_demo : State := deadlockDemo "A" "B" "C" "ab" "bc" "ca".

(** An operation on [connection] that goes through like one on a pipe:
    it reports no failure (the only toast it can raise is the deadlock
    alarm), starts a transfer of the given kind, and neither it nor the
    release it schedules writes a semaphore or blocks a process. *)
Definition proceeds_like_pipe (env' : Env) (st : State) (f t : string)
    (connection : Connection) (kind : TransferType) (e : Effects) : Prop :=
  failure st f t e = None /\
  Forall (fun raised => raised = failed "Deadlock Detected") (toasts e) /\
  (exists tr, set_dataTransfers e = [dataTransfers st ++ [tr]] /\
              t_connectionId tr = c_id connection /\ t_type tr = kind) /\
  Forall (fun cs' => c_memoryRegion <$> cs' = c_memoryRegion <$> connections st)
         (connection_writes env' e) /\
  Forall (never_blocks (processes st)) (process_writes env' e).

(** An operation whose effects do not depend on the values of the
    semaphores: with every semaphore replaced, it reports the same,
    writes the same processes and transfers, and writes the same
    connections up to the replaced semaphores. *)
Definition ignores_semaphores (st : State) (run_on : State -> Effects) : Prop :=
  forall g,
    let e := run_on st in
    let e' := run_on (with_semaphores g st) in
    toasts e' = toasts e /\ logs e' = logs e /\
    set_processes e' = set_processes e /\
    set_dataTransfers e' = set_dataTransfers e /\
    set_connections e'
    = (fun cs : list Connection => c_set_semaphore g <$> cs) <$> set_connections e.

(** [n] sends in a row, each on the state that the one before has left:
    the failure that each of them reports, and the outcome. *)
Fixpoint send_repeatedly (env : Env) (w : World) (f t : string) (n : nat)
    : list (option Failure) * World :=
  match n with
  | O => ([], w)
  | S n' =>
      let e := run (sendData (rest_of env w) (current w) f t) in
      let (fs, w') := send_repeatedly env (step env w (OpSend f t)) f t n' in
      (failure (current w) f t e :: fs, w')
  end.

(** The producer-consumer demo with the consumer removed: two processes
    and one queue of capacity 5. *)
Definition producer_and_buffer : World :=
  step sample_env (on_state queue_demo) (OpRemoveProcess "C").

(** The producer-consumer demo after the producer has sent to the buffer
    and the buffer to the consumer. *)
Definition busy_queue_demo : World :=
  steps sample_env (on_state queue_demo) [OpSend "P" "B"; OpSend "B" "C"].

(** Two idle processes sharing a free memory region. *)
Definition free_region_demo : State :=
  {| processes := [idle_process "P"; idle_process "W"];
     connections := [shared_memory "pw" "P" "W" (shared_region false 0)];
     dataTransfers := [];
     connectMode := idle_mode |}.

Definition loads (w : World) : list (option Z) :=
  c_currentLoad <$> connections (current w).

(** ** [src/components/ProcessCanvas.tsx]: clicks, demos and effects *)

Inductive InteractionMode := CreateMode | HandMode.

(** [handleCanvasClick]: [canvas] is the corner ([rect.left], [rect.top])
    of the canvas when [canvasRef.current] is set, and [click] is
    ([e.clientX], [e.clientY]). *)
Definition handleCanvasClick (env : Env) (st : State)
    (interactionMode : InteractionMode) (canvas : option Position)
    (click : Position) : Handler unit :=
  if cm_active (connectMode st) then
    logEvent env LInfo "Connection Cancelled";;
    setConnectMode idle_mode
  else
    match interactionMode, canvas with
    | CreateMode, Some rect =>
        addProcess env st {| pos_x := (pos_x click - pos_x rect)%Q;
                             pos_y := (pos_y click - pos_y rect)%Q |}
    | _, _ => ret tt
    end.

(** [handleNodeClick] of [src/components/ProcessNode.tsx], for the node
    of [process]. *)
Definition handleNodeClick (env : Env) (st : State) (process : Process)
    : Handler unit :=
  if cm_active (connectMode st)
     && negb (bool_decide (cm_fromProcess (connectMode st) = Some (p_id process)))
  then completeConnection env st (p_id process)
  else ret tt.

(** The [connectionOptions] that the canvas hands to the node of
    [process], and the send that the choice of an option starts. *)
Record ConnectionOption := {
  co_processId : string;
  co_processName : string;
  co_type : IPCType
}.

Definition connectionOptions (st : State) (process : Process)
    : list ConnectionOption :=
  (fun c =>
     let other := if decide (c_from c = p_id process) then c_to c else c_from c in
     {| co_processId := other;
        co_processName :=
          default "" (p_name <$> List.find (fun p => bool_decide (p_id p = other))
                                           (processes st));
        co_type := c_type c |})
  <$> filter (fun c => c_from c = p_id process \/ c_to c = p_id process)
             (connections st).

Definition onSendData (env : Env) (st : State) (process : Process)
    (option : ConnectionOption) : Handler unit :=
  sendData env st (p_id process) (co_processId option).

(** The connections that the canvas draws: those whose two ends are
    found among the processes. *)
Record ConnectionProps := {
  cp_connection : Connection;
  cp_fromPosition : Position;
  cp_toPosition : Position;
  cp_dataTransfers : list DataTransfer
}.

Definition drawn_connections (st : State) : list ConnectionProps :=
  omap (fun connection =>
    match List.find (fun p => bool_decide (p_id p = c_from connection)) (processes st),
          List.find (fun p => bool_decide (p_id p = c_to connection)) (processes st) with
    | Some fromProcess, Some toProcess =>
        Some {| cp_connection := connection;
                cp_fromPosition := p_position fromProcess;
                cp_toPosition := p_position toProcess;
                cp_dataTransfers :=
                  filter (fun t => t_connectionId t = c_id connection)
                         (dataTransfers st) |}
    | _, _ => None
    end) (connections st).

(** The demo handlers.  Each clears the canvas, installs its processes
    and registers, with [setTimeout(..., 100)], a callback that installs
    the connections; the handler returns that callback, with the variables
    it captures. *)
Inductive DemoCallback :=
| ProducerConsumerReady (producer consumer buffer : string)
| DeadlockDemoReady (process1 process2 process3 : string)
| PipeDemoReady (parentProcess childProcess : string).

Definition demo_pipe (id from to : string) : Connection :=
  {| c_id := id; c_from := from; c_to := to; c_type := Pipe; c_state := CIdle;
     c_capacity := None; c_currentLoad := Some 0; c_memoryRegion := None |}.

Definition createProducerConsumerSimulation (env : Env) : Handler DemoCallback :=
  setProcesses [];;
  setConnections [];;
  setDataTransfers [];;
  logEvent env LInfo "Demo Started";;
  producer <- generateId env;;
  consumer <- generateId env;;
  buffer <- generateId env;;
  setProcesses [ demo_process producer "Producer" 200 200;
                 demo_process consumer "Consumer" 500 200;
                 demo_process buffer "Buffer" 350 350 ];;
  ret (ProducerConsumerReady producer consumer buffer).

Definition createDeadlockDemoSimulation (env : Env) : Handler DemoCallback :=
  setProcesses [];;
  setConnections [];;
  setDataTransfers [];;
  logEvent env LInfo "Demo Started";;
  process1 <- generateId env;;
  process2 <- generateId env;;
  process3 <- generateId env;;
  setProcesses [ demo_process process1 "Process A" 250 150;
                 demo_process process2 "Process B" 450 150;
                 demo_process process3 "Process C" 350 300 ];;
  ret (DeadlockDemoReady process1 process2 process3).

Definition createPipeDemoSimulation (env : Env) : Handler DemoCallback :=
  setProcesses [];;
  setConnections [];;
  setDataTransfers [];;
  logEvent env LInfo "Demo Started";;
  parentProcess <- generateId env;;
  childProcess <- generateId env;;
  setProcesses [ demo_process parentProcess "Parent Process" 250 200;
                 demo_process childProcess "Child Process" 450 200 ];;
  ret (PipeDemoReady parentProcess childProcess).

(** The [setInterval(..., 2000)] that the callback of the
    producer-consumer demo starts: its body reads [connections] and calls
    [consumeData] of the render [ci_closure] in which the demo button was
    clicked. *)
Record ConsumeInterval := {
  ci_closure : State;
  ci_buffer : string;
  ci_consumer : string
}.

(** The callback of a demo, created in the render with state [st]. *)
Definition demoReady (env : Env) (st : State) (callback : DemoCallback)
    : Handler (option ConsumeInterval) :=
  match callback with
  | ProducerConsumerReady producer consumer buffer =>
      producerToBuffer <- generateId env;;
      bufferToConsumer <- generateId env;;
      setConnections [ demo_queue producerToBuffer producer buffer;
                       demo_queue bufferToConsumer buffer consumer ];;
      logEvent env LSuccess "Demo Ready";;
      toast "Simulation Created" false;;
      ret (Some {| ci_closure := st; ci_buffer := buffer;
                   ci_consumer := consumer |})
  | DeadlockDemoReady process1 process2 process3 =>
      connection1 <- generateId env;;
      connection2 <- generateId env;;
      connection3 <- generateId env;;
      setConnections [ demo_memory connection1 process1 process2;
                       demo_memory connection2 process2 process3;
                       demo_memory connection3 process3 process1 ];;
      logEvent env LSuccess "Demo Ready";;
      toast "Deadlock Demo Created" false;;
      ret None
  | PipeDemoReady parentProcess childProcess =>
      pipeConnection <- generateId env;;
      setConnections [ demo_pipe pipeConnection parentProcess childProcess ];;
      logEvent env LSuccess "Demo Ready";;
      toast "Pipe Demo Created" false;;
      ret None
  end.

(** One run of the body of the interval. *)
Definition consumeInterval (env : Env) (i : ConsumeInterval) : Handler unit :=
  match List.find (fun c => bool_decide (c_from c = ci_buffer i /\
                                          c_to c = ci_consumer i))
                  (connections (ci_closure i)) with
  | Some currentBuffer =>
      match c_currentLoad currentBuffer with
      | Some currentLoad =>
          if negb (currentLoad =? 0) && (0 <? currentLoad)
          then consumeData env (ci_closure i) (ci_buffer i) (ci_consumer i)
          else ret tt
      | None => ret tt
      end
  | None => ret tt
  end.

(** The surroundings after the identifiers and random numbers that [e]
    counts have been drawn. *)
Definition env_after (env : Env) (e : Effects) : Env :=
  {| genId := fun n => genId env (ids_used e + n)%nat;
     random := fun n => random env (randoms_used e + n)%nat;
     now := now env |}.

(** A click on a demo button in the state [st], followed by the callback
    of the demo: the state they leave, the interval started, and the
    number of identifiers drawn. *)
Record Played := {
  played_state : State;
  played_interval : option ConsumeInterval;
  played_ids : nat
}.

Definition play_demo (env : Env) (st : State) (demo : Env -> Handler DemoCallback)
    : Played :=
  let (callback, e) := demo env no_effects in
  let (interval, e') := demoReady (env_after env e) st callback no_effects in
  {| played_state := commit (commit st e) e';
     played_interval := interval;
     played_ids := (ids_used e + ids_used e')%nat |}.

Definition pipeDemo (parent child pipe : string) : State :=
  {| processes := [ demo_process parent "Parent Process" 250 200;
                    demo_process child "Child Process" 450 200 ];
     connections := [ demo_pipe pipe parent child ];
     dataTransfers := [];
     connectMode := idle_mode |}.

(** The canvas over time, demos included: the timers that were pending
    when a demo button is clicked stay pending. *)
Inductive DemoButton := ProducerConsumerButton | DeadlockButton | PipeButton.

Definition demo_of (button : DemoButton) : Env -> Handler DemoCallback :=
  match button with
  | ProducerConsumerButton => createProducerConsumerSimulation
  | DeadlockButton => createDeadlockDemoSimulation
  | PipeButton => createPipeDemoSimulation
  end.

Inductive Action :=
| Operate (op : Op)
| PlayDemo (button : DemoButton).

Definition perform (env : Env) (w : World) (a : Action) : World :=
  match a with
  | Operate op => step env w op
  | PlayDemo button =>
      let played := play_demo (rest_of env w) (current w) (demo_of button) in
      {| current := played_state played;
         pending := pending w;
         ids_drawn := (ids_drawn w + played_ids played)%nat;
         randoms_drawn := randoms_drawn w |}
  end.

Definition performs (env : Env) (w : World) (actions : list Action) : World :=
  foldl (perform env) w actions.

(** The effect on [connections] that warns of queue bottlenecks:
    [conn.capacity * 0.8] is four fifths of the capacity. *)
Definition truthy (x : option Z) : bool :=
  match x with
  | Some v => negb (v =? 0)
  | None => false
  end.

Definition bottleneck (conn : Connection) : bool :=
  bool_decide (c_type conn = Queue)
  && truthy (c_capacity conn)
  && truthy (c_currentLoad conn)
  && Qle_bool (inject_Z (default 0 (c_capacity conn)) * (8 # 10))
              (inject_Z (default 0 (c_currentLoad conn))).

Fixpoint forEach {A} (f : A -> Handler unit) (l : list A) : Handler unit :=
  match l with
  | [] => ret tt
  | x :: l' => f x;; forEach f l'
  end.

Definition bottleneckEffect (env : Env) (st : State) : Handler unit :=
  forEach (fun conn =>
    if bottleneck conn then
      logEvent env LWarning "Queue Bottleneck";;
      toast "Bottleneck Detected" false
    else ret tt) (connections st).

(** ** [src/components/IPCConnection.tsx] *)

(** The centre and the radius of the particle drawn for a transfer. *)
Definition particle (fromPosition toPosition : Position) (transfer : DataTransfer)
    : Position * Z :=
  let progress := (inject_Z (t_progress transfer) / 100)%Q in
  let posX :=
    match t_type transfer with
    | Produce => pos_x fromPosition + (pos_x toPosition - pos_x fromPosition) * progress
    | Consume => pos_x toPosition + (pos_x fromPosition - pos_x toPosition) * progress
    end%Q in
  let posY :=
    match t_type transfer with
    | Produce => pos_y fromPosition + (pos_y toPosition - pos_y fromPosition) * progress
    | Consume => pos_y toPosition + (pos_y fromPosition - pos_y fromPosition) * progress
    end%Q in
  ({| pos_x := posX; pos_y := posY |}, 3 + t_size transfer).

(** The colour of the label under the connection type: [Some true] is
    amber, [Some false] is muted, and [None] is no label at all. *)
Definition capacity_label (connection : Connection) : option bool :=
  if bool_decide (c_type connection = Queue) && truthy (c_capacity connection)
  then Some (truthy (c_currentLoad connection)
             && negb (Qle_bool (inject_Z (default 0 (c_currentLoad connection)))
                               (inject_Z (default 0 (c_capacity connection)) * (8 # 10))))
  else None.

Definition semaphore_label (connection : Connection) : option bool :=
  match guarded_region connection with
  | Some region =>
      Some (if hasWriter (mr_semaphore region) then true
            else bool_decide (maxReaders (mr_semaphore region)
                              <= currentReaders (mr_semaphore region)))
  | None => None
  end.

(** ** [src/lib/deadlock-utils.ts]: reporting a cycle *)

Definition state_name (s : ProcessState) : string :=
  match s with
  | PIdle => "idle"
  | PRunning => "running"
  | PBlocked => "blocked"
  | PDeadlocked => "deadlocked"
  end.

Definition type_name (t : IPCType) : string :=
  match t with
  | Pipe => "pipe"
  | Queue => "queue"
  | Memory => "memory"
  end.

(** [s || d] on an optional string: [undefined] and the empty string are
    falsy; and an optional string inside a template literal. *)
Definition or_else (s : option string) (d : string) : string :=
  match s with
  | Some v => if decide (v = "") then d else v
  | None => d
  end.

Definition shown (s : option string) : string := default "undefined" s.

Definition newline : string := String (ascii_of_nat 10) EmptyString.

Definition arrow : string := " → ".

Record ResourceInfo := {
  ri_id : string;
  ri_type : IPCType;
  ri_outgoing : bool;
  ri_state : ConnectionState;
  ri_capacity : option Z;
  ri_currentLoad : option Z
}.

Record ProcessDetails := {
  pd_name : string;
  pd_state : string;
  pd_resources : list ResourceInfo
}.

Definition processDetails (cycle : DeadlockCycle) (processes : list Process)
    (connections : list Connection) : list ProcessDetails :=
  (fun id =>
     let process := List.find (fun p => bool_decide (p_id p = id)) processes in
     {| pd_name := or_else (p_name <$> process) id;
        pd_state := default "unknown" (state_name ∘ p_state <$> process);
        pd_resources :=
          (fun c => {| ri_id := c_id c; ri_type := c_type c;
                       ri_outgoing := bool_decide (c_from c = id);
                       ri_state := c_state c; ri_capacity := c_capacity c;
                       ri_currentLoad := c_currentLoad c |})
          <$> filter (fun c => c_from c = id \/ c_to c = id) connections |})
  <$> dc_processes cycle.

(** The entry of [processDetails] that a line of the timeline names for
    an end of the connection. *)
Definition named_end (processes : list Process) (details : list ProcessDetails)
    (conn_end : option string) : option ProcessDetails :=
  match conn_end with
  | Some id =>
      let wanted :=
        or_else (p_name <$> List.find (fun proc => bool_decide (p_id proc = id))
                                      processes) id in
      List.find (fun p => bool_decide (pd_name p = wanted)) details
  | None => None
  end.

Definition resourceTimeline (cycle : DeadlockCycle) (processes : list Process)
    (connections : list Connection) (details : list ProcessDetails) : list string :=
  imap (fun index connId =>
    let conn := List.find (fun c => bool_decide (c_id c = connId)) connections in
    let fromProcess := named_end processes details (c_from <$> conn) in
    let toProcess := named_end processes details (c_to <$> conn) in
    pretty (S index) +:+ ". " +:+ shown (pd_name <$> fromProcess)
    +:+ " is waiting for resources from " +:+ shown (pd_name <$> toProcess)
    +:+ " via " +:+ shown (type_name ∘ c_type <$> conn) +:+ " connection")
  (dc_connections cycle).

(** [Array.from(new Set(l))]: the first occurrences, in order. *)
Fixpoint distinct {A} `{EqDecision A} (seen l : list A) : list A :=
  match l with
  | [] => []
  | x :: l' =>
      if decide (x ∈ seen) then distinct seen l'
      else x :: distinct (x :: seen) l'
  end.

Definition connectionTypes (cycle : DeadlockCycle) (connections : list Connection)
    : list (option IPCType) :=
  distinct []
    ((fun id => c_type <$> List.find (fun c => bool_decide (c_id c = id)) connections)
     <$> dc_connections cycle).

Definition general_strategies : list string :=
  [ "Implement resource allocation ordering";
    "Use timeouts and retry mechanisms";
    "Implement a deadlock detection and recovery system";
    "Consider using a resource manager to coordinate access" ].

Definition queue_strategies : list string :=
  [ "Implement queue capacity limits and timeout mechanisms";
    "Consider using non-blocking queue operations" ].

Definition pipe_strategies : list string :=
  [ "Use asynchronous pipe operations";
    "Implement pipe buffer size limits" ].

Definition resolutionStrategies (types : list (option IPCType)) : list string :=
  general_strategies
  ++ (if decide (Some Queue ∈ types) then queue_strategies else [])
  ++ (if decide (Some Pipe ∈ types) then pipe_strategies else []).

Inductive Severity := Low | Medium | High.

#[global] Instance Severity_eq_dec : EqDecision Severity.
Proof. solve_decision. Defined.

#[global] Instance LogType_eq_dec : EqDecision LogType.
Proof. solve_decision. Defined.

Record ProcessSummary := {
  ps_name : string;
  ps_state : string;
  ps_heldResources : list string;
  ps_waitingForResources : list string
}.

Definition summary (p : ProcessDetails) : ProcessSummary :=
  {| ps_name := pd_name p;
     ps_state := pd_state p;
     ps_heldResources :=
       ri_id <$> filter (fun r => ri_outgoing r = true /\ ri_state r = CActive)
                        (pd_resources p);
     ps_waitingForResources :=
       ri_id <$> filter (fun r => ri_outgoing r = false /\ ri_state r = CActive)
                        (pd_resources p) |}.

Record DeadlockLogEntry := {
  dl_id : string;
  dl_timestamp : Z;
  dl_type : LogType;
  dl_message : string;
  dl_details : string;
  dl_processes : list ProcessSummary;
  dl_connectionTypes : list (option IPCType);
  dl_severity : Severity;
  dl_detectedAt : Z;
  dl_solutions : list string
}.

(** [createDeadlockLogEntry]; [None] is the [TypeError] that reading
    [processDetails[0].name] raises when there are no details. *)
Definition createDeadlockLogEntry (env : Env) (cycle : DeadlockCycle)
    (processes : list Process) (connections : list Connection)
    : option DeadlockLogEntry :=
  let details := processDetails cycle processes connections in
  match details with
  | [] => None
  | first :: _ =>
      let cycleDescription :=
        String.concat arrow
          ((fun p => pd_name p +:+ " (" +:+ pd_state p +:+ ")") <$> details)
        +:+ arrow +:+ pd_name first in
      let timeline := resourceTimeline cycle processes connections details in
      let types := connectionTypes cycle connections in
      Some {| dl_id := genId env 0;
              dl_timestamp := now env;
              dl_type := LError;
              dl_message := "Deadlock Detected";
              dl_details :=
                "Circular wait detected: " +:+ cycleDescription +:+ newline
                +:+ newline +:+ "Deadlock Formation Sequence:" +:+ newline
                +:+ String.concat newline timeline;
              dl_processes := summary <$> details;
              dl_connectionTypes := types;
              dl_severity := High;
              dl_detectedAt := dc_detectedAt cycle;
              dl_solutions := resolutionStrategies types |}
  end.

(** [suggestDeadlockResolution]: [None] is [undefined], the element at
    an index outside the array. *)
Definition strategies : list string :=
  [ "Release all resources and retry with proper ordering";
    "Implement a timeout and resource release mechanism";
    "Use a centralized resource manager to prevent deadlocks";
    "Implement the banker's algorithm for deadlock avoidance";
    "Use a priority-based resource allocation scheme" ].

Definition suggestDeadlockResolution (env : Env) (cycle : DeadlockCycle)
    : option string :=
  let index :=
    Qfloor (double_mul (random env 0) (inject_Z (Z.of_nat (length strategies)))) in
  if index <? 0 then None else strategies !! Z.to_nat index.

(** ** The log of [IPCSynchronizer] and [LogPanel] *)

Record AdditionalInfo := {
  ai_processes : option (list string);
  ai_resources : option (list string);
  ai_solutions : option (list string);
  ai_severity : option Severity
}.

Record PanelEntry := {
  pe_id : string;
  pe_timestamp : Z;
  pe_type : LogType;
  pe_message : string;
  pe_details : option string;
  pe_additionalInfo : option AdditionalInfo
}.

(** The [useState] cells of [IPCSynchronizer]. *)
Record Synchronizer := {
  showSidebar : bool;
  showInfo : bool;
  showLogs : bool;
  panel_logs : list PanelEntry;
  demoMode : bool;
  issuesDetected : bool
}.

Definition synchronizer_start : Synchronizer :=
  {| showSidebar := true; showInfo := false; showLogs := false;
     panel_logs := []; demoMode := false; issuesDetected := false |}.

(** [log.type === 'error' || (log.type === 'warning' &&
    log?.additionalInfo?.severity === 'high')] *)
Definition alarming (log : PanelEntry) : bool :=
  bool_decide (pe_type log = LError)
  || (bool_decide (pe_type log = LWarning)
      && bool_decide (pe_additionalInfo log ≫= ai_severity = Some High)).

Definition handleLogEvent (s : Synchronizer) (log : PanelEntry) : Synchronizer :=
  {| showSidebar := showSidebar s;
     showInfo := showInfo s;
     showLogs := if alarming log then true else showLogs s;
     panel_logs := panel_logs s ++ [log];
     demoMode := demoMode s;
     issuesDetected := if alarming log then true else issuesDetected s |}.

Definition clearLogs (s : Synchronizer) : Synchronizer :=
  {| showSidebar := showSidebar s; showInfo := showInfo s;
     showLogs := showLogs s; panel_logs := [];
     demoMode := demoMode s; issuesDetected := false |}.

(** [toggleDemoMode]; [id] is [Math.random().toString()] and [timestamp]
    is [new Date()]. *)
Definition toggleDemoMode (s : Synchronizer) (id : string) (timestamp : Z)
    : Synchronizer :=
  handleLogEvent
    {| showSidebar := showSidebar s; showInfo := showInfo s;
       showLogs := showLogs s; panel_logs := panel_logs s;
       demoMode := negb (demoMode s); issuesDetected := issuesDetected s |}
    {| pe_id := id; pe_timestamp := timestamp; pe_type := LInfo;
       pe_message := if demoMode s then "Demo Mode Disabled"
                     else "Demo Mode Enabled";
       pe_details := Some (if demoMode s
                           then "Reverting to standard operation mode"
                           else "Additional demo scenarios are now available");
       pe_additionalInfo := None |}.

(** What a user and the canvas can do to the synchronizer. *)
Inductive SyncEvent :=
| CanvasLog (log : PanelEntry)
| ClearLogs
| ToggleDemoMode (id : string) (timestamp : Z)
| ToggleInfo
| CloseInfo
| ToggleLogs
| OpenLogs
| ToggleSidebar.

Definition sync_step (s : Synchronizer) (ev : SyncEvent) : Synchronizer :=
  match ev with
  | CanvasLog log => handleLogEvent s log
  | ClearLogs => clearLogs s
  | ToggleDemoMode id timestamp => toggleDemoMode s id timestamp
  | ToggleInfo =>
      {| showSidebar := showSidebar s; showInfo := negb (showInfo s);
         showLogs := showLogs s; panel_logs := panel_logs s;
         demoMode := demoMode s; issuesDetected := issuesDetected s |}
  | CloseInfo =>
      {| showSidebar := showSidebar s; showInfo := false;
         showLogs := showLogs s; panel_logs := panel_logs s;
         demoMode := demoMode s; issuesDetected := issuesDetected s |}
  | ToggleLogs =>
      {| showSidebar := showSidebar s; showInfo := showInfo s;
         showLogs := negb (showLogs s); panel_logs := panel_logs s;
         demoMode := demoMode s; issuesDetected := issuesDetected s |}
  | OpenLogs =>
      {| showSidebar := showSidebar s; showInfo := showInfo s;
         showLogs := true; panel_logs := panel_logs s;
         demoMode := demoMode s; issuesDetected := issuesDetected s |}
  | ToggleSidebar =>
      {| showSidebar := negb (showSidebar s); showInfo := showInfo s;
         showLogs := showLogs s; panel_logs := panel_logs s;
         demoMode := demoMode s; issuesDetected := issuesDetected s |}
  end.

(** The entry that [logEvent] of the canvas passes to [onLogEvent]: it
    carries details and never an [additionalInfo]. *)
Definition canvas_entry (timestamp : Z) (details : option string) (l : LogEntry)
    : PanelEntry :=
  {| pe_id := log_id l; pe_timestamp := timestamp; pe_type := log_type l;
     pe_message := log_message l; pe_details := details;
     pe_additionalInfo := None |}.

(** ** Vocabulary for the properties of the remaining code *)

(** A transfer that is still under way. *)
Definition in_flight (t : DataTransfer) : Prop := 0 <= t_progress t < 100.

(** [n] runs of the interval of the transfer effect, each created in the
    render it changes. *)
Definition ticks (n : nat) (st : State) : State := Nat.iter n (fun s => tick s s) st.

Definition progressed (d : Z) (t : DataTransfer) : DataTransfer :=
  {| t_id := t_id t; t_connectionId := t_connectionId t;
     t_startTime := t_startTime t; t_progress := t_progress t + d;
     t_size := t_size t; t_type := t_type t |}.

(** Two processes, and two connections, that differ at most in what the
    handlers change: the state, the resources, what a process waits for
    and accesses; the state, the load, and the reader count and the writer
    flag of a connection. *)
Definition same_process (p p' : Process) : Prop :=
  p_id p' = p_id p /\ p_name p' = p_name p /\ p_position p' = p_position p.

Definition same_connection (c c' : Connection) : Prop :=
  c_id c' = c_id c /\ c_from c' = c_from c /\ c_to c' = c_to c /\
  c_type c' = c_type c /\ c_capacity c' = c_capacity c /\
  mr_id <$> c_memoryRegion c' = mr_id <$> c_memoryRegion c /\
  maxReaders ∘ mr_semaphore <$> c_memoryRegion c'
  = maxReaders ∘ mr_semaphore <$> c_memoryRegion c.

Definition same_processes : list Process -> list Process -> Prop :=
  Forall2 same_process.

Definition same_wiring : list Connection -> list Connection -> Prop :=
  Forall2 same_connection.

(** The state [st] with the connect mode [mode]. *)
Definition in_mode (mode : ConnectMode) (st : State) : State :=
  {| processes := processes st; connections := connections st;
     dataTransfers := dataTransfers st; connectMode := mode |}.

(** Every connection joins two processes of the canvas. *)
Definition connected (st : State) : Prop :=
  forall c, c ∈ connections st ->
    c_from c ∈ p_id <$> processes st /\ c_to c ∈ p_id <$> processes st.

(** The invariants of a canvas whose identifiers are among the first [n]
    results of [generateId]: processes and connections have identifiers
    of their own, the queues keep their bounds, the semaphores their
    invariant, and only memory connections carry a region. *)
Definition drawn_before (env : Env) (n : nat) (id : string) : Prop :=
  exists k, (k < n)%nat /\ id = genId env k.

Definition good_processes (env : Env) (n : nat) (ps : list Process) : Prop :=
  NoDup (p_id <$> ps) /\ Forall (drawn_before env n) (p_id <$> ps).

Definition good_connections (env : Env) (n : nat) (cs : list Connection) : Prop :=
  NoDup (c_id <$> cs) /\
  Forall (drawn_before env n) (c_id <$> cs) /\
  Forall load_ok cs /\
  regions_ok cs /\
  Forall (fun c => is_Some (c_memoryRegion c) -> c_type c = Memory) cs.

Definition sound_state (env : Env) (n : nat) (st : State) : Prop :=
  good_processes env n (processes st) /\ good_connections env n (connections st).

(** Every semaphore is as it was created: no writer and no reader. *)
Definition unlocked (cs : list Connection) : Prop :=
  Forall (fun c => forall region, c_memoryRegion c = Some region ->
                     mr_semaphore region = new_region_semaphore) cs.

Definition unlocked_world (w : World) : Prop :=
  unlocked (connections (current w)) /\
  Forall (fun t => unlocked (connections (tm_closure t))) (pending w).



(** The same of a canvas over time: of the state of the last render and
    of the state that each pending timer has captured. *)
Definition sound_world (env : Env) (w : World) : Prop :=
  sound_state env (ids_drawn w) (current w) /\
  Forall (fun t => sound_state env (ids_drawn w) (tm_closure t)) (pending w).

(** A handler that calls none of the setters of a cell, seen through the
    field of [Effects] that records the calls. *)
Definition preserves {A B} (field : Effects -> B) (h : Handler A) : Prop :=
  forall e, field (h e).2 = field e.

#[global] Instance in_flight_dec t : Decision (in_flight t).
Proof. unfold in_flight. apply _. Defined.

(** A handler that keeps a property of what has been done so far. *)
Definition keeps {A} (I : Effects -> Prop) (h : Handler A) : Prop :=
  forall e, I e -> I (h e).2.

(** No error has been logged. *)
Definition no_error (e : Effects) : Prop :=
  Forall (fun l => log_type l <> LError) (logs e).

(** The entries that the synchronizer receives for the log of a canvas
    handler: one for each, of the same type and without additional
    information, whatever the details. *)
Definition forwarded (logs : list LogEntry) (entries : list PanelEntry) : Prop :=
  Forall2 (fun l entry => pe_type entry = log_type l /\
                          pe_additionalInfo entry = None) logs entries.

#[global] Instance no_error_dec e : Decision (no_error e).
Proof. unfold no_error. apply _. Defined.

(** * Properties *)

(** ** Rounding to a double *)

Section Doubles.

Local Open Scope Q_scope.

Lemma pow2_pos e : 0 < 2 ^ e.
Proof. by apply Qpower_0_lt. Qed.

Lemma pow2_succ e : 2 ^ (e + 1) == 2 * 2 ^ e.
Proof. rewrite Qpower_plus by done. simpl. ring. Qed.

Lemma pow2_le e e' : (e <= e')%Z -> 2 ^ e <= 2 ^ e'.
Proof. intros. by apply Qpower_le_compat_l. Qed.

Lemma pow2_lt_inv e e' : 2 ^ e < 2 ^ e' -> (e < e')%Z.
Proof. intros. by apply (Qpower_lt_compat_l_inv 2). Qed.

Lemma ilog2_spec q : 0 < q -> 2 ^ ilog2 q <= q /\ q < 2 ^ (ilog2 q + 1).
Proof.
  intros Hq. unfold ilog2.
  set (n := Qnum q). set (d := Z.pos (Qden q)).
  assert (Hn : (0 < n)%Z).
  { destruct q as [qn qd]. unfold Qlt in Hq. simpl in *. subst n. lia. }
  assert (Hd : (0 < d)%Z) by done.
  destruct (Z.log2_spec n Hn) as [Ha1 Ha2], (Z.log2_spec d Hd) as [Hb1 Hb2].
  pose proof (Z.log2_nonneg n) as Ha0. pose proof (Z.log2_nonneg d) as Hb0.
  set (a := Z.log2 n) in *. set (b := Z.log2 d) in *.
  assert (HA : 2 ^ a == inject_Z (2 ^ a)) by (by rewrite Zpower_Qpower).
  assert (HB : 2 ^ b == inject_Z (2 ^ b)) by (by rewrite Zpower_Qpower).
  assert (Hk : 2 ^ (a - b) * inject_Z (2 ^ b) == inject_Z (2 ^ a)).
  { rewrite Qpower_minus by done. rewrite <- HA, <- HB. field.
    apply Qnot_eq_sym, Qlt_not_eq, pow2_pos. }
  assert (Hq' : q * inject_Z d == inject_Z n).
  { destruct q as [qn qd]. subst n d. unfold Qeq, Qmult, inject_Z. simpl. lia. }
  pose proof (pow2_pos (a - b)) as Hpos.
  set (P := 2 ^ (a - b)) in *.
  assert (HN1 : inject_Z (2 ^ a) <= inject_Z n) by (by rewrite <- Zle_Qle).
  assert (HN2 : inject_Z n < 2 * inject_Z (2 ^ a)).
  { change 2 with (inject_Z 2). rewrite <- inject_Z_mult, <- Zlt_Qlt.
    rewrite Z.pow_succ_r in Ha2 by done. lia. }
  assert (HD1 : inject_Z (2 ^ b) <= inject_Z d) by (by rewrite <- Zle_Qle).
  assert (HD2 : inject_Z d < 2 * inject_Z (2 ^ b)).
  { change 2 with (inject_Z 2). rewrite <- inject_Z_mult, <- Zlt_Qlt.
    rewrite Z.pow_succ_r in Hb2 by done. lia. }
  assert (HD0 : 0 < inject_Z d) by (change 0 with (inject_Z 0); by rewrite <- Zlt_Qlt).
  assert (HB0 : 0 < inject_Z (2 ^ b)).
  { change 0 with (inject_Z 0). rewrite <- Zlt_Qlt. lia. }
  set (N := inject_Z n) in *. set (D := inject_Z d) in *.
  set (A := inject_Z (2 ^ a)) in *. set (B := inject_Z (2 ^ b)) in *.
  destruct (Qle_bool P q) eqn:Hle.
  - apply Qle_bool_iff in Hle. split; [done|].
    rewrite pow2_succ. fold P. nra.
  - assert (q < P) as Hlt.
    { apply Qnot_le_lt. intros H%Qle_bool_iff. congruence. }
    split.
    + assert (2 ^ (a - b - 1) * 2 == P) as Hhalf.
      { unfold P. rewrite <- (Qpower_1_r 2) at 2.
        rewrite <- Qpower_plus by done. by replace (a - b - 1 + 1)%Z with (a - b)%Z by lia. }
      pose proof (pow2_pos (a - b - 1)). set (P' := 2 ^ (a - b - 1)) in *. nra.
    + by replace (a - b - 1 + 1)%Z with (a - b)%Z by lia.
Qed.

Lemma round_half_even_le x : inject_Z (round_half_even x) <= x + (1 # 2).
Proof.
  unfold round_half_even. pose proof (Qfloor_le x) as Hlo.
  destruct (x - inject_Z (Qfloor x) ?= 1 # 2) eqn:Hc.
  - apply Qeq_alt in Hc. destruct (Z.even (Qfloor x)); [lra|].
    rewrite inject_Z_plus. change (inject_Z 1) with 1. lra.
  - lra.
  - apply Qgt_alt in Hc. pose proof (Qlt_floor x) as Hhi.
    rewrite inject_Z_plus in *. change (inject_Z 1) with 1 in *. lra.
Qed.

Lemma round_half_even_nonneg x : 0 <= x -> (0 <= round_half_even x)%Z.
Proof.
  intros Hx. assert (0 <= Qfloor x)%Z as H0.
  { change 0%Z with (Qfloor 0). by apply Qfloor_resp_le. }
  unfold round_half_even. destruct (_ ?= _); [destruct (Z.even _)|..]; lia.
Qed.

Lemma nearest_double_bounds q :
  0 < q ->
  0 <= nearest_double q /\ nearest_double q <= q + 2 ^ ulp_exponent q / 2.
Proof.
  intros Hq. unfold nearest_double.
  pose proof (pow2_pos (ulp_exponent q)) as He. set (u := 2 ^ ulp_exponent q) in *.
  assert (0 <= q / u) as Hx.
  { apply Qle_shift_div_l; [done|]. lra. }
  pose proof (round_half_even_le (q / u)) as Hle.
  pose proof (round_half_even_nonneg (q / u) Hx) as H0.
  rewrite Zle_Qle in H0. change (inject_Z 0) with 0 in H0.
  set (m := inject_Z (round_half_even (q / u))) in *.
  split; [nra|].
  assert (m * u <= (q / u + (1 # 2)) * u) as H by nra.
  eapply Qle_trans; [exact H|].
  assert (~ u == 0) as Hu by lra.
  assert ((q / u + (1 # 2)) * u == q + u / 2) as -> by (by field).
  apply Qle_refl.
Qed.

(** The doubles from 0 up to, but not including, 1 end at 1 - 2^-53, and
    the product of such a double and 5 is rounded to a double below 5. *)
Lemma double_below_1 r : is_double r -> 0 <= r -> r < 1 -> r <= 1 - 2 ^ (-53).
Proof.
  unfold is_double, to_double. intros Hr H0 H1.
  destruct (r ?= 0) eqn:Hc.
  - apply Qeq_alt in Hc. rewrite Hc. by compute.
  - apply Qlt_alt in Hc. lra.
  - apply Qgt_alt in Hc.
    destruct (ilog2_spec r Hc) as [Hlo Hhi].
    assert (ilog2 r < 0)%Z as Hneg.
    { apply pow2_lt_inv. simpl. lra. }
    unfold nearest_double in Hr.
    pose proof (pow2_pos (ulp_exponent r)) as He.
    set (m := round_half_even (r / 2 ^ ulp_exponent r)) in *.
    destruct (decide (ulp_exponent r = -53)%Z) as [Heq|Hne].
    + rewrite Heq in *.
      assert (m < 2 ^ 53)%Z as Hm.
      { rewrite Zlt_Qlt. assert (inject_Z m == r * inject_Z (2 ^ 53)) as ->.
        { rewrite <- Hr. change (2 ^ (-53)) with (/ inject_Z (2 ^ 53)). field. done. }
        change (inject_Z (2 ^ 53)) with (1 * inject_Z (2 ^ 53)) at 2.
        by apply Qmult_lt_compat_r. }
      assert (inject_Z m <= inject_Z (2 ^ 53 - 1)) as Hm' by (rewrite <- Zle_Qle; lia).
      rewrite <- Hr. change (2 ^ (-53)) with (/ inject_Z (2 ^ 53)) in *.
      change (inject_Z (2 ^ 53 - 1)) with (inject_Z (2 ^ 53) - 1) in Hm'.
      set (T := inject_Z (2 ^ 53)) in *.
      assert (0 < T) as HT by done.
      apply (Qmult_le_r _ _ T); [done|].
      assert (inject_Z m * / T * T == inject_Z m) as -> by (field; lra).
      assert ((1 - / T) * T == T - 1) as -> by (field; lra).
      done.
    + assert (ilog2 r + 1 <= -1)%Z as Hsmall by (unfold ulp_exponent in *; lia).
      apply pow2_le in Hsmall. 
      assert (r <= 1 # 2) as Hhalf.
      { apply Qlt_le_weak. eapply Qlt_le_trans; [exact Hhi|]. exact Hsmall. }
      eapply Qle_trans; [exact Hhalf|]. by compute.
Qed.

Lemma double_below_5 q :
  0 <= q -> q <= 5 * (1 - 2 ^ (-53)) -> 0 <= to_double q /\ to_double q < 5.
Proof.
  intros H0 H5. unfold to_double.
  destruct (q ?= 0) eqn:Hc.
  - split; by compute.
  - apply Qlt_alt in Hc. lra.
  - apply Qgt_alt in Hc.
    destruct (nearest_double_bounds q Hc) as [Hlo Hhi].
    split; [done|]. eapply Qle_lt_trans; [exact Hhi|].
    destruct (ilog2_spec q Hc) as [Hlog _].
    assert (ilog2 q < 3)%Z as Hsmall.
    { apply pow2_lt_inv. eapply Qle_lt_trans; [exact Hlog|].
      eapply Qle_lt_trans; [exact H5|]. by compute. }
    assert (ulp_exponent q <= -50)%Z as He by (unfold ulp_exponent; lia).
    apply pow2_le in He.
    assert (q + 2 ^ ulp_exponent q / 2 <= 5 * (1 - 2 ^ (-53)) + 2 ^ (-50) / 2) as H.
    { apply Qplus_le_compat; [done|]. by apply Qmult_le_compat_r. }
    eapply Qle_lt_trans; [exact H|]. by compute.
Qed.

(** [Math.floor(Math.random() * 5)] is one of 0, 1, 2, 3, 4. *)
Lemma random_index r :
  is_double r -> 0 <= r -> r < 1 ->
  (0 <= Qfloor (double_mul r 5) < 5)%Z.
Proof.
  intros Hr H0 H1. pose proof (double_below_1 r Hr H0 H1) as Hmax.
  destruct (double_below_5 (r * 5)) as [Hlo Hhi].
  - lra.
  - set (w := 2 ^ (-53)) in *. lra.
  - unfold double_mul. split.
    + change 0%Z with (Qfloor 0). by apply Qfloor_resp_le.
    + rewrite Zlt_Qlt. eapply Qle_lt_trans; [apply Qfloor_le|done].
Qed.

End Doubles.

(** ** Arrays and the dependency graph *)

Lemma indexOf_app_first x pre post :
  x ∉ pre -> indexOf x (pre ++ x :: post) = Z.of_nat (length pre).
Proof.
  induction pre as [|y pre IH]; intros Hx; simpl.
  - by rewrite decide_True.
  - rewrite decide_False by set_solver.
    rewrite IH by set_solver.
    destruct (Z.ltb_spec (Z.of_nat (length pre)) 0); lia.
Qed.

Lemma slice_nat {A} n (l : list A) : slice (Z.of_nat n) l = drop n l.
Proof.
  unfold slice. destruct (Z.ltb_spec (Z.of_nat n) 0); [lia|].
  by rewrite Nat2Z.id.
Qed.

Lemma own_get_set ps k v k' :
  own_get (own_set ps k v) k' = if decide (k = k') then Some v else own_get ps k'.
Proof.
  induction ps as [|[k0 v0] ps IH]; simpl.
  - destruct (decide (k = k')); done.
  - destruct (decide (k0 = k)) as [->|Hne]; simpl.
    + destruct (decide (k = k')); done.
    + rewrite IH. destruct (decide (k0 = k')) as [->|]; [|done].
      by rewrite decide_False.
Qed.

Lemma own_set_keys ps k v k' :
  k' ∈ (own_set ps k v).*1 <-> k' = k \/ k' ∈ ps.*1.
Proof.
  induction ps as [|[k0 v0] ps IH]; simpl.
  - set_solver.
  - destruct (decide (k0 = k)) as [->|Hne]; simpl; set_solver.
Qed.

Lemma own_get_key ps k : k ∈ ps.*1 <-> is_Some (own_get ps k).
Proof.
  induction ps as [|[k0 v0] ps IH]; simpl.
  - split; [by intros ?%elem_of_nil|by intros [? ?]].
  - destruct (decide (k0 = k)) as [->|Hne].
    + split; [by eexists|left].
    + rewrite <- IH. set_solver.
Qed.

(** A key that is there keeps its place; a new key goes to the end. *)
Lemma own_set_old_key ps k v : k ∈ ps.*1 -> (own_set ps k v).*1 = ps.*1.
Proof.
  induction ps as [|[k0 v0] ps IH]; simpl; [by intros ?%elem_of_nil|].
  destruct (decide (k0 = k)) as [->|Hne]; [done|].
  intros [?|?]%elem_of_cons; [congruence|]. simpl. f_equal. by apply IH.
Qed.

Lemma own_set_new_key ps k v : k ∉ ps.*1 -> (own_set ps k v).*1 = ps.*1 ++ [k].
Proof.
  induction ps as [|[k0 v0] ps IH]; simpl; [done|].
  intros Hk. rewrite decide_False by set_solver. simpl. f_equal.
  apply IH. set_solver.
Qed.

Lemma graph_set_own g k v :
  k <> "__proto__" -> graph_set g k v = {| own := own_set (own g) k v; proto := proto g |}.
Proof. intros Hk. unfold graph_set. by rewrite decide_False. Qed.

Lemma own_get_absent ps k : (k ∉ ps.*1) -> own_get ps k = None.
Proof. intros Hk. apply eq_None_not_Some. by rewrite <- own_get_key. Qed.

(** While the prototype of the graph is [Object.prototype], a key that
    is an own property, or no name of a member of [Object.prototype], is
    looked up among the own properties; any other key makes the search
    throw. *)
Lemma graph_get_own g k :
  proto g = None -> k ∈ (own g).*1 \/ k ∉ Object_prototype_members ->
  graph_get g k = match own_get (own g) k with
                  | Some elements => ArrayOf elements
                  | None => Undefined
                  end.
Proof.
  intros Hproto Hk. unfold graph_get. rewrite Hproto.
  destruct (own_get (own g) k) eqn:Hg; [done|].
  destruct Hk as [Hk%own_get_key|Hk]; [rewrite Hg in Hk; by destruct Hk|].
  by rewrite decide_False.
Qed.

Lemma neighbors_of_own g k :
  proto g = None -> k ∈ (own g).*1 \/ k ∉ Object_prototype_members ->
  neighbors_of g k = Returns (default [] (own_get (own g) k)).
Proof.
  intros Hproto Hk. unfold neighbors_of. rewrite graph_get_own by done.
  by destruct (own_get (own g) k).
Qed.

Lemma neighbors_of_inherited g k :
  proto g = None -> k ∈ Object_prototype_members -> (k ∉ (own g).*1) ->
  neighbors_of g k = ThrowsTypeError.
Proof.
  intros Hproto Hmember Hk. unfold neighbors_of, graph_get.
  by rewrite own_get_absent, Hproto, decide_True by done.
Qed.

(** A connection from a name that the graph inherits: [graph[conn.from]]
    is a function then, which has no [push]. *)
Lemma graph_add_edge_inherited g conn :
  proto g = None -> c_from conn ∈ Object_prototype_members ->
  (c_from conn ∉ (own g).*1) ->
  graph_add_edge g conn = ThrowsTypeError.
Proof.
  intros Hproto Hmember Hown. unfold graph_add_edge, graph_get, graph_push.
  rewrite (own_get_absent (own g) (c_from conn)), Hproto, decide_True by done.
  simpl. by rewrite (own_get_absent (own g) (c_from conn)), Hproto.
Qed.

(** Any other connection adds its target to the array of its source. *)
Lemma graph_add_edge_own g conn :
  proto g = None ->
  c_from conn ∈ (own g).*1 \/ c_from conn ∉ Object_prototype_members ->
  exists g',
    graph_add_edge g conn = Returns g' /\ proto g' = None /\
    (forall n, default [] (own_get (own g') n)
               = default [] (own_get (own g) n)
                 ++ (if decide (c_from conn = n) then [c_to conn] else [])) /\
    (forall k, k ∈ (own g').*1 <-> k = c_from conn \/ k ∈ (own g).*1) /\
    (c_from conn ∈ (own g).*1 -> (own g').*1 = (own g).*1).
Proof.
  intros Hproto Hk. unfold graph_add_edge. rewrite graph_get_own by done.
  destruct (own_get (own g) (c_from conn)) as [l|] eqn:Hg; simpl.
  - unfold graph_push. rewrite Hg. eexists. split; [done|]. simpl.
    split_and!; [done| | |].
    + intros n. rewrite own_get_set. destruct (decide (c_from conn = n)) as [<-|].
      * by rewrite Hg.
      * by rewrite app_nil_r.
    + intros k. apply own_set_keys.
    + apply own_set_old_key.
  - assert (c_from conn <> "__proto__") as Hne.
    { destruct Hk as [Hk%own_get_key|Hk]; [rewrite Hg in Hk; by destruct Hk|].
      intros Heq. apply Hk. rewrite Heq. by apply (bool_decide_unpack _). }
    rewrite graph_set_own by done. unfold graph_push. simpl.
    rewrite own_get_set, decide_True by done.
    eexists. split; [done|]. simpl. split_and!; [done| | |].
    + intros n. rewrite !own_get_set. destruct (decide (c_from conn = n)) as [<-|].
      * by rewrite Hg.
      * by rewrite app_nil_r.
    + intros k. rewrite !own_set_keys. tauto.
    + intros Hin%own_get_key. rewrite Hg in Hin. by destruct Hin.
Qed.

Lemma graph_add_edges_cons g c active :
  graph_add_edges g (c :: active)
  = match graph_add_edge g c with
    | Returns g1 => graph_add_edges g1 active
    | failure => failure
    end.
Proof.
  unfold graph_add_edges. simpl.
  assert (Hstays : forall (r : Outcome Graph) (l : list Connection),
    (forall g', r <> Returns g') ->
    foldl (fun r conn => match r with
                         | Returns g' => graph_add_edge g' conn
                         | _ => r
                         end) r l = r).
  { intros r l Hr. induction l as [|c' l IH]; simpl; [done|].
    destruct r; [by destruct (Hr a)|done..]. }
  destruct (graph_add_edge g c); [done|by apply Hstays..].
Qed.

(** The second loop: it throws at the first connection from a name that
    the graph inherits, and otherwise gives every source the array of its
    targets. *)
Lemma graph_add_edges_inherited active : forall g k,
  proto g = None -> k ∈ Object_prototype_members -> (k ∉ (own g).*1) ->
  k ∈ c_from <$> active ->
  graph_add_edges g active = ThrowsTypeError.
Proof.
  induction active as [|c active IH]; intros g k Hproto Hmember Hown Hin.
  - by apply elem_of_nil in Hin.
  - rewrite graph_add_edges_cons.
    destruct (decide (c_from c ∈ (own g).*1 \/ c_from c ∉ Object_prototype_members))
      as [Hc|Hc].
    + destruct (graph_add_edge_own g c Hproto Hc) as (g' & -> & Hproto' & _ & Hkeys & _).
      apply (IH g' k); [done|done| |].
      * rewrite Hkeys. intros [->|?]; [|done]. tauto.
      * rewrite fmap_cons, elem_of_cons in Hin. destruct Hin as [->|?]; [|done].
        tauto.
    + rewrite graph_add_edge_inherited; [done|done| |].
      * destruct (decide (c_from c ∈ Object_prototype_members)); tauto.
      * tauto.
Qed.

Lemma graph_add_edges_own active : forall g,
  proto g = None ->
  Forall (fun c => c_from c ∈ (own g).*1 \/ c_from c ∉ Object_prototype_members)
         active ->
  exists g',
    graph_add_edges g active = Returns g' /\ proto g' = None /\
    (forall n, default [] (own_get (own g') n)
               = default [] (own_get (own g) n)
                 ++ (c_to <$> filter (fun c => c_from c = n) active)) /\
    (forall k, k ∈ (own g').*1 <-> k ∈ (own g).*1 \/ k ∈ c_from <$> active) /\
    ((forall c, c ∈ active -> c_from c ∈ (own g).*1) -> (own g').*1 = (own g).*1).
Proof.
  induction active as [|c active IH]; intros g Hproto Hown.
  - exists g. split_and!; [done|done| | |done].
    + intros n. by rewrite app_nil_r.
    + set_solver.
  - apply Forall_cons in Hown as [Hc Hown]. rewrite graph_add_edges_cons.
    destruct (graph_add_edge_own g c Hproto Hc)
      as (g1 & -> & Hproto1 & Hget1 & Hkeys1 & Hold1).
    destruct (IH g1 Hproto1) as (g' & -> & Hproto' & Hget' & Hkeys' & Hold').
    { eapply Forall_impl; [exact Hown|]. intros c' [?|?]; [left|by right].
      apply Hkeys1. by right. }
    exists g'. split_and!; [done|done| | |].
    + intros n. rewrite Hget', Hget1, filter_cons.
      destruct (decide (c_from c = n)); simpl; by rewrite <- ?app_assoc, ?app_nil_r.
    + intros k. rewrite Hkeys', Hkeys1. set_solver.
    + intros Hall. rewrite Hold'.
      * apply Hold1, Hall. left.
      * intros c' Hc'. apply Hkeys1. right. apply Hall. by right.
Qed.

(** Unless a process is called "__proto__", the first loop leaves the
    prototype alone and gives each process an empty array. *)
Lemma graph_init_own ps :
  ("__proto__" ∉ p_id <$> ps) ->
  proto (graph_init ps) = None /\
  (forall n, default [] (own_get (own (graph_init ps)) n) = []) /\
  (forall k, k ∈ (own (graph_init ps)).*1 <-> k ∈ p_id <$> ps).
Proof.
  unfold graph_init.
  assert (H : forall g0, ("__proto__" ∉ p_id <$> ps) ->
    proto g0 = None -> (forall n, default [] (own_get (own g0) n) = []) ->
    let g := foldl (fun g p => graph_set g (p_id p) []) g0 ps in
    proto g = None /\ (forall n, default [] (own_get (own g) n) = []) /\
    (forall k, k ∈ (own g).*1 <-> k ∈ (own g0).*1 \/ k ∈ p_id <$> ps)).
  { induction ps as [|p ps IH]; intros g0 Hplain Hproto Hempty; simpl.
    - split_and!; [done..|set_solver].
    - rewrite fmap_cons, not_elem_of_cons in Hplain. destruct Hplain as [Hp Hplain].
      destruct (IH (graph_set g0 (p_id p) []) Hplain) as (? & ? & Hkeys).
      + by rewrite graph_set_own.
      + intros n. rewrite graph_set_own by done. simpl. rewrite own_get_set.
        by destruct (decide (p_id p = n)).
      + split_and!; [done..|]. intros k. rewrite Hkeys.
        rewrite graph_set_own by done. simpl. rewrite own_set_keys. set_solver. }
  intros Hplain. destruct (H {| own := []; proto := None |} Hplain) as (? & ? & Hkeys);
    [done..|].
  split_and!; [done..|]. intros k. rewrite Hkeys. simpl. set_solver.
Qed.

(** With usable identifiers the graph is built without an error, as a
    dictionary from each process to the targets of its active
    connections. *)
Lemma build_graph_usable ps active :
  usable_ids ps active ->
  exists graph,
    build_graph ps active = Returns graph /\
    (forall n, n ∈ (own graph).*1 \/ n ∈ c_to <$> active ->
       neighbors_of graph n = Returns (c_to <$> filter (fun c => c_from c = n) active)) /\
    (forall c, c ∈ active -> c_from c ∈ (own graph).*1) /\
    ((forall c, c ∈ active -> c_from c ∈ p_id <$> ps) ->
     (own graph).*1 = (own (graph_init ps)).*1).
Proof.
  intros [Hps Hactive]. unfold build_graph. rewrite Forall_forall in Hactive.
  destruct (graph_init_own ps Hps) as (Hproto0 & Hget0 & Hkeys0).
  assert (forall k, ~ inherited ps k ->
            k ∈ (own (graph_init ps)).*1 \/ k ∉ Object_prototype_members) as Hfree.
  { intros k Hk. rewrite Hkeys0. unfold inherited in Hk.
    destruct (decide (k ∈ p_id <$> ps)); [by left|right; tauto]. }
  destruct (graph_add_edges_own active (graph_init ps) Hproto0)
    as (graph & -> & Hproto & Hget & Hkeys & Hold).
  { apply Forall_forall. intros c Hc. by apply Hfree, Hactive. }
  exists graph. split_and!; [done| | |].
  - intros n Hn. rewrite neighbors_of_own; [|done|].
    + by rewrite Hget, Hget0.
    + destruct Hn as [?|(c & -> & Hc)%list_elem_of_fmap]; [by left|].
      destruct (Hfree (c_to c)) as [?|?]; [by apply Hactive|left|by right].
      apply Hkeys. by left.
  - intros c Hc. apply Hkeys. right. by apply list_elem_of_fmap_2.
  - intros Hall. apply Hold. intros c Hc. by apply Hkeys0, Hall.
Qed.

(** An active connection from a name that the graph inherits makes the
    second loop throw. *)
Lemma build_graph_inherited ps active c :
  ("__proto__" ∉ p_id <$> ps) -> c ∈ active -> inherited ps (c_from c) ->
  build_graph ps active = ThrowsTypeError.
Proof.
  intros Hps Hc [Hmember Hnone]. unfold build_graph.
  destruct (graph_init_own ps Hps) as (Hproto0 & _ & Hkeys0).
  apply (graph_add_edges_inherited _ _ (c_from c)); [done..| |].
  - by rewrite Hkeys0.
  - by apply list_elem_of_fmap_2.
Qed.

Lemma Object_keys_elem g k : k ∈ Object_keys g <-> k ∈ (own g).*1.
Proof.
  unfold Object_keys. rewrite elem_of_app, list_elem_of_filter, list_elem_of_fmap.
  split.
  - intros [[[n k'] [-> Hin]]|[_ ?]]; [|done].
    rewrite merge_sort_Permutation in Hin.
    unfold index_keys in Hin. apply list_elem_of_omap in Hin as (x & Hx & Hsome).
    destruct (array_index x); simplify_eq. done.
  - intros Hk. destruct (array_index k) as [n|] eqn:Hn; [left|right; done].
    exists (n, k). split; [done|].
    rewrite merge_sort_Permutation. apply list_elem_of_omap.
    exists k. by rewrite Hn.
Qed.

(** ** The depth-first search of [detectDeadlockCycles] *)

Lemma walk_snoc active path connPath n i v :
  walk active path connPath n ->
  (exists c, c ∈ active /\ c_id c = i /\ c_from c = n /\ c_to c = v) ->
  walk active (path ++ [n]) (connPath ++ [i]) v.
Proof.
  revert connPath. induction path as [|u path IH]; intros [|j connPath]; simpl; try done.
  intros [(c & Hc & Hid & Hf & Ht) Hw] Hn. split.
  - exists c. repeat split; try done. rewrite Ht. by destruct path.
  - by apply IH.
Qed.

Lemma walk_drop active pre nodes ids last :
  walk active (pre ++ nodes) ids last ->
  walk active nodes (drop (length pre) ids) last.
Proof.
  revert ids. induction pre as [|u pre IH]; intros ids; simpl; [done|].
  destruct ids as [|i ids]; [done|]. intros [_ Hw]. by apply IH.
Qed.

Lemma finished_reaches active st u w :
  (forall x, finished st x -> forall y, edge active x y -> finished st y) ->
  finished st u -> reaches active u w -> finished st w.
Proof.
  intros Hclosed Hu Hr. induction Hr as [u v He|u v w He Hr IH]; eauto.
Qed.

Lemma find_edge_connection active n v :
  v ∈ c_to <$> filter (fun c => c_from c = n) active ->
  exists conn,
    List.find (fun c => bool_decide (c_from c = n /\ c_to c = v)) active = Some conn
    /\ conn ∈ active /\ c_from conn = n /\ c_to conn = v.
Proof.
  intros (c & -> & Hc)%list_elem_of_fmap.
  apply list_elem_of_filter in Hc as [Hfrom Hc].
  destruct (List.find (fun c0 => bool_decide (c_from c0 = n /\ c_to c0 = c_to c)) active)
    as [conn|] eqn:Hfind.
  - apply find_some in Hfind as [Hin Hb].
    apply bool_decide_eq_true in Hb as [? ?].
    exists conn. by rewrite list_elem_of_In.
  - apply list_elem_of_In in Hc. apply (find_none _ _ Hfind c) in Hc as Hb.
    apply bool_decide_eq_false in Hb. tauto.
Qed.

Section Search.

Variables (env : Env) (graph : Graph) (active : list Connection) (U : gset string).

Hypothesis graph_neighbors : forall n,
  n ∈ U ->
  neighbors_of graph n = Returns (c_to <$> filter (fun c => c_from c = n) active).

Hypothesis targets_in_U : forall c, c ∈ active -> c_to c ∈ U.

Lemma visit_neighbors_ok fuel n path connPath :
  call_ok env graph active U fuel ->
  n ∈ U ->
  NoDup (path ++ [n]) ->
  walk active path connPath n ->
  forall neighbors st,
    (forall v, v ∈ neighbors -> v ∈ c_to <$> filter (fun c => c_from c = n) active) ->
    (size (U ∖ visited st) < fuel)%nat ->
    recursionStack st = list_to_set (path ++ [n]) ->
    search_inv active st ->
    exists st',
      visit_neighbors (findCycles env graph active fuel) active n path connPath
        neighbors st = Returns st' /\
      recursionStack st' = recursionStack st /\
      visited st ⊆ visited st' /\
      (cycles st' = [] ->
         cycles st = [] /\ forall v, v ∈ neighbors -> finished st' v) /\
      search_inv active st'.
Proof.
  intros Hcall HnU Hnodup Hwalk.
  induction neighbors as [|v rest IH]; intros st Hnb Hfuel Hstack Hinv; simpl.
  - exists st. split_and!; try done.
    intros Hnil. split; [done|]. intros x Hx. by apply elem_of_nil in Hx.
  - destruct (find_edge_connection active n v) as (conn & -> & Hin & Hfrom & Hto).
    { apply Hnb. left. }
    destruct (Hcall v (path ++ [n]) (connPath ++ [c_id conn]) st)
      as (st1 & -> & Hstack1 & Hvis1 & Hv1 & Hnone1 & Hinv1); try done.
    { rewrite <- Hto. by apply targets_in_U. }
    { apply walk_snoc; [done|]. by exists conn. }
    destruct (IH st1) as (st2 & -> & Hstack2 & Hvis2 & Hnone2 & Hinv2); try done.
    { intros w Hw. apply Hnb. by right. }
    { eapply Nat.le_lt_trans; [|exact Hfuel]. apply subseteq_size. set_solver. }
    { by rewrite Hstack1. }
    exists st2. split_and!; [done|congruence|set_solver| |done].
    intros Hc2. destruct (Hnone2 Hc2) as [Hc1 Hrest].
    destruct (Hnone1 Hc1) as [Hc0 Hvstack]. split; [done|].
    intros w [->|Hw]%elem_of_cons; [|by apply Hrest].
    split; [set_solver|]. rewrite Hstack2, Hstack1. done.
Qed.

Lemma findCycles_ok fuel : call_ok env graph active U fuel.
Proof.
  induction fuel as [|fuel IH];
    intros n path connPath st HnU Hfuel Hstack Hnodup Hwalk (Hsub & Hcyc & Hfin).
  { lia. }
  simpl. destruct (decide (n ∈ recursionStack st)) as [Hon|Hoff].
  - (* a node of the recursion stack: a cycle is reported *)
    eexists. split; [done|]. simpl. split_and!; [done|done|set_solver| |].
    { intros Hnil. by apply app_eq_nil in Hnil as [_ ?]. }
    split_and!; simpl; [done| |].
    + apply Forall_app. split; [done|]. apply Forall_singleton.
      rewrite Hstack, elem_of_list_to_set in Hon.
      apply list_elem_of_split_l in Hon as (pre & post & -> & Hpre).
      rewrite indexOf_app_first, !slice_nat by done.
      rewrite drop_app_length.
      exists n, post. simpl. split_and!; [done| |].
      * by apply NoDup_app in Hnodup as (_ & _ & ?).
      * by apply walk_drop in Hwalk.
    + intros Hnil. simpl in Hnil. by apply app_eq_nil in Hnil as [_ ?].
  - destruct (decide (n ∈ visited st)) as [Hvis|Hnew].
    + (* visited before: nothing to do *)
      exists st. by split_and!.
    + (* a new node *)
      set (st1 := {| cycles := cycles st; visited := {[n]} ∪ visited st;
                     recursionStack := {[n]} ∪ recursionStack st |}).
      assert (Hnodup1 : NoDup (path ++ [n])).
      { apply NoDup_app. split_and!; [done| |apply NoDup_singleton].
        intros x Hx ->%list_elem_of_singleton. apply Hoff.
        by rewrite Hstack, elem_of_list_to_set. }
      rewrite (graph_neighbors n HnU).
      destruct (visit_neighbors_ok fuel n path connPath IH HnU Hnodup1 Hwalk
                  (c_to <$> filter (fun c => c_from c = n) active) st1)
        as (st2 & -> & Hstack2 & Hvis2 & Hnone2 & Hsub2 & Hcyc2 & Hfin2).
      { done. }
      { simpl. assert (U ∖ ({[n]} ∪ visited st) ⊂ U ∖ visited st) as Hlt%subset_size
          by set_solver. lia. }
      { simpl. rewrite Hstack, list_to_set_app_L. set_solver. }
      { split_and!; simpl; [set_solver|done|].
        intros Hnil u [Hu1 Hu2]. simpl in *.
        destruct (Hfin Hnil u) as [Hclosed Hacyclic]; [split; set_solver|].
        split; [|done]. intros v Hv. destruct (Hclosed v Hv) as [Hv1 Hv2].
        split; simpl; [set_solver|].
        intros [->%elem_of_singleton|?]%elem_of_union; done. }
      simpl in Hstack2, Hvis2, Hnone2.
      eexists. split; [done|]. simpl.
      split_and!; [rewrite Hstack2; set_solver|set_solver|set_solver| |].
      { intros Hnil. by destruct (Hnone2 Hnil). }
      split_and!; simpl; [rewrite Hstack2; set_solver|done|].
      (* the node is finished now *)
      intros Hnil u [Hu1 Hu2]. simpl in *.
      destruct (Hnone2 Hnil) as [_ Hnbs].
      assert (Hstay : forall x, finished st2 x ->
                finished {| cycles := cycles st2; visited := visited st2;
                            recursionStack := recursionStack st2 ∖ {[n]} |} x).
      { intros x [Hx1 Hx2]. split; simpl; set_solver. }
      assert (Hclosed2 : forall x, finished st2 x ->
                forall y, edge active x y -> finished st2 y).
      { intros x Hx. by apply (Hfin2 Hnil x Hx). }
      assert (Hnst2 : n ∈ recursionStack st2) by (rewrite Hstack2; set_solver).
      assert (Hsucc : forall v, edge active n v -> finished st2 v).
      { intros v (c & Hc & Hf & Ht). apply Hnbs.
        apply list_elem_of_fmap. exists c. split; [done|].
        by apply list_elem_of_filter. }
      destruct (decide (u = n)) as [->|Hne].
      * split; [intros v Hv; by apply Hstay, Hsucc|].
        intros Hr. inversion Hr as [? ? He|? v ? He Hr2]; subst.
        -- by destruct (Hsucc n He).
        -- destruct (finished_reaches active st2 v n Hclosed2 (Hsucc v He) Hr2).
           done.
      * assert (Hu : finished st2 u) by (split; set_solver).
        destruct (Hfin2 Hnil u Hu) as [Hc Ha].
        split; [|done]. intros v Hv. by apply Hstay, Hc.
Qed.

Lemma search_from_ok fuel : forall roots st,
  (forall r, r ∈ roots -> r ∈ U) ->
  (size (U ∖ visited st) < fuel)%nat ->
  recursionStack st = ∅ ->
  search_inv active st ->
  exists st',
    search_from env graph active fuel roots st = Returns st' /\
    recursionStack st' = ∅ /\
    visited st ⊆ visited st' /\
    (forall r, r ∈ roots -> r ∈ visited st') /\
    search_inv active st'.
Proof.
  induction roots as [|r roots IH]; intros st Hroots Hfuel Hstack Hinv; simpl.
  - exists st. split_and!; try done. intros x Hx. by apply elem_of_nil in Hx.
  - destruct (findCycles_ok fuel r [] [] st)
      as (st1 & -> & Hstack1 & Hvis1 & Hr1 & _ & Hinv1); try done.
    { apply Hroots. left. }
    { apply NoDup_nil_2. }
    destruct (IH st1) as (st2 & -> & Hstack2 & Hvis2 & Hall2 & Hinv2); try done.
    { intros x Hx. apply Hroots. by right. }
    { eapply Nat.le_lt_trans; [|exact Hfuel]. apply subseteq_size. set_solver. }
    { congruence. }
    exists st2. split_and!; [done|done|set_solver| |done].
    intros x [->|Hx]%elem_of_cons; [set_solver|by apply Hall2].
Qed.

End Search.

Lemma size_list_to_set_le (l : list string) :
  (size (list_to_set l : gset string) <= length l)%nat.
Proof.
  induction l as [|x l IH]; simpl.
  - done.
  - rewrite size_union_alt, size_singleton.
    assert (size (list_to_set l ∖ {[x]} : gset string) <= size (list_to_set l : gset string))%nat
      by (apply subseteq_size; set_solver).
    lia.
Qed.

Lemma reaches_source active u v : reaches active u v -> exists c, c ∈ active /\ c_from c = u.
Proof. intros [? ? (c & ? & ? & ?)|? ? ? (c & ? & ? & ?) _]; by exists c. Qed.

(** With usable identifiers the search returns; what it reports are
    cycles of the graph; and it reports at least one when the graph has a
    cycle. *)
Lemma detectDeadlockCycles_sound_complete env processes connections :
  let active := filter is_active connections in
  usable_ids processes active ->
  exists found,
    detectDeadlockCycles env processes connections = Returns found /\
    Forall (traces_cycle active) found /\
    (has_cycle active -> found <> []).
Proof.
  intros active Hplain. unfold detectDeadlockCycles. fold active.
  destruct (build_graph_usable processes active Hplain)
    as (graph & -> & Hnb & Hfrom & _).
  set (U := (list_to_set (own graph).*1 ∪ list_to_set (c_to <$> active) : gset string)).
  destruct (search_from_ok env graph active U
              ltac:(intros n Hn; apply Hnb; subst U; set_solver)
              ltac:(intros c Hc; subst U; apply elem_of_union_r, elem_of_list_to_set;
                    by apply list_elem_of_fmap_2)
              (search_depth graph active) (Object_keys graph)
              {| cycles := []; visited := ∅; recursionStack := ∅ |})
    as (st' & -> & Hstack & _ & Hroots & (_ & Hcyc & Hfin)); simpl.
  - intros r Hr%Object_keys_elem. subst U. set_solver.
  - unfold search_depth. rewrite difference_empty_L. subst U.
    rewrite size_union_alt.
    pose proof (size_list_to_set_le (own graph).*1) as H1.
    pose proof (size_list_to_set_le (c_to <$> active)) as H2.
    rewrite !length_fmap in *.
    assert (size (list_to_set (c_to <$> active) ∖ list_to_set (own graph).*1 : gset string)
            <= size (list_to_set (c_to <$> active) : gset string))%nat
      by (apply subseteq_size; set_solver).
    lia.
  - done.
  - split_and!; simpl; [set_solver|done|]. intros _ u [Hu _]. set_solver.
  - exists (cycles st'). split_and!; [done|done|].
    intros [u Hu] Hnil. destruct (reaches_source _ _ _ Hu) as (c & Hc & <-).
    destruct (Hfin Hnil (c_from c)) as [_ Hno]; [|done].
    split; [|rewrite Hstack; set_solver].
    apply Hroots, Object_keys_elem. by apply Hfrom.
Qed.

(** ** The search on a graph that is one cycle of three processes *)

Lemma findCycles_new env graph active fuel n path connPath st neighbors :
  n ∉ recursionStack st -> n ∉ visited st ->
  neighbors_of graph n = Returns neighbors ->
  findCycles env graph active (S fuel) n path connPath st
  = match visit_neighbors (findCycles env graph active fuel) active n path connPath
            neighbors
            {| cycles := cycles st; visited := {[n]} ∪ visited st;
               recursionStack := {[n]} ∪ recursionStack st |} with
    | Returns st2 => Returns {| cycles := cycles st2; visited := visited st2;
                                recursionStack := recursionStack st2 ∖ {[n]} |}
    | failure => failure
    end.
Proof. intros H1 H2 H3. simpl. by rewrite !decide_False, H3. Qed.

Lemma findCycles_on_stack env graph active fuel n path connPath st :
  n ∈ recursionStack st ->
  findCycles env graph active (S fuel) n path connPath st
  = Returns (push_cycle env (slice (indexOf n path) path ++ [n])
               (slice (indexOf n path) connPath) st).
Proof. intros H1. simpl. by rewrite decide_True. Qed.

Lemma findCycles_seen env graph active fuel n path connPath st :
  n ∉ recursionStack st -> n ∈ visited st ->
  findCycles env graph active (S fuel) n path connPath st = Returns st.
Proof. intros H1 H2. simpl. by rewrite decide_False, decide_True. Qed.

#[local] Arguments findCycles : simpl never.

Lemma search_from_app env graph active fuel l1 l2 st :
  search_from env graph active fuel (l1 ++ l2) st
  = match search_from env graph active fuel l1 st with
    | Returns st' => search_from env graph active fuel l2 st'
    | failure => failure
    end.
Proof.
  revert st. induction l1 as [|r l1 IH]; intros st; simpl; [done|].
  destruct (findCycles env graph active fuel r [] [] st); simpl; [apply IH|done..].
Qed.

(** Roots without outgoing edges, and roots visited before, add no cycle. *)
Lemma search_from_quiet env graph active fuel : forall roots st,
  recursionStack st = ∅ ->
  (forall r, r ∈ roots -> r ∈ visited st \/ neighbors_of graph r = Returns []) ->
  exists st',
    search_from env graph active (S fuel) roots st = Returns st' /\
    cycles st' = cycles st /\ recursionStack st' = ∅ /\
    visited st ⊆ visited st' /\ visited st' ⊆ visited st ∪ list_to_set roots.
Proof.
  induction roots as [|r roots IH]; intros st Hstack Hroots; simpl.
  - exists st. split_and!; [done..|set_solver|set_solver].
  - destruct (decide (r ∈ visited st)) as [Hvis|Hnew].
    + rewrite findCycles_seen by (rewrite ?Hstack; set_solver).
      destruct (IH st) as (st' & -> & ? & ? & ? & ?); [done|set_solver|].
      exists st'. split_and!; [done..|set_solver].
    + destruct (Hroots r) as [?|Hnone]; [left|done|].
      rewrite (findCycles_new env graph active fuel r [] [] st [])
        by first [done|rewrite ?Hstack; set_solver].
      simpl.
      destruct (IH {| cycles := cycles st; visited := {[r]} ∪ visited st;
                      recursionStack := ({[r]} ∪ recursionStack st) ∖ {[r]} |})
        as (st' & -> & ? & ? & ? & ?); simpl in *.
      * rewrite Hstack. set_solver.
      * intros x Hx. destruct (Hroots x) as [?|?]; [by right|left; set_solver|by right].
      * exists st'. split_and!; [done..|set_solver|set_solver].
Qed.

Section ThreeCycle.

Variables (env : Env) (graph : Graph) (active : list Connection).
Variables (a b c : string) (cab cbc cca : Connection).

Hypothesis cycle : forms_three_cycle active a b c cab cbc cca.

Hypothesis graph_neighbors : forall n,
  n ∈ (own graph).*1 \/ n ∈ c_to <$> active ->
  neighbors_of graph n = Returns (c_to <$> filter (fun c => c_from c = n) active).

Lemma three_cycle_targets : forall n, n ∈ [a; b; c] -> n ∈ c_to <$> active.
Proof.
  destruct cycle as (Hperm & [Hab1 Hab2] & [Hbc1 Hbc2] & [Hca1 Hca2] & _).
  intros n Hn. rewrite Hperm. simpl. rewrite Hab2, Hbc2, Hca2. set_solver.
Qed.

Lemma three_cycle_neighbors n :
  n ∈ (own graph).*1 \/ n ∈ c_to <$> active ->
  neighbors_of graph n
  = Returns (if decide (n = a) then [b] else if decide (n = b) then [c]
             else if decide (n = c) then [a] else []).
Proof.
  destruct cycle as (Hperm & [Hab1 Hab2] & [Hbc1 Hbc2] & [Hca1 Hca2] & Hne1 & Hne2 & Hne3).
  intros Hn. rewrite graph_neighbors by done. f_equal.
  assert (Hf : filter (fun x => c_from x = n) active
               ≡ₚ filter (fun x => c_from x = n) [cab; cbc; cca]) by by rewrite Hperm.
  rewrite !filter_cons, filter_nil, Hab1, Hbc1, Hca1 in Hf.
  repeat case_decide; simplify_eq;
    try (apply Permutation_nil_r in Hf; by rewrite Hf);
    try (apply Permutation_singleton_r in Hf; rewrite Hf; simpl; congruence).
Qed.

Lemma three_cycle_find u v conn :
  conn ∈ [cab; cbc; cca] -> c_from conn = u -> c_to conn = v ->
  List.find (fun x => bool_decide (c_from x = u /\ c_to x = v)) active = Some conn.
Proof.
  destruct cycle as (Hperm & [Hab1 Hab2] & [Hbc1 Hbc2] & [Hca1 Hca2] & Hne1 & Hne2 & Hne3).
  intros Hconn Hu Hv.
  destruct (find_edge_connection active u v) as (conn' & -> & Hin & Hf & Ht).
  { apply list_elem_of_fmap. exists conn. split; [done|].
    apply list_elem_of_filter. split; [done|]. by rewrite Hperm. }
  rewrite Hperm in Hin. f_equal.
  set_unfold. destruct Hin as [->|[->|[->|[]]]], Hconn as [->|[->|[->|[]]]];
    congruence.
Qed.

(** The search from [a], when none of the three has been visited. *)
Lemma three_cycle_from fuel st :
  recursionStack st = ∅ ->
  a ∉ visited st -> b ∉ visited st -> c ∉ visited st ->
  exists st',
    findCycles env graph active (S (S (S (S fuel)))) a [] [] st = Returns st' /\
    cycles st' = cycles st ++
      [reported env (length (cycles st)) [a; b; c; a] [c_id cab; c_id cbc; c_id cca]] /\
    recursionStack st' = ∅ /\
    visited st' = {[a; b; c]} ∪ visited st.
Proof.
  pose proof three_cycle_targets as Htargets.
  destruct cycle as (Hperm & [Hab1 Hab2] & [Hbc1 Hbc2] & [Hca1 Hca2] & Hne1 & Hne2 & Hne3).
  intros Hstack Ha Hb Hc.
  rewrite (findCycles_new env graph active _ a _ _ _ [b]);
    [|rewrite ?Hstack; set_solver|set_solver|].
  2:{ rewrite three_cycle_neighbors by (right; apply Htargets; set_solver).
      by rewrite decide_True. }
  simpl.
  rewrite (three_cycle_find a b cab) by (done || set_solver).
  rewrite (findCycles_new env graph active _ b _ _ _ [c]);
    [|simpl; rewrite ?Hstack; set_solver|simpl; set_solver|].
  2:{ rewrite three_cycle_neighbors by (right; apply Htargets; set_solver).
      by rewrite decide_False, decide_True by done. }
  simpl.
  rewrite (three_cycle_find b c cbc) by (done || set_solver).
  rewrite (findCycles_new env graph active _ c _ _ _ [a]);
    [|simpl; rewrite ?Hstack; set_solver|simpl; set_solver|].
  2:{ rewrite three_cycle_neighbors by (right; apply Htargets; set_solver).
      by rewrite !decide_False, decide_True by done. }
  simpl.
  rewrite (three_cycle_find c a cca) by (done || set_solver).
  rewrite findCycles_on_stack by (simpl; set_solver).
  simpl. rewrite decide_True by done. unfold slice. simpl.
  eexists. split; [done|]. simpl. split_and!; [done| |set_solver].
  rewrite Hstack. set_solver.
Qed.

(** The whole scan, when [a] comes before [b] and [c] among the keys of
    the graph. *)
Lemma three_cycle_scan fuel before rest :
  Object_keys graph = before ++ a :: rest ->
  a ∉ before -> b ∉ before -> c ∉ before ->
  exists st',
    search_from env graph active (S (S (S (S fuel)))) (before ++ a :: rest)
      {| cycles := []; visited := ∅; recursionStack := ∅ |} = Returns st' /\
    cycles st' = [reported env 0 [a; b; c; a] [c_id cab; c_id cbc; c_id cca]].
Proof.
  intros Hkeys Ha Hb Hc.
  assert (Hquiet : forall r, r ∈ before ++ a :: rest -> r <> a -> r <> b -> r <> c ->
            neighbors_of graph r = Returns []).
  { intros r Hr ? ? ?. rewrite three_cycle_neighbors.
    - by rewrite !decide_False.
    - left. apply Object_keys_elem. by rewrite Hkeys. }
  rewrite search_from_app.
  destruct (search_from_quiet env graph active (S (S (S fuel))) before
              {| cycles := []; visited := ∅; recursionStack := ∅ |})
    as (st1 & -> & Hc1 & Hs1 & _ & Hv1); [done| |].
  { intros r Hr. right. apply Hquiet; [set_solver|intros ->; done..]. }
  simpl in *.
  destruct (three_cycle_from fuel st1) as (st2 & -> & Hc2 & Hs2 & Hv2);
    [done|set_solver..|].
  destruct (search_from_quiet env graph active (S (S (S fuel))) rest st2)
    as (st3 & -> & Hc3 & _); [done| |].
  { intros r Hr. rewrite Hv2.
    destruct (decide (r = a)) as [->|]; [left; set_solver|].
    destruct (decide (r = b)) as [->|]; [left; set_solver|].
    destruct (decide (r = c)) as [->|]; [left; set_solver|].
    right. apply Hquiet; [set_solver|done..]. }
  exists st3. split; [done|]. by rewrite Hc3, Hc2, Hc1.
Qed.

End ThreeCycle.

Lemma detectDeadlockCycles_three_cycle env processes connections
    a b c cab cbc cca graph before rest :
  let active := filter is_active connections in
  usable_ids processes active ->
  forms_three_cycle active a b c cab cbc cca ->
  build_graph processes active = Returns graph ->
  Object_keys graph = before ++ a :: rest ->
  a ∉ before -> b ∉ before -> c ∉ before ->
  detectDeadlockCycles env processes connections
  = Returns [reported env 0 [a; b; c; a] [c_id cab; c_id cbc; c_id cca]].
Proof.
  intros active Hplain Hcycle Hgraph Hkeys Ha Hb Hc.
  unfold detectDeadlockCycles. fold active. rewrite Hgraph, Hkeys.
  destruct (build_graph_usable processes active Hplain)
    as (graph' & Hgraph' & Hnb & _).
  rewrite Hgraph in Hgraph'. injection Hgraph' as <-.
  assert (Hlen : length active = 3%nat).
  { destruct Hcycle as [Hperm _]. by rewrite Hperm. }
  unfold search_depth. rewrite Hlen, Nat.add_comm. simpl.
  destruct (three_cycle_scan env graph active a b c cab cbc cca Hcycle Hnb
              (length (own graph)) before rest Hkeys Ha Hb Hc)
    as (st' & -> & Hc'). by rewrite Hc'.
Qed.

Lemma forms_three_cycle_rotate active a b c cab cbc cca :
  forms_three_cycle active a b c cab cbc cca ->
  forms_three_cycle active b c a cbc cca cab.
Proof.
  intros (Hperm & [? ?] & [? ?] & [? ?] & ? & ? & ?).
  split_and!; try done; try congruence.
  rewrite Hperm. apply Permutation_cons_append.
Qed.

Lemma first_of_three (keys : list string) a b c :
  a ∈ keys ->
  exists before x rest,
    keys = before ++ x :: rest /\ x ∈ [a; b; c] /\
    (a ∉ before) /\ (b ∉ before) /\ (c ∉ before).
Proof.
  induction keys as [|k keys IH]; [by intros ?%elem_of_nil|].
  intros Hin. destruct (decide (k ∈ [a; b; c])) as [Hk|Hk].
  - exists [], k, keys. split_and!; [done|done|apply not_elem_of_nil..].
  - destruct IH as (before & x & rest & -> & Hx & Ha & Hb & Hc); [set_solver|].
    exists (k :: before), x, rest. set_solver.
Qed.

(** ** The search ends *)

Lemma graph_add_edges_finishes active : forall g,
  graph_add_edges g active <> Unfinished.
Proof.
  unfold graph_add_edges.
  assert (H : forall r : Outcome Graph, r <> Unfinished ->
    foldl (fun r conn => match r with
                         | Returns g' => graph_add_edge g' conn
                         | _ => r
                         end) r active <> Unfinished).
  { induction active as [|c active IH]; intros r Hr; simpl; [done|].
    apply IH. destruct r as [g| |]; [|done..].
    unfold graph_add_edge, graph_push.
    by repeat case_match. }
  intros g. by apply H.
Qed.

Lemma neighbors_of_finishes graph n : neighbors_of graph n <> Unfinished.
Proof. unfold neighbors_of. by repeat case_match. Qed.

Section Termination.

Variables (env : Env) (graph : Graph) (active : list Connection) (U : gset string).

Hypothesis targets_in_U : forall c, c ∈ active -> c_to c ∈ U.

Lemma visit_neighbors_finishes fuel n path connPath :
  (forall v path' connPath' st,
     v ∈ U -> (size (U ∖ visited st) < fuel)%nat ->
     match findCycles env graph active fuel v path' connPath' st with
     | Returns st' => visited st ⊆ visited st'
     | ThrowsTypeError => True
     | Unfinished => False
     end) ->
  forall neighbors st,
    (size (U ∖ visited st) < fuel)%nat ->
    match visit_neighbors (findCycles env graph active fuel) active n path connPath
            neighbors st with
    | Returns st' => visited st ⊆ visited st'
    | ThrowsTypeError => True
    | Unfinished => False
    end.
Proof.
  intros Hcall. induction neighbors as [|v rest IH]; intros st Hfuel; simpl; [done|].
  destruct (List.find _ active) as [conn|] eqn:Hfind; [|by apply IH].
  apply find_some in Hfind as [Hin Hconn]. apply bool_decide_eq_true in Hconn as [_ Hto].
  assert (v ∈ U) as Hv.
  { rewrite <- Hto. apply targets_in_U. by apply list_elem_of_In. }
  specialize (Hcall v (path ++ [n]) (connPath ++ [c_id conn]) st Hv Hfuel).
  destruct (findCycles env graph active fuel v _ _ st) as [st1| |]; [|done..].
  assert (size (U ∖ visited st1) < fuel)%nat as Hfuel1.
  { eapply Nat.le_lt_trans; [|exact Hfuel]. apply subseteq_size. set_solver. }
  specialize (IH st1 Hfuel1).
  destruct (visit_neighbors _ active n path connPath rest st1); [|done..].
  set_solver.
Qed.

Lemma findCycles_finishes fuel : forall n path connPath st,
  n ∈ U -> (size (U ∖ visited st) < fuel)%nat ->
  match findCycles env graph active fuel n path connPath st with
  | Returns st' => visited st ⊆ visited st'
  | ThrowsTypeError => True
  | Unfinished => False
  end.
Proof.
  induction fuel as [|fuel IH]; intros n path connPath st Hn Hfuel; [lia|].
  destruct (decide (n ∈ recursionStack st)) as [Hon|Hoff].
  { by rewrite findCycles_on_stack. }
  destruct (decide (n ∈ visited st)) as [Hvis|Hnew].
  { by rewrite findCycles_seen. }
  pose proof (neighbors_of_finishes graph n) as Hnb.
  destruct (neighbors_of graph n) as [neighbors| |] eqn:Hneighbors; [| |done].
  - rewrite (findCycles_new _ _ _ _ _ _ _ _ neighbors) by done.
    pose proof (visit_neighbors_finishes fuel n path connPath IH neighbors
                  {| cycles := cycles st; visited := {[n]} ∪ visited st;
                     recursionStack := {[n]} ∪ recursionStack st |}) as Hvisit.
    simpl in Hvisit.
    destruct (visit_neighbors _ active n path connPath neighbors _) as [st2| |].
    + simpl. etrans; [|apply Hvisit]; [set_solver|].
      assert (U ∖ ({[n]} ∪ visited st) ⊂ U ∖ visited st) as Hlt%subset_size
        by set_solver. lia.
    + done.
    + apply Hvisit.
      assert (U ∖ ({[n]} ∪ visited st) ⊂ U ∖ visited st) as Hlt%subset_size
        by set_solver. lia.
  - unfold findCycles. fold findCycles. by rewrite !decide_False, Hneighbors.
Qed.

Lemma search_from_finishes fuel : forall roots st,
  (forall r, r ∈ roots -> r ∈ U) ->
  (size (U ∖ visited st) < fuel)%nat ->
  search_from env graph active fuel roots st <> Unfinished.
Proof.
  induction roots as [|r roots IH]; intros st Hroots Hfuel; simpl; [done|].
  pose proof (findCycles_finishes fuel r [] [] st) as Hcall.
  destruct (findCycles env graph active fuel r [] [] st) as [st1| |].
  - apply IH; [intros x Hx; apply Hroots; by right|].
    eapply Nat.le_lt_trans; [|exact Hfuel]. apply subseteq_size.
    assert (visited st ⊆ visited st1) by (apply Hcall; [apply Hroots; left|done]).
    set_solver.
  - done.
  - exfalso. apply Hcall; [apply Hroots; left|done].
Qed.

End Termination.

(** Whatever the processes and the connections, a scan by
    [detectDeadlockCycles] comes to an end: it returns or it throws. *)
Lemma detectDeadlockCycles_finishes env processes connections :
  detectDeadlockCycles env processes connections <> Unfinished.
Proof.
  unfold detectDeadlockCycles. set (active := filter is_active connections).
  pose proof (graph_add_edges_finishes active (graph_init processes)) as Hbuild.
  unfold build_graph.
  destruct (graph_add_edges (graph_init processes) active) as [graph| |]; [|done..].
  set (U := (list_to_set (own graph).*1 ∪ list_to_set (c_to <$> active) : gset string)).
  pose proof (search_from_finishes env graph active U
                ltac:(intros c Hc; subst U; apply elem_of_union_r, elem_of_list_to_set;
                      by apply list_elem_of_fmap_2)
                (search_depth graph active) (Object_keys graph)
                {| cycles := []; visited := ∅; recursionStack := ∅ |}) as Hsearch.
  destruct (search_from _ _ _ _ _ _) as [st| |]; [done..|].
  intros _. apply Hsearch; [intros r Hr%Object_keys_elem; subst U; set_solver| |done].
  simpl. unfold search_depth. rewrite difference_empty_L. subst U.
  rewrite size_union_alt.
  pose proof (size_list_to_set_le (own graph).*1) as H1.
  pose proof (size_list_to_set_le (c_to <$> active)) as H2.
  rewrite !length_fmap in *.
  assert (size (list_to_set (c_to <$> active) ∖ list_to_set (own graph).*1 : gset string)
          <= size (list_to_set (c_to <$> active) : gset string))%nat
    by (apply subseteq_size; set_solver).
  lia.
Qed.

(** ** What the search visits *)

Section Visits.

Variables (env : Env) (graph : Graph) (active : list Connection) (U : gset string).

Hypothesis targets_in_U : forall c, c ∈ active -> c_to c ∈ U.

Lemma visit_neighbors_visits fuel n path connPath :
  (forall v path' connPath' st,
     v ∈ U -> (size (U ∖ visited st) < fuel)%nat -> visited_ok graph active st ->
     forall st', findCycles env graph active fuel v path' connPath' st = Returns st' ->
       visited st ⊆ visited st' /\ v ∈ visited st' /\
       recursionStack st' = recursionStack st /\ visited_ok graph active st') ->
  forall neighbors st,
    (size (U ∖ visited st) < fuel)%nat -> visited_ok graph active st ->
    forall st',
      visit_neighbors (findCycles env graph active fuel) active n path connPath
        neighbors st = Returns st' ->
      visited st ⊆ visited st' /\ recursionStack st' = recursionStack st /\
      visited_ok graph active st' /\
      forall v, v ∈ neighbors ->
        is_Some (List.find (fun c => bool_decide (c_from c = n /\ c_to c = v)) active) ->
        v ∈ visited st'.
Proof.
  intros Hcall. induction neighbors as [|v rest IH]; intros st Hfuel Hok st'; simpl.
  - intros [= <-]. split_and!; [done..|]. by intros v ?%elem_of_nil.
  - destruct (List.find _ active) as [conn|] eqn:Hfind.
    + pose proof Hfind as Hfound.
      apply find_some in Hfind as [Hin Hconn].
      apply bool_decide_eq_true in Hconn as [_ Hto].
      assert (v ∈ U) as Hv.
      { rewrite <- Hto. apply targets_in_U. by apply list_elem_of_In. }
      destruct (findCycles env graph active fuel v _ _ st) as [st1| |] eqn:Hrec;
        [|done..].
      destruct (Hcall v _ _ st Hv Hfuel Hok st1 Hrec) as (Hsub1 & Hv1 & Hstack1 & Hok1).
      intros Hrest.
      destruct (IH st1) with (st' := st') as (Hsub2 & Hstack2 & Hok2 & Hall2);
        [|done|done|].
      { eapply Nat.le_lt_trans; [|exact Hfuel]. apply subseteq_size. set_solver. }
      split_and!; [set_solver|congruence|done|].
      intros w [->|Hw]%elem_of_cons Hsome; [set_solver|by apply Hall2].
    + intros Hrest. destruct (IH st Hfuel Hok st' Hrest) as (? & ? & ? & Hall).
      split_and!; [done..|].
      intros w [->|Hw]%elem_of_cons Hsome; [|by apply Hall].
      rewrite Hfind in Hsome. by destruct Hsome.
Qed.

Lemma findCycles_visits fuel : forall n path connPath st,
  n ∈ U -> (size (U ∖ visited st) < fuel)%nat -> visited_ok graph active st ->
  forall st', findCycles env graph active fuel n path connPath st = Returns st' ->
    visited st ⊆ visited st' /\ n ∈ visited st' /\
    recursionStack st' = recursionStack st /\ visited_ok graph active st'.
Proof.
  induction fuel as [|fuel IH]; intros n path connPath st Hn Hfuel Hok st'; [lia|].
  destruct Hok as (Hstack & Hgood & Hclosed).
  destruct (decide (n ∈ recursionStack st)) as [Hon|Hoff].
  { rewrite findCycles_on_stack by done. intros [= <-]. simpl.
    split_and!; [done|set_solver|done|done]. }
  destruct (decide (n ∈ visited st)) as [Hvis|Hnew].
  { rewrite findCycles_seen by done. intros [= <-]. by split_and!. }
  destruct (neighbors_of graph n) as [neighbors| |] eqn:Hneighbors.
  - rewrite (findCycles_new _ _ _ _ _ _ _ _ neighbors) by done.
    set (st1 := {| cycles := cycles st; visited := {[n]} ∪ visited st;
                   recursionStack := {[n]} ∪ recursionStack st |}).
    destruct (visit_neighbors _ active n path connPath neighbors st1) as [st2| |]
      eqn:Hvisit; [|done..].
    intros [= <-]. simpl.
    destruct (visit_neighbors_visits fuel n path connPath IH neighbors st1)
      with (st' := st2) as (Hsub2 & Hstack2 & (Hstack2' & Hgood2 & Hclosed2) & Hall2);
      [| |done|].
    { simpl. assert (U ∖ ({[n]} ∪ visited st) ⊂ U ∖ visited st) as Hlt%subset_size
        by set_solver. lia. }
    { split_and!; simpl; [set_solver| |].
      - intros x [->%elem_of_singleton|?]%elem_of_union; [congruence|by apply Hgood].
      - intros x l v Hx Hxs Hl Hv Hsome.
        apply elem_of_union_r, (Hclosed x l v); [set_solver..|done|done|done]. }
    simpl in *. split_and!; [set_solver|set_solver|rewrite Hstack2; set_solver|].
    split_and!; simpl; [set_solver|done|].
    intros x l v Hx Hxs Hl Hv Hsome.
    destruct (decide (x = n)) as [->|Hne].
    + rewrite Hneighbors in Hl. injection Hl as <-. by apply Hall2.
    + apply (Hclosed2 x l v); [done|set_solver|done..].
  - unfold findCycles. fold findCycles. by rewrite !decide_False, Hneighbors.
  - unfold findCycles. fold findCycles. by rewrite !decide_False, Hneighbors.
Qed.

Lemma search_from_visits fuel : forall roots st,
  (forall r, r ∈ roots -> r ∈ U) ->
  (size (U ∖ visited st) < fuel)%nat -> visited_ok graph active st ->
  forall st', search_from env graph active fuel roots st = Returns st' ->
    visited st ⊆ visited st' /\ recursionStack st' = recursionStack st /\
    visited_ok graph active st' /\ forall r, r ∈ roots -> r ∈ visited st'.
Proof.
  induction roots as [|r roots IH]; intros st Hroots Hfuel Hok st'; simpl.
  - intros [= <-]. split_and!; [done..|]. by intros r ?%elem_of_nil.
  - destruct (findCycles env graph active fuel r [] [] st) as [st1| |] eqn:Hrec;
      [|done..].
    destruct (findCycles_visits fuel r [] [] st) with (st' := st1)
      as (Hsub1 & Hr1 & Hstack1 & Hok1); [apply Hroots; left|done..|].
    intros Hrest.
    destruct (IH st1) with (st' := st') as (Hsub2 & Hstack2 & Hok2 & Hall2);
      [intros x Hx; apply Hroots; by right| |done|done|].
    { eapply Nat.le_lt_trans; [|exact Hfuel]. apply subseteq_size. set_solver. }
    split_and!; [set_solver|congruence|done|].
    intros x [->|Hx]%elem_of_cons; [set_solver|by apply Hall2].
Qed.

End Visits.

(** ** What the search reports *)

Lemma search_depth_suffices graph active :
  (size ((list_to_set (own graph).*1 ∪ list_to_set (c_to <$> active) : gset string)
         ∖ ∅)
   < search_depth graph active)%nat.
Proof.
  unfold search_depth. rewrite difference_empty_L, size_union_alt.
  pose proof (size_list_to_set_le (own graph).*1) as H1.
  pose proof (size_list_to_set_le (c_to <$> active)) as H2.
  rewrite !length_fmap in *.
  assert (size (list_to_set (c_to <$> active) ∖ list_to_set (own graph).*1 : gset string)
          <= size (list_to_set (c_to <$> active) : gset string))%nat
    by (apply subseteq_size; set_solver).
  lia.
Qed.

(** An active connection from or to a name that the graph inherits makes
    the scan throw: in the second loop when it starts there, and otherwise
    when the search comes to its end. *)
Lemma detectDeadlockCycles_inherited env processes connections c :
  ("__proto__" ∉ p_id <$> processes) ->
  c ∈ filter is_active connections ->
  inherited processes (c_from c) \/ inherited processes (c_to c) ->
  detectDeadlockCycles env processes connections = ThrowsTypeError.
Proof.
  intros Hproto Hc Hends. unfold detectDeadlockCycles.
  set (active := filter is_active connections) in *.
  destruct (decide (Exists (fun c' => inherited processes (c_from c')) active))
    as [(c' & Hc' & Hfrom)%Exists_exists|Hnone].
  { by rewrite (build_graph_inherited processes active c'). }
  rewrite Exists_exists in Hnone.
  assert (usable_sources : Forall (fun c => c_from c ∈ (own (graph_init processes)).*1 \/
                                            c_from c ∉ Object_prototype_members) active).
  { apply Forall_forall. intros c' Hc'.
    destruct (graph_init_own processes Hproto) as (_ & _ & Hkeys0). rewrite Hkeys0.
    destruct (decide (c_from c' ∈ p_id <$> processes)); [by left|right].
    intros Hmember. apply Hnone. by exists c'. }
  destruct Hends as [Hfrom|[Hmember Hto]]; [destruct Hnone; by exists c|].
  destruct (graph_init_own processes Hproto) as (Hproto0 & Hget0 & Hkeys0).
  unfold build_graph.
  destruct (graph_add_edges_own active (graph_init processes) Hproto0 usable_sources)
    as (graph & -> & Hgproto & Hget & Hkeys & _).
  assert (c_to c ∉ (own graph).*1) as Hnokey.
  { rewrite Hkeys, Hkeys0. intros [?|(c' & Heq & Hc')%list_elem_of_fmap]; [done|].
    apply Hnone. exists c'. split; [done|]. rewrite <- Heq. by split. }
  set (U := (list_to_set (own graph).*1 ∪ list_to_set (c_to <$> active) : gset string)).
  assert (Htargets : forall c', c' ∈ active -> c_to c' ∈ U).
  { intros c' Hc'. subst U. apply elem_of_union_r, elem_of_list_to_set.
    by apply list_elem_of_fmap_2. }
  assert (Hroots : forall r, r ∈ Object_keys graph -> r ∈ U).
  { intros r Hr%Object_keys_elem. subst U. set_solver. }
  pose proof (search_depth_suffices graph active) as Hdepth. fold U in Hdepth.
  pose proof (search_from_finishes env graph active U Htargets
                (search_depth graph active) (Object_keys graph)
                {| cycles := []; visited := ∅; recursionStack := ∅ |} Hroots Hdepth)
    as Hfinishes.
  destruct (search_from _ _ _ _ _ _) as [st'| |] eqn:Hsearch; [|done..].
  exfalso.
  destruct (search_from_visits env graph active U Htargets
              (search_depth graph active) (Object_keys graph)
              {| cycles := []; visited := ∅; recursionStack := ∅ |} Hroots Hdepth)
    with (st' := st') as (_ & Hstack & (_ & Hgood & Hclosed) & Hvisited); [|done|].
  { split_and!; simpl; [done|set_solver|set_solver]. }
  simpl in Hstack.
  apply (Hgood (c_to c)); [|by apply neighbors_of_inherited].
  apply (Hclosed (c_from c) (c_to <$> filter (fun c' => c_from c' = c_from c) active)).
  - apply Hvisited, Object_keys_elem, Hkeys. right. by apply list_elem_of_fmap_2.
  - rewrite Hstack. set_solver.
  - rewrite neighbors_of_own; [by rewrite Hget, Hget0|done|].
    left. apply Hkeys. right. by apply list_elem_of_fmap_2.
  - apply list_elem_of_fmap_2. by apply list_elem_of_filter.
  - destruct (find_edge_connection active (c_from c) (c_to c)) as (conn & -> & _).
    + apply list_elem_of_fmap_2. by apply list_elem_of_filter.
    + by eexists.
Qed.

(** C1 (as amended).  A scan by [detectDeadlockCycles] always comes to an
    end.  Unless a process is called "__proto__", it throws a [TypeError]
    exactly when an active connection starts or ends at the name of a
    member of [Object.prototype] that no process bears, and returns
    otherwise.  When it returns thus, every cycle it reports traces a
    cycle of the graph of active connections (distinct processes, the
    first repeated at the end, and the identifiers of active connections
    leading along them); it reports at least one cycle whenever that graph
    has a directed cycle.  When the active connections form the cycle
    A -> B -> C -> A, the scan reports exactly one cycle: its process list
    is [A; B; C; A] with the three connection identifiers in that order
    when A is the first of the three among the keys of the dependency
    graph, and is otherwise the rotation [B; C; A; B] or [C; A; B; C] with
    the connection list rotated alike. *)
Theorem C1_cycle_detection env processes connections :
  let active := filter is_active connections in
  detectDeadlockCycles env processes connections <> Unfinished /\
  (("__proto__" ∉ p_id <$> processes) ->
   (detectDeadlockCycles env processes connections = ThrowsTypeError <->
    exists c, c ∈ active /\
      (inherited processes (c_from c) \/ inherited processes (c_to c)))) /\
  (usable_ids processes active ->
   (exists found,
      detectDeadlockCycles env processes connections = Returns found /\
      Forall (traces_cycle active) found /\
      (has_cycle active -> found <> [])) /\
   (forall a b c cab cbc cca,
      forms_three_cycle active a b c cab cbc cca ->
      (forall graph before rest,
         build_graph processes active = Returns graph ->
         Object_keys graph = before ++ a :: rest ->
         a ∉ before -> b ∉ before -> c ∉ before ->
         detectDeadlockCycles env processes connections
         = Returns [reported env 0 [a; b; c; a] [c_id cab; c_id cbc; c_id cca]]) /\
      (exists cyclePath cycleConnections,
         detectDeadlockCycles env processes connections
         = Returns [reported env 0 cyclePath cycleConnections] /\
         (cyclePath, cycleConnections) ∈
           [ ([a; b; c; a], [c_id cab; c_id cbc; c_id cca]);
             ([b; c; a; b], [c_id cbc; c_id cca; c_id cab]);
             ([c; a; b; c], [c_id cca; c_id cab; c_id cbc]) ]))).
Proof.
  intros active. split; [apply detectDeadlockCycles_finishes|].
  split; [intros Hproto; split|intros Hplain; split].
  - intros Hthrows.
    destruct (decide (usable_ids processes active)) as [Husable|Hnot].
    + destruct (detectDeadlockCycles_sound_complete env processes connections Husable)
        as (found & Hfound & _). congruence.
    + unfold usable_ids in Hnot.
      apply not_and_r in Hnot as [?|Hnot]; [done|].
      apply not_Forall_Exists in Hnot; [|apply _].
      apply Exists_exists in Hnot as (c & Hc & Hends). exists c. split; [done|].
      apply not_and_r in Hends as [?%dec_stable|?%dec_stable]; tauto.
  - intros (c & Hc & Hends).
    by apply (detectDeadlockCycles_inherited env processes connections c).
  - by apply detectDeadlockCycles_sound_complete.
  - intros a b c cab cbc cca Hcycle. split.
    + intros. by eapply detectDeadlockCycles_three_cycle.
    + destruct (build_graph_usable processes active Hplain)
        as (graph & Hgraph & _ & Hfrom & _).
      assert (Hkey : a ∈ Object_keys graph).
      { destruct Hcycle as (Hperm & [<- _] & _).
        apply Object_keys_elem, Hfrom. rewrite Hperm. left. }
      destruct (first_of_three _ a b c Hkey)
        as (before & x & rest & Hkeys & Hx & Ha & Hb & Hc).
      pose proof (forms_three_cycle_rotate _ _ _ _ _ _ _ Hcycle) as Hcycle'.
      pose proof (forms_three_cycle_rotate _ _ _ _ _ _ _ Hcycle') as Hcycle''.
      set_unfold in Hx. destruct Hx as [->|[->|[->|[]]]].
      * exists [a; b; c; a], [c_id cab; c_id cbc; c_id cca]. split; [|set_solver].
        exact (detectDeadlockCycles_three_cycle env processes connections
                 a b c cab cbc cca graph before rest Hplain Hcycle Hgraph Hkeys
                 Ha Hb Hc).
      * exists [b; c; a; b], [c_id cbc; c_id cca; c_id cab]. split; [|set_solver].
        exact (detectDeadlockCycles_three_cycle env processes connections
                 b c a cbc cca cab graph before rest Hplain Hcycle' Hgraph Hkeys
                 Hb Hc Ha).
      * exists [c; a; b; c], [c_id cca; c_id cab; c_id cbc]. split; [|set_solver].
        exact (detectDeadlockCycles_three_cycle env processes connections
                 c a b cca cab cbc graph before rest Hplain Hcycle'' Hgraph Hkeys
                 Hc Ha Hb).
Qed.

Lemma C1_cycle_detection_witness :
  detectDeadlockCycles sample_env
    [idle_process "A"; idle_process "B"; idle_process "C"]
    [active_memory "ab" "A" "B"; active_memory "bc" "B" "C";
     active_memory "ca" "C" "A"]
  = Returns [reported sample_env 0 ["A"; "B"; "C"; "A"] ["ab"; "bc"; "ca"]].
Proof.
  assert (Hcycle : forms_three_cycle
            (filter is_active
               [active_memory "ab" "A" "B"; active_memory "bc" "B" "C";
                active_memory "ca" "C" "A"])
            "A" "B" "C" (active_memory "ab" "A" "B") (active_memory "bc" "B" "C")
            (active_memory "ca" "C" "A")).
  { repeat split; done. }
  assert (Husable : usable_ids
            [idle_process "A"; idle_process "B"; idle_process "C"]
            (filter is_active
               [active_memory "ab" "A" "B"; active_memory "bc" "B" "C";
                active_memory "ca" "C" "A"])).
  { apply (bool_decide_unpack _). vm_compute. exact I. }
  apply (proj1 (proj2 (proj2 (proj2 (C1_cycle_detection sample_env
                                [idle_process "A"; idle_process "B"; idle_process "C"]
                                [active_memory "ab" "A" "B"; active_memory "bc" "B" "C";
                                 active_memory "ca" "C" "A"])) Husable)
                  "A" "B" "C" (active_memory "ab" "A" "B")
                  (active_memory "bc" "B" "C") (active_memory "ca" "C" "A") Hcycle)
           {| own := [("A", ["B"]); ("B", ["C"]); ("C", ["A"])]; proto := None |}
           [] ["B"; "C"]).
  - reflexivity.
  - reflexivity.
  - apply not_elem_of_nil.
  - apply not_elem_of_nil.
  - apply not_elem_of_nil.
Defined.

(** With the processes listed as B, A, C the scan starts at B and reports
    [B; C; A; B]: the cycle is found, but not under the labelling of the
    claim. *)
Lemma C1_three_cycle_labelling_counterexample :
  ~ reports_cycle_as_labelled sample_env
      [idle_process "B"; idle_process "A"; idle_process "C"]
      [active_memory "ab" "A" "B"; active_memory "bc" "B" "C";
       active_memory "ca" "C" "A"]
      "A" "B" "C" (active_memory "ab" "A" "B") (active_memory "bc" "B" "C")
      (active_memory "ca" "C" "A").
Proof.
  intros H. destruct H as (found & cyc & Hfound & Hin & Hp & _).
  - repeat split; done.
  - vm_compute in Hfound. injection Hfound as <-.
    apply list_elem_of_singleton in Hin. subst cyc. discriminate Hp.
Qed.

(** A process called "__proto__" is no key of the graph: the array
    assigned for it becomes the prototype of the graph.  A connection from
    it to itself is a cycle that the scan does not report. *)
Lemma detectDeadlockCycles_misses_proto :
  has_cycle (filter is_active [active_memory "pp" "__proto__" "__proto__"]) /\
  detectDeadlockCycles sample_env [idle_process "__proto__"]
    [active_memory "pp" "__proto__" "__proto__"]
  = Returns [].
Proof.
  split; [|reflexivity].
  exists "__proto__". apply reaches_edge.
  exists (active_memory "pp" "__proto__" "__proto__"). split; [|done].
  apply list_elem_of_filter. split; [done|left].
Qed.

(** ** The handlers of [ProcessCanvas] *)

(** Unfolds the handler monad, and nothing else. *)
Ltac run_handlers :=
  cbv [send_transfer consume_transfer checkForDeadlocks release_process
       wake_waiters logEvent generateId Math_random push_log toast setTimeout
       setProcesses setConnections setDataTransfers setConnectMode bind ret
       run effects no_effects fst snd
       set_processes set_connections set_dataTransfers set_connectMode timers
       logs toasts ids_used randoms_used].

Lemma commit_nothing st e :
  set_processes e = [] -> set_connections e = [] -> set_dataTransfers e = [] ->
  set_connectMode e = [] -> commit st e = st.
Proof. unfold commit. intros -> -> -> ->. by destruct st. Qed.

Lemma send_transfer_run env st connection f randoms pre :
  (send_transfer env st connection f
     {| set_processes := []; set_connections := pre; set_dataTransfers := [];
        set_connectMode := []; timers := []; logs := []; toasts := [];
        ids_used := 0; randoms_used := randoms |}).2
  = effects
      (map_process f (holding (send_resource env connection)) (processes st)
       :: if saturated st then [p_set_state PDeadlocked <$> processes st] else [])
      (pre ++ map_connection (c_id connection) sent (connections st)
       :: if saturated st then [deadlock_mark <$> connections st] else [])
      [dataTransfers st ++ [new_transfer env 1 randoms connection Produce]]
      [timer 2000 st (ReleaseSend connection f (send_resource env connection))]
      (log_entry env 2 LInfo "Data Transfer Started"
       :: if saturated st then [log_entry env 3 LError "Deadlock Detected"] else [])
      (if saturated st then [failed "Deadlock Detected"] else [])
      (if saturated st then 4 else 3) (S randoms).
Proof.
  unfold saturated. run_handlers.
  destruct (_ && _); by rewrite <- ?app_assoc.
Qed.

Lemma sendData_path env st f t : send_path env st f t (run (sendData env st f t)).
Proof.
  unfold run, sendData.
  destruct (find_connection (connections st) f t) as [connection|] eqn:Hfind;
    [|by constructor].
  destruct (decide (c_type connection = Queue)) as [Hq|Hq].
  - case_bool_decide as Hfull.
    + by eapply send_queue_full.
    + unfold bind at 1. simpl. destruct (Qlt_le_dec _ _) as [Hr|Hr].
      * eapply send_queue_contended; [done..|lia|done].
      * unfold send_memory, guarded_region. rewrite decide_False by congruence.
        rewrite (send_transfer_run env st connection f 1 []).
        replace (effects _ _ _ _ _ _ _ _)
          with (send_success env st connection f 1).
        { eapply send_queue; [done..|lia|done]. }
        unfold send_success, guarded_region. by rewrite decide_False by congruence.
  - unfold send_memory. destruct (guarded_region connection) as [region|] eqn:Hg.
    + unfold guarded_region in Hg. case_decide; [|done].
      destruct (hasWriter (mr_semaphore region)) eqn:Hw; simpl.
      * by eapply send_memory_locked; [..|left].
      * case_bool_decide as Hr; simpl.
        -- by eapply send_memory_locked; [..|right].
        -- unfold bind at 1. simpl.
           rewrite (send_transfer_run env st connection f 0
                      [map_region (mr_id region) (sem_set_hasWriter true)
                         (connections st)]).
           replace (effects _ _ _ _ _ _ _ _)
             with (send_success env st connection f 0).
           { eapply send_memory_write; [done..|lia]. }
           unfold send_success, guarded_region. rewrite decide_True by done.
           by rewrite Hg.
    + unfold no_effects. rewrite (send_transfer_run env st connection f 0 []).
      replace (effects _ _ _ _ _ _ _ _) with (send_success env st connection f 0).
      { by eapply send_plain. }
      unfold send_success. by rewrite Hg.
Qed.

Lemma consume_transfer_run env st connection t ids pp pc :
  (consume_transfer env st connection t
     {| set_processes := pp; set_connections := pc; set_dataTransfers := [];
        set_connectMode := []; timers := []; logs := []; toasts := [];
        ids_used := ids; randoms_used := 0 |}).2
  = effects
      (pp ++ [map_process t (holding (genId env ids)) (processes st)])
      (pc ++ [map_connection (c_id connection) consumed (connections st)])
      [dataTransfers st ++ [new_transfer env (S ids) 0 connection Consume]]
      [timer 2000 st (ReleaseConsume connection t (genId env ids))]
      [log_entry env (S (S ids)) LInfo "Resource Consumption Started"]
      [] (S (S (S ids))) 1.
Proof. by run_handlers. Qed.

Lemma consumeData_path env st f t :
  consume_path env st f t (run (consumeData env st f t)).
Proof.
  unfold run, consumeData, no_effects.
  destruct (find_connection (connections st) f t) as [connection|] eqn:Hfind;
    [|by constructor].
  destruct (decide (c_type connection = Queue)) as [Hq|Hq].
  - case_bool_decide as Hempty.
    + by eapply consume_queue_empty.
    + rewrite (consume_transfer_run env st connection t 0 [] []).
      replace (effects _ _ _ _ _ _ _ _) with (consume_success env st connection t).
      { by eapply consume_queue. }
      unfold consume_success, guarded_region. by rewrite decide_False by congruence.
  - destruct (guarded_region connection) as [region|] eqn:Hg.
    + pose proof Hg as Hg'. unfold guarded_region in Hg'. case_decide; [|done].
      destruct (hasWriter (mr_semaphore region)) eqn:Hw.
      * by eapply consume_memory_locked.
      * case_bool_decide as Hr.
        -- by eapply consume_reader_limit.
        -- unfold bind at 1. cbv [setConnections set_processes set_connections
             set_dataTransfers set_connectMode timers logs toasts ids_used
             randoms_used].
           unfold bind at 1. cbv [generateId set_processes set_connections
             set_dataTransfers set_connectMode timers logs toasts ids_used
             randoms_used].
           unfold bind at 1. cbv [setProcesses set_processes set_connections
             set_dataTransfers set_connectMode timers logs toasts ids_used
             randoms_used].
           rewrite (consume_transfer_run env st connection t 1).
           replace (effects _ _ _ _ _ _ _ _)
             with (consume_success env st connection t).
           { eapply consume_memory_read; [done..|lia]. }
           unfold consume_success. by rewrite Hg.
    + rewrite (consume_transfer_run env st connection t 0 [] []).
      replace (effects _ _ _ _ _ _ _ _) with (consume_success env st connection t).
      { by eapply consume_plain. }
      unfold consume_success. by rewrite Hg.
Qed.

(** Case analysis on the path that a send or a consumption takes. *)
Ltac send_cases env st f t :=
  destruct (sendData_path env st f t) as
    [Hfind|c Hfind Hq Hfull|c Hfind Hq Hroom Hr|c Hfind Hq Hroom Hr
    |c region Hfind Hm Hreg Hbusy|c region Hfind Hm Hreg Hw Hr|c Hfind Hq Hg].

Ltac consume_cases env st f t :=
  destruct (consumeData_path env st f t) as
    [Hfind|c Hfind Hq Hempty|c Hfind Hq Hload|c region Hfind Hm Hreg Hw
    |c region Hfind Hm Hreg Hw Hr|c region Hfind Hm Hreg Hw Hr|c Hfind Hq Hg].

(** The release callbacks. *)
Lemma release_connections env st body connection processId resourceId f :
  (body = ReleaseSend connection processId resourceId /\ f = sem_set_hasWriter false) \/
  (body = ReleaseConsume connection processId resourceId /\ f = drop_reader) ->
  set_connections (run (run_timer_body env st body))
  = match guarded_region connection with
    | Some region => [map_region (mr_id region) f (connections st)]
    | None => []
    end.
Proof.
  intros [[-> ->]|[-> ->]]; unfold run_timer_body, wake_waiters;
    destruct (guarded_region connection); run_handlers;
    try case_bool_decide; done.
Qed.

Lemma release_processes env st body connection processId resourceId :
  body = ReleaseSend connection processId resourceId \/
  body = ReleaseConsume connection processId resourceId ->
  set_processes (run (run_timer_body env st body))
  = map_process processId (released resourceId) (processes st)
    :: match guarded_region connection with
       | Some region =>
           if bool_decide (0 < length (filter (blocked_on (mr_id region))
                                          (processes st)))%nat
           then [woken (mr_id region) <$> processes st] else []
       | None => []
       end.
Proof.
  intros [->| ->]; unfold run_timer_body, wake_waiters, blocked_on;
    destruct (guarded_region connection); run_handlers;
    try case_bool_decide; done.
Qed.

Lemma checkForDeadlocks_run env st :
  run (checkForDeadlocks env st)
  = if saturated st
    then effects [p_set_state PDeadlocked <$> processes st]
           [deadlock_mark <$> connections st] [] []
           [log_entry env 0 LError "Deadlock Detected"]
           [failed "Deadlock Detected"] 1 0
    else no_effects.
Proof. unfold saturated. run_handlers. by destruct (_ && _). Qed.

(** ** Failed acquisitions *)

Lemma failure_of_success st f t connection e (alarm : bool) :
  find_connection (connections st) f t = Some connection ->
  toasts e = (if alarm then [failed "Deadlock Detected"] else []) ->
  failure st f t e = None.
Proof.
  intros Hfind Ht. unfold failure. rewrite Hfind, Ht. by destruct alarm.
Qed.

Lemma commit_only_process st ps lg to tm ids randoms f pid :
  ps = map_process pid f (processes st) ->
  commit st (effects [ps] [] [] tm lg to ids randoms) = only_process st pid f.
Proof. intros ->. reflexivity. Qed.

Lemma commit_reports_only st lg to ids randoms :
  commit st (effects [] [] [] [] lg to ids randoms) = st.
Proof. by destruct st. Qed.

Lemma sendData_failure_outcome env st f t fl :
  failure st f t (run (sendData env st f t)) = Some fl ->
  failure_outcome st (commit st (run (sendData env st f t))) f
    (find_connection (connections st) f t) fl.
Proof.
  send_cases env st f t.
  - unfold failure. rewrite Hfind. intros [= <-]. by destruct st.
  - unfold failure. rewrite Hfind. intros [= <-]. apply commit_reports_only.
  - unfold failure. rewrite Hfind. discriminate.
  - erewrite failure_of_success; [discriminate|done|reflexivity].
  - unfold failure. rewrite Hfind. intros [= <-]. exists region.
    split; [by rewrite <- Hreg|]. by apply commit_only_process.
  - erewrite failure_of_success; [discriminate|done|reflexivity].
  - erewrite failure_of_success; [discriminate|done|reflexivity].
Qed.

Lemma consumeData_failure_outcome env st f t fl :
  failure st f t (run (consumeData env st f t)) = Some fl ->
  failure_outcome st (commit st (run (consumeData env st f t))) t
    (find_connection (connections st) f t) fl.
Proof.
  consume_cases env st f t.
  - unfold failure. rewrite Hfind. intros [= <-]. by destruct st.
  - unfold failure. rewrite Hfind. intros [= <-]. by apply commit_only_process.
  - unfold failure. rewrite Hfind. discriminate.
  - unfold failure. rewrite Hfind. intros [= <-]. exists region.
    split; [by rewrite <- Hreg|]. by apply commit_only_process.
  - unfold failure. rewrite Hfind. intros [= <-]. apply commit_reports_only.
  - unfold failure. rewrite Hfind. discriminate.
  - unfold failure. rewrite Hfind. discriminate.
Qed.

(** C3 (as amended).  A send or a consumption that fails with QueueFull,
    with MaxReadersReached or for lack of a connection leaves the whole
    state as it was.  One that fails with QueueEmpty or MemoryLocked
    leaves all connections and transfers as they were and changes only
    the requesting process, which becomes blocked (and, for MemoryLocked,
    waits for the region). *)
Theorem C3_failed_acquisition env st f t fl :
  (failure st f t (run (sendData env st f t)) = Some fl ->
   failure_outcome st (commit st (run (sendData env st f t))) f
     (find_connection (connections st) f t) fl) /\
  (failure st f t (run (consumeData env st f t)) = Some fl ->
   failure_outcome st (commit st (run (consumeData env st f t))) t
     (find_connection (connections st) f t) fl).
Proof.
  split; [apply sendData_failure_outcome|apply consumeData_failure_outcome].
Qed.

Lemma C3_failed_acquisition_witness :
  failure_outcome queue_demo
    (commit queue_demo (run (consumeData sample_env queue_demo "B" "C"))) "C"
    (find_connection (connections queue_demo) "B" "C") QueueEmpty.
Proof.
  apply (proj2 (C3_failed_acquisition sample_env queue_demo "B" "C" QueueEmpty)).
  reflexivity.
Defined.

(** Consuming from the empty queue of the producer-consumer demo fails
    with QueueEmpty and blocks the consumer: the state has changed. *)
Lemma C3_failure_mutates_counterexample :
  ~ failure_changes_nothing consumeData sample_env queue_demo "B" "C".
Proof.
  unfold failure_changes_nothing. intros H.
  assert (Hfail : is_Some (failure queue_demo "B" "C"
                    (run (consumeData sample_env queue_demo "B" "C"))))
    by (by exists QueueEmpty).
  apply H in Hfail. vm_compute in Hfail. discriminate Hfail.
Qed.

(** ** Queue loads *)

Lemma find_connection_elem cs f t connection :
  find_connection cs f t = Some connection -> connection ∈ cs.
Proof. intros [Hin _]%find_some. by apply list_elem_of_In. Qed.

Lemma load_ok_same c c' :
  c_type c' = c_type c -> c_capacity c' = c_capacity c ->
  c_currentLoad c' = c_currentLoad c -> load_ok c -> load_ok c'.
Proof. unfold load_ok. intros -> -> ->. done. Qed.

Lemma loads_deadlock_mark cs : Forall load_ok cs -> Forall load_ok (deadlock_mark <$> cs).
Proof.
  intros H. apply Forall_fmap. eapply Forall_impl; [exact H|].
  intros c Hc. by eapply load_ok_same.
Qed.

Lemma loads_map_region rid f cs :
  Forall load_ok cs -> Forall load_ok (map_region rid f cs).
Proof.
  intros H. apply Forall_fmap. eapply Forall_impl; [exact H|].
  intros c Hc. simpl. case_decide; [|done]. by eapply load_ok_same.
Qed.

Lemma loads_consumed id cs :
  Forall load_ok cs -> Forall load_ok (map_connection id consumed cs).
Proof.
  intros H. apply Forall_fmap. eapply Forall_impl; [exact H|].
  intros c Hc. simpl. case_decide; [|done].
  unfold load_ok, consumed in *. simpl. intros Hq. specialize (Hc Hq).
  unfold or_default in *. repeat case_match; lia.
Qed.

Lemma loads_decremented id cs :
  Forall load_ok cs ->
  Forall load_ok (map_connection id
    (fun c => c_set_currentLoad (Some (Z.max 0 (or_default (c_currentLoad c) 0 - 1))) c)
    cs).
Proof.
  intros H. apply Forall_fmap. eapply Forall_impl; [exact H|].
  intros c Hc. simpl. case_decide; [|done].
  unfold load_ok in *. simpl. intros Hq. specialize (Hc Hq).
  unfold or_default in *. repeat case_match; lia.
Qed.

Lemma unique_by_id cs c c' :
  NoDup (c_id <$> cs) -> c ∈ cs -> c' ∈ cs -> c_id c' = c_id c -> c' = c.
Proof.
  intros Hnd (i & Hi)%list_elem_of_lookup (j & Hj)%list_elem_of_lookup Hid.
  assert (i = j) as ->; [|congruence].
  eapply NoDup_lookup; [exact Hnd|..]; rewrite list_lookup_fmap.
  - by rewrite Hi.
  - rewrite Hj. simpl. by rewrite Hid.
Qed.

Lemma loads_sent cs connection :
  NoDup (c_id <$> cs) -> connection ∈ cs ->
  (c_type connection = Queue ->
   or_default (c_currentLoad connection) 0 < or_default (c_capacity connection) 10) ->
  Forall load_ok cs -> Forall load_ok (map_connection (c_id connection) sent cs).
Proof.
  intros Hnd Hin Hroom H. apply Forall_fmap, Forall_forall. intros c Hc. simpl.
  rewrite Forall_forall in H. case_decide as Hid; [|by apply H].
  assert (c = connection) as -> by by eapply unique_by_id.
  unfold load_ok, sent. simpl. intros Hq. specialize (Hroom Hq).
  specialize (H connection Hin Hq).
  unfold or_default in *. repeat case_match; lia.
Qed.

Lemma commit_connections (P : list Connection -> Prop) st e :
  P (connections st) -> Forall P (set_connections e) ->
  P (connections (commit st e)).
Proof.
  intros Hst He. simpl. destruct (last (set_connections e)) as [cs|] eqn:Hlast; [|done].
  simpl. rewrite Forall_forall in He. apply He.
  apply last_Some in Hlast as [l ->]. set_solver.
Qed.

Lemma send_success_writes env' env st connection f randoms :
  connection_writes env' (send_success env st connection f randoms)
  = match guarded_region connection with
    | Some region =>
        [map_region (mr_id region) (sem_set_hasWriter true) (connections st)]
    | None => []
    end ++
    (map_connection (c_id connection) sent (connections st)
     :: if saturated st then [deadlock_mark <$> connections st] else []) ++
    match guarded_region connection with
    | Some region =>
        [map_region (mr_id region) (sem_set_hasWriter false) (connections st)]
    | None => []
    end.
Proof.
  unfold connection_writes, send_success.
  cbn [effects set_connections timers mbind list_bind].
  unfold run_timer, timer. cbn [tm_closure tm_body].
  erewrite release_connections by (left; done).
  by rewrite app_nil_r, <- app_assoc.
Qed.

Lemma consume_success_writes env' env st connection t :
  connection_writes env' (consume_success env st connection t)
  = match guarded_region connection with
    | Some region => [map_region (mr_id region) add_reader (connections st)]
    | None => []
    end ++
    [map_connection (c_id connection) consumed (connections st)] ++
    match guarded_region connection with
    | Some region => [map_region (mr_id region) drop_reader (connections st)]
    | None => []
    end.
Proof.
  unfold connection_writes, consume_success.
  cbn [effects set_connections timers mbind list_bind].
  unfold run_timer, timer. cbn [tm_closure tm_body].
  erewrite release_connections by (right; done).
  by rewrite app_nil_r, <- app_assoc.
Qed.

Lemma loads_send_success env' env st connection f randoms :
  NoDup (c_id <$> connections st) -> Forall load_ok (connections st) ->
  connection ∈ connections st ->
  (c_type connection = Queue ->
   or_default (c_currentLoad connection) 0 < or_default (c_capacity connection) 10) ->
  Forall (Forall load_ok)
    (connection_writes env' (send_success env st connection f randoms)).
Proof.
  intros Hnd Hok Hin Hroom. rewrite send_success_writes.
  repeat apply Forall_app_2; repeat apply Forall_cons_2;
    repeat case_match; repeat apply Forall_cons_2;
    auto using Forall_nil_2, loads_map_region, loads_deadlock_mark, loads_sent.
Qed.

Lemma loads_consume_success env' env st connection t :
  Forall load_ok (connections st) ->
  Forall (Forall load_ok)
    (connection_writes env' (consume_success env st connection t)).
Proof.
  intros Hok. rewrite consume_success_writes.
  repeat apply Forall_app_2; repeat apply Forall_cons_2;
    repeat case_match; repeat apply Forall_cons_2;
    auto using Forall_nil_2, loads_map_region, loads_consumed.
Qed.

Lemma loads_tick closure st :
  Forall load_ok (connections st) -> Forall load_ok (connections (tick closure st)).
Proof.
  unfold tick. simpl.
  generalize (filter (fun t => 100 <= t_progress t) (dataTransfers st)) as done.
  intros done. revert st. generalize (connections closure) as known.
  intros known st. generalize (connections st) as cs. clear st.
  induction done as [|tr done IH]; intros cs Hcs; simpl; [done|].
  apply IH. unfold complete_transfer. case_match; [|done].
  by apply loads_decremented.
Qed.

(** C4.  In a state whose connections have distinct identifiers and whose
    queues satisfy 0 <= currentLoad <= capacity, every connection list
    that a send or a consumption writes (at once, or later through the
    release it schedules), the connection list it leaves behind, and the
    connection list after a tick of the transfer effect satisfy the same
    bounds. *)
Theorem C4_queue_load_bounds env env' st f t closure :
  NoDup (c_id <$> connections st) ->
  Forall load_ok (connections st) ->
  Forall (Forall load_ok) (connection_writes env' (run (sendData env st f t))) /\
  Forall (Forall load_ok) (connection_writes env' (run (consumeData env st f t))) /\
  Forall load_ok (connections (commit st (run (sendData env st f t)))) /\
  Forall load_ok (connections (commit st (run (consumeData env st f t)))) /\
  Forall load_ok (connections (tick closure st)).
Proof.
  intros Hnd Hok.
  assert (Hsend : Forall (Forall load_ok)
            (connection_writes env' (run (sendData env st f t)))).
  { send_cases env st f t;
      try (apply Forall_nil_2);
      apply loads_send_success; eauto using find_connection_elem; congruence. }
  assert (Hconsume : Forall (Forall load_ok)
            (connection_writes env' (run (consumeData env st f t)))).
  { consume_cases env st f t;
      try (apply Forall_nil_2); by apply loads_consume_success. }
  split_and!; [done|done| | |by apply loads_tick].
  - apply commit_connections; [done|].
    unfold connection_writes in Hsend. by apply Forall_app in Hsend as [? _].
  - apply commit_connections; [done|].
    unfold connection_writes in Hconsume. by apply Forall_app in Hconsume as [? _].
Qed.

Lemma C4_queue_load_bounds_witness :
  Forall load_ok
    (connections (commit queue_demo (run (sendData sample_env queue_demo "P" "B")))).
Proof.
  assert (Hnd : NoDup (c_id <$> connections queue_demo)).
  { apply (bool_decide_unpack _). vm_compute. exact I. }
  assert (Hok : Forall load_ok (connections queue_demo)).
  { repeat constructor; unfold load_ok; simpl; lia. }
  exact (proj1 (proj2 (proj2
           (C4_queue_load_bounds sample_env sample_env queue_demo "P" "B"
              queue_demo Hnd Hok)))).
Defined.

(** ** The reader/writer semaphore *)

Lemma regions_same cs cs' :
  c_memoryRegion <$> cs' = c_memoryRegion <$> cs -> regions_ok cs -> regions_ok cs'.
Proof.
  intros Heq [Hsem Hagree].
  assert (Hback : forall c' r, c' ∈ cs' -> c_memoryRegion c' = Some r ->
            exists c, c ∈ cs /\ c_memoryRegion c = Some r).
  { intros c' r Hin Hr.
    assert (Hr' : Some r ∈ c_memoryRegion <$> cs).
    { rewrite <- Heq, <- Hr. by apply list_elem_of_fmap_2. }
    apply list_elem_of_fmap in Hr' as (c & ? & ?). by exists c. }
  split.
  - intros c' r Hin Hr. destruct (Hback c' r Hin Hr) as (c & ? & ?). by eapply Hsem.
  - intros c1 c2 r1 r2 Hin1 Hin2 Hr1 Hr2 Hid.
    destruct (Hback c1 r1 Hin1 Hr1) as (d1 & Hd1 & Hs1).
    destruct (Hback c2 r2 Hin2 Hr2) as (d2 & Hd2 & Hs2).
    exact (Hagree d1 d2 r1 r2 Hd1 Hd2 Hs1 Hs2 Hid).
Qed.

Lemma map_connection_regions id g cs :
  (forall c, c_memoryRegion (g c) = c_memoryRegion c) ->
  c_memoryRegion <$> map_connection id g cs = c_memoryRegion <$> cs.
Proof.
  intros Hg. unfold map_connection. rewrite <- list_fmap_compose.
  apply list_fmap_ext. intros _ c _. simpl. by case_decide.
Qed.

Lemma deadlock_mark_regions (cs : list Connection) :
  c_memoryRegion <$> (deadlock_mark <$> cs) = c_memoryRegion <$> cs.
Proof. rewrite <- list_fmap_compose. by apply list_fmap_ext. Qed.

Lemma map_region_elem rid f cs c' r' :
  c' ∈ map_region rid f cs -> c_memoryRegion c' = Some r' ->
  exists c r, c ∈ cs /\ c_memoryRegion c = Some r /\ mr_id r' = mr_id r /\
    mr_semaphore r' = if decide (mr_id r = rid) then f (mr_semaphore r)
                      else mr_semaphore r.
Proof.
  intros (c & -> & Hin)%list_elem_of_fmap. simpl.
  destruct (c_memoryRegion c) as [r|] eqn:Hr; simpl.
  - destruct (decide (Some (mr_id r) = Some rid)) as [[= Hid]|Hid]; simpl.
    + rewrite Hr. intros [= <-]. exists c, r. simpl. by rewrite decide_True.
    + rewrite Hr. intros [= <-]. exists c, r.
      rewrite decide_False by congruence. done.
  - by rewrite Hr.
Qed.

Lemma regions_map_region rid f cs :
  regions_ok cs ->
  (forall c r, c ∈ cs -> c_memoryRegion c = Some r -> mr_id r = rid ->
     sem_ok (f (mr_semaphore r))) ->
  regions_ok (map_region rid f cs).
Proof.
  intros [Hsem Hagree] Hf. split.
  - intros c' r' Hin Hr.
    destruct (map_region_elem _ _ _ _ _ Hin Hr) as (c & r & ? & ? & _ & ->).
    case_decide; [by eapply Hf|by eapply Hsem].
  - intros c1 c2 r1 r2 Hin1 Hin2 Hr1 Hr2 Hid.
    destruct (map_region_elem _ _ _ _ _ Hin1 Hr1) as (d1 & s1 & ? & ? & Hid1 & ->).
    destruct (map_region_elem _ _ _ _ _ Hin2 Hr2) as (d2 & s2 & ? & ? & Hid2 & ->).
    assert (mr_id s1 = mr_id s2) as Hsame by congruence.
    rewrite (Hagree d1 d2 s1 s2) by done. rewrite Hsame.
    by destruct (decide (mr_id s2 = rid)).
Qed.

(** The semaphore changes of the four operations keep the invariant. *)
Lemma sem_ok_write s :
  sem_ok s -> hasWriter s = false -> currentReaders s <= 0 ->
  sem_ok (sem_set_hasWriter true s).
Proof. unfold sem_ok. simpl. intros (? & ? & ?) ? ?. split_and!; intros; lia. Qed.

Lemma sem_ok_unwrite s : sem_ok s -> sem_ok (sem_set_hasWriter false s).
Proof. unfold sem_ok. simpl. intros (? & ? & ?). split_and!; [done|done|lia..]. Qed.

Lemma sem_ok_add_reader s :
  sem_ok s -> hasWriter s = false -> currentReaders s < maxReaders s ->
  sem_ok (add_reader s).
Proof. unfold sem_ok. simpl. intros (? & ? & ?) ? ?. split_and!; [congruence|done|lia..]. Qed.

Lemma sem_ok_drop_reader s : sem_ok s -> sem_ok (drop_reader s).
Proof.
  unfold sem_ok. simpl. intros (Hw & Hr & ?).
  split_and!; [intros Hw'; specialize (Hw Hw')|intros; apply Hr|..]; lia.
Qed.

Lemma guarded_region_Some connection region :
  guarded_region connection = Some region ->
  c_type connection = Memory /\ c_memoryRegion connection = Some region.
Proof. unfold guarded_region. by case_decide. Qed.

Lemma regions_send_success env' env st connection f randoms :
  regions_ok (connections st) ->
  connection ∈ connections st ->
  (forall region, guarded_region connection = Some region ->
     hasWriter (mr_semaphore region) = false /\
     currentReaders (mr_semaphore region) <= 0) ->
  Forall regions_ok (connection_writes env' (send_success env st connection f randoms)).
Proof.
  intros Hok Hin Hfree. rewrite send_success_writes.
  assert (Hsent : regions_ok (map_connection (c_id connection) sent (connections st))).
  { eapply regions_same; [|exact Hok]. by apply map_connection_regions. }
  assert (Hmark : regions_ok (deadlock_mark <$> connections st)).
  { eapply regions_same; [|exact Hok]. apply deadlock_mark_regions. }
  destruct (guarded_region connection) as [region|] eqn:Hg.
  - destruct (guarded_region_Some _ _ Hg) as [_ Hreg].
    destruct (Hfree region eq_refl) as [Hw Hr]. destruct Hok as [Hsem Hagree].
    assert (regions_ok (map_region (mr_id region) (sem_set_hasWriter true)
                          (connections st))).
    { apply regions_map_region; [done|]. intros c r Hc Hcr Hid.
      rewrite (Hagree c connection r region) by done.
      apply sem_ok_write; [exact (Hsem connection region Hin Hreg)|done..]. }
    assert (regions_ok (map_region (mr_id region) (sem_set_hasWriter false)
                          (connections st))).
    { apply regions_map_region; [done|]. intros c r Hc Hcr Hid.
      apply sem_ok_unwrite. by eapply Hsem. }
    destruct (saturated st); simpl;
      repeat (apply Forall_cons_2; [done|]); apply Forall_nil_2.
  - destruct (saturated st); simpl;
      repeat (apply Forall_cons_2; [done|]); apply Forall_nil_2.
Qed.

Lemma regions_consume_success env' env st connection t :
  regions_ok (connections st) ->
  connection ∈ connections st ->
  (forall region, guarded_region connection = Some region ->
     hasWriter (mr_semaphore region) = false /\
     currentReaders (mr_semaphore region) < maxReaders (mr_semaphore region)) ->
  Forall regions_ok (connection_writes env' (consume_success env st connection t)).
Proof.
  intros Hok Hin Hfree. rewrite consume_success_writes.
  assert (Hused : regions_ok (map_connection (c_id connection) consumed
                                (connections st))).
  { eapply regions_same; [|exact Hok]. by apply map_connection_regions. }
  destruct (guarded_region connection) as [region|] eqn:Hg.
  - destruct (guarded_region_Some _ _ Hg) as [_ Hreg].
    destruct (Hfree region eq_refl) as [Hw Hr]. destruct Hok as [Hsem Hagree].
    assert (regions_ok (map_region (mr_id region) add_reader (connections st))).
    { apply regions_map_region; [done|]. intros c r Hc Hcr Hid.
      rewrite (Hagree c connection r region) by done.
      apply sem_ok_add_reader; [exact (Hsem connection region Hin Hreg)|done..]. }
    assert (regions_ok (map_region (mr_id region) drop_reader (connections st))).
    { apply regions_map_region; [done|]. intros c r Hc Hcr Hid.
      apply sem_ok_drop_reader. by eapply Hsem. }
    simpl; repeat (apply Forall_cons_2; [done|]); apply Forall_nil_2.
  - simpl; repeat (apply Forall_cons_2; [done|]); apply Forall_nil_2.
Qed.

Lemma regions_send env' env st f t :
  regions_ok (connections st) ->
  Forall regions_ok (connection_writes env' (run (sendData env st f t))).
Proof.
  intros Hok.
  send_cases env st f t;
    try (apply Forall_nil_2);
    (apply regions_send_success; [done|by eapply find_connection_elem|]);
    intros region' Hg'; destruct (guarded_region_Some _ _ Hg');
    try congruence; by simplify_eq.
Qed.

Lemma regions_consume env' env st f t :
  regions_ok (connections st) ->
  Forall regions_ok (connection_writes env' (run (consumeData env st f t))).
Proof.
  intros Hok.
  consume_cases env st f t;
    try (apply Forall_nil_2);
    (apply regions_consume_success; [done|by eapply find_connection_elem|]);
    intros region' Hg'; destruct (guarded_region_Some _ _ Hg');
    try congruence; by simplify_eq.
Qed.

Lemma writes_of_timer env' e tm :
  tm ∈ timers e ->
  set_connections (run (run_timer env' tm)) ⊆ connection_writes env' e.
Proof.
  intros Htm cs Hcs. unfold connection_writes. apply elem_of_app. right.
  apply list_elem_of_bind. by exists tm.
Qed.

(** C5.  In a state where every copy of a region's semaphore satisfies
    the reader/writer invariant (a writer excludes readers, readers
    exclude a writer, 0 <= currentReaders <= maxReaders) and the copies of
    one region agree, the same holds of every connection list that a send
    (write acquisition) or a consumption (read acquisition) writes, of the
    connection list it leaves behind, and of the connection list that each
    release it schedules writes and leaves behind. *)
Theorem C5_semaphore_invariant env env' st f t :
  regions_ok (connections st) ->
  let acquired := [run (sendData env st f t); run (consumeData env st f t)] in
  forall e, e ∈ acquired ->
    Forall regions_ok (set_connections e) /\
    regions_ok (connections (commit st e)) /\
    forall tm cur, tm ∈ timers e -> regions_ok (connections cur) ->
      Forall regions_ok (set_connections (run (run_timer env' tm))) /\
      regions_ok (connections (commit cur (run (run_timer env' tm)))).
Proof.
  intros Hok acquired e He.
  assert (Hall : Forall regions_ok (connection_writes env' e)).
  { subst acquired. set_unfold.
    destruct He as [->|[->|[]]]; [by apply regions_send|by apply regions_consume]. }
  assert (Hnow : Forall regions_ok (set_connections e)).
  { unfold connection_writes in Hall. by apply Forall_app in Hall as [? _]. }
  split_and!; [done|by apply commit_connections|].
  intros tm cur Htm Hcur.
  assert (Hlater : Forall regions_ok (set_connections (run (run_timer env' tm)))).
  { rewrite Forall_forall in Hall |- *. intros cs Hcs. apply Hall.
    by eapply writes_of_timer. }
  split; [done|by apply commit_connections].
Qed.

Lemma C5_semaphore_invariant_witness :
  Forall regions_ok
    (set_connections (run (sendData sample_env free_region_demo "P" "W"))).
Proof.
  assert (Hok : regions_ok (connections free_region_demo)).
  { split.
    - intros c r Hc Hr. simpl in Hc. apply list_elem_of_singleton in Hc as ->.
      injection Hr as <-. unfold sem_ok. simpl. split_and!; (done || lia).
    - intros c1 c2 r1 r2 Hc1 Hc2 Hr1 Hr2 _. simpl in Hc1, Hc2.
      apply list_elem_of_singleton in Hc1 as ->.
      apply list_elem_of_singleton in Hc2 as ->. congruence. }
  refine (proj1 (C5_semaphore_invariant sample_env sample_env free_region_demo
                   "P" "W" Hok _ _)).
  left.
Defined.

(** ** The saturation check *)

Lemma elem_of_busyProcesses active x :
  x ∈ busyProcesses active <->
  exists c, c ∈ active /\ (c_from c = x \/ c_to c = x).
Proof.
  unfold busyProcesses.
  assert (H : forall acc : gset string,
    x ∈ foldl (fun busy conn => {[c_to conn]} ∪ ({[c_from conn]} ∪ busy)) acc active
    <-> x ∈ acc \/ exists c, c ∈ active /\ (c_from c = x \/ c_to c = x)).
  { induction active as [|c active IH]; intros acc; simpl.
    - set_solver.
    - rewrite IH. set_unfold. naive_solver. }
  rewrite H. set_solver.
Qed.

Lemma deadlock_flagged_saturated env st :
  deadlock_flagged (run (checkForDeadlocks env st)) <-> saturated st = true.
Proof.
  rewrite checkForDeadlocks_run. unfold deadlock_flagged.
  destruct (saturated st); simpl; set_solver.
Qed.

Lemma saturated_iff st :
  well_formed st ->
  saturated st = true <->
  (exists c, c ∈ connections st /\ is_active c) /\ all_busy st /\
  (1 < length (processes st))%nat.
Proof.
  intros [Hnd Hends]. unfold saturated.
  rewrite !andb_true_iff, !bool_decide_eq_true.
  set (active := filter is_active (connections st)).
  set (ids := (list_to_set (p_id <$> processes st) : gset string)).
  assert (Hsize : size ids = length (processes st)).
  { subst ids. by rewrite size_list_to_set, length_fmap. }
  assert (Hsub : busyProcesses active ⊆ ids).
  { intros x (c & [Hact Hc]%list_elem_of_filter & Hx)%elem_of_busyProcesses.
    subst ids. rewrite elem_of_list_to_set.
    destruct (Hends c Hc), Hx as [<-|<-]; done. }
  assert (Hbusy : size (busyProcesses active) = length (processes st) <-> all_busy st).
  { split.
    - intros Heq p Hp.
      assert (busyProcesses active = ids) as Hall
        by (apply set_subseteq_size_eq; [done|lia]).
      assert (p_id p ∈ busyProcesses active) as Hin.
      { rewrite Hall. subst ids. rewrite elem_of_list_to_set.
        by apply list_elem_of_fmap_2. }
      apply elem_of_busyProcesses in Hin as (c & [? ?]%list_elem_of_filter & ?).
      by exists c.
    - intros Hall. rewrite <- Hsize. f_equal. apply (anti_symm (⊆)); [done|].
      intros x. subst ids. rewrite elem_of_list_to_set.
      intros (p & -> & Hp)%list_elem_of_fmap.
      destruct (Hall p Hp) as (c & Hc & Hact & Hx).
      apply elem_of_busyProcesses. exists c. split; [|done].
      by apply list_elem_of_filter. }
  rewrite Hbusy.
  assert (Hsome : (0 < length active)%nat <-> exists c, c ∈ connections st /\ is_active c).
  { subst active. split.
    - destruct (filter is_active (connections st)) as [|c l] eqn:Hf; simpl; [lia|].
      intros _. exists c.
      assert (c ∈ filter is_active (connections st)) as Hc by (rewrite Hf; left).
      apply list_elem_of_filter in Hc. tauto.
    - intros (c & Hc & Hact).
      assert (c ∈ filter is_active (connections st)) as Hin
        by by apply list_elem_of_filter.
      destruct (filter is_active (connections st)); simpl; [|lia].
      by apply elem_of_nil in Hin. }
  rewrite Hsome. tauto.
Qed.

Lemma saturated_sizes st :
  saturated st = true <->
  filter is_active (connections st) <> [] /\
  size (busyProcesses (filter is_active (connections st))) = length (processes st) /\
  (1 < length (processes st))%nat.
Proof.
  unfold saturated. rewrite !andb_true_iff, !bool_decide_eq_true.
  destruct (filter is_active (connections st)) as [|c l]; simpl.
  - split; [lia|]. by intros [? _].
  - split; [by intros [[_ ?] ?]|]. intros (_ & ? & ?). split_and!; [lia|done..].
Qed.

(** C8 (as amended).  [checkForDeadlocks] compares sizes: it flags a
    deadlock exactly when some connection is active, the number of
    different identifiers that are an end of an active connection is the
    number of processes, and there is more than one process.  In a state
    with distinct process identifiers whose connections join processes of
    the state, this is the case exactly when some connection is active,
    every process is an end of some active connection, and there is more
    than one process.  Whether the active connections form a cycle plays
    no part: the alarm fires on two processes joined by one active
    connection, where the cycle search finds nothing, and stays silent on
    a cycle of three processes beside a fourth idle one, where the cycle
    search finds the cycle. *)
Theorem C8_saturation_alarm env st :
  let active := filter is_active (connections st) in
  (forall x, x ∈ busyProcesses active <->
             exists c, c ∈ active /\ (c_from c = x \/ c_to c = x)) /\
  (deadlock_flagged (run (checkForDeadlocks env st)) <->
   active <> [] /\ size (busyProcesses active) = length (processes st) /\
   (1 < length (processes st))%nat) /\
  (well_formed st -> saturation_as_specified env st) /\
  (deadlock_flagged (run (checkForDeadlocks env busy_pair)) /\
   detectDeadlockCycles env (processes busy_pair) (connections busy_pair)
   = Returns []) /\
  (~ deadlock_flagged (run (checkForDeadlocks env cycle_with_bystander)) /\
   exists cyc,
     detectDeadlockCycles env (processes cycle_with_bystander)
       (connections cycle_with_bystander) = Returns [cyc]).
Proof.
  intros active. split_and!.
  - intros x. apply elem_of_busyProcesses.
  - rewrite deadlock_flagged_saturated. apply saturated_sizes.
  - intros Hwf. unfold saturation_as_specified.
    rewrite deadlock_flagged_saturated. by apply saturated_iff.
  - by apply deadlock_flagged_saturated.
  - reflexivity.
  - rewrite deadlock_flagged_saturated. by vm_compute.
  - eexists. reflexivity.
Qed.

Lemma C8_saturation_alarm_witness : saturation_as_specified sample_env busy_pair.
Proof.
  apply (C8_saturation_alarm sample_env busy_pair).
  split.
  - apply (bool_decide_unpack _). vm_compute. exact I.
  - intros c Hc. simpl in Hc. apply list_elem_of_singleton in Hc as ->.
    split; apply (bool_decide_unpack _); vm_compute; exact I.
Defined.

(** On the canvas with the pipe left over from a removed process, two
    processes remain and the pipe has two ends, one of them the removed
    process: the sizes agree and the check flags a deadlock, though the
    other remaining process is an end of no connection. *)
Lemma C8_dangling_connection_counterexample :
  ~ saturation_as_specified sample_env canvas_with_dangling_pipe.
Proof.
  intros [Hflag _].
  destruct Hflag as (_ & Hbusy & _).
  - apply deadlock_flagged_saturated. by vm_compute.
  - destruct (Hbusy (nth 0 (processes canvas_with_dangling_pipe)
                           (idle_process "")))
      as (c & Hc & _ & Hend).
    + vm_compute. left.
    + vm_compute in Hc. apply list_elem_of_singleton in Hc as ->.
      vm_compute in Hend. destruct Hend as [Hend|Hend]; discriminate Hend.
Qed.

(** ** Marking the deadlocked *)

Lemma Object_keys_plain g :
  Forall (fun k => array_index k = None) (own g).*1 -> Object_keys g = (own g).*1.
Proof.
  unfold Object_keys. generalize ((own g).*1) as ks. intros ks Hks.
  assert (index_keys ks = []) as ->.
  { induction Hks as [|k ks Hk _ IH]; [done|].
    unfold index_keys in *. simpl. by rewrite Hk. }
  simpl. induction Hks as [|k ks Hk _ IH]; [done|].
  rewrite filter_cons, decide_True by done. by rewrite IH.
Qed.

Lemma checkForDeadlocks_commit env st :
  commit st (run (checkForDeadlocks env st))
  = if saturated st
    then {| processes := p_set_state PDeadlocked <$> processes st;
            connections := deadlock_mark <$> connections st;
            dataTransfers := dataTransfers st;
            connectMode := connectMode st |}
    else st.
Proof.
  rewrite checkForDeadlocks_run. destruct (saturated st); [done|by destruct st].
Qed.

Lemma deadlockDemo_graph a b c ab bc ca :
  a <> b -> b <> c -> a <> c ->
  a <> "__proto__" -> b <> "__proto__" -> c <> "__proto__" ->
  build_graph (processes (activate_all (deadlockDemo a b c ab bc ca)))
    (filter is_active (connections (activate_all (deadlockDemo a b c ab bc ca))))
  = Returns {| own := [(a, [b]); (b, [c]); (c, [a])]; proto := None |}.
Proof.
  intros Hab Hbc Hac Ha Hb Hc. simpl.
  unfold build_graph, graph_init, graph_add_edges, graph_add_edge. simpl.
  unfold graph_set. rewrite !decide_False by done. simpl.
  unfold graph_get, graph_push. simpl.
  repeat (rewrite ?decide_True, ?decide_False by congruence; simpl).
  done.
Qed.

Lemma deadlockDemo_usable a b c ab bc ca :
  a <> "__proto__" -> b <> "__proto__" -> c <> "__proto__" ->
  usable_ids (processes (activate_all (deadlockDemo a b c ab bc ca)))
    (filter is_active (connections (activate_all (deadlockDemo a b c ab bc ca)))).
Proof.
  intros Ha Hb Hc. split; simpl; [set_solver|].
  repeat constructor; intros [_ []]; simpl; set_solver.
Qed.

Lemma deadlockDemo_saturated a b c ab bc ca :
  a <> b -> b <> c -> a <> c ->
  saturated (activate_all (deadlockDemo a b c ab bc ca)) = true.
Proof.
  intros Hab Hbc Hac. unfold saturated.
  change (filter is_active (connections (activate_all (deadlockDemo a b c ab bc ca))))
    with [active_memory ab a b; active_memory bc b c; active_memory ca c a].
  change (length (processes (activate_all (deadlockDemo a b c ab bc ca))))
    with 3%nat.
  assert (busyProcesses [active_memory ab a b; active_memory bc b c;
                         active_memory ca c a]
          = list_to_set [a; b; c]) as ->.
  { unfold busyProcesses.
    cbn [foldl c_to c_from active_memory c_set_state demo_memory]. set_solver. }
  rewrite size_list_to_set by (repeat constructor; set_solver).
  done.
Qed.

(** C2 (as amended).  [checkForDeadlocks] does not look for cycles.
    When it flags a deadlock it sets every process to deadlocked and
    every active connection to deadlocked, and leaves the other
    connections and the transfers as they are; when it does not, it
    changes nothing.  For three processes A, B, C (with identifiers that
    are neither array indices nor "__proto__") and memory connections A -> B, B -> C, C -> A, all active, the cycle
    search reports exactly one cycle, with process list [A; B; C; A], and
    the check flags a deadlock and marks the three processes
    deadlocked. *)
Theorem C2_deadlock_marking env st :
  let st' := commit st (run (checkForDeadlocks env st)) in
  (deadlock_flagged (run (checkForDeadlocks env st)) ->
   processes st' = p_set_state PDeadlocked <$> processes st /\
   connections st' = deadlock_mark <$> connections st /\
   dataTransfers st' = dataTransfers st) /\
  (~ deadlock_flagged (run (checkForDeadlocks env st)) -> st' = st) /\
  (forall a b c ab bc ca,
     a <> b -> b <> c -> a <> c ->
     array_index a = None -> array_index b = None -> array_index c = None ->
     a <> "__proto__" -> b <> "__proto__" -> c <> "__proto__" ->
     let demo := activate_all (deadlockDemo a b c ab bc ca) in
     detectDeadlockCycles env (processes demo) (connections demo)
     = Returns [reported env 0 [a; b; c; a] [ab; bc; ca]] /\
     deadlock_flagged (run (checkForDeadlocks env demo)) /\
     p_state <$> processes (commit demo (run (checkForDeadlocks env demo)))
     = [PDeadlocked; PDeadlocked; PDeadlocked]).
Proof.
  intros st'. subst st'. split_and!.
  - intros Hsat%deadlock_flagged_saturated.
    by rewrite checkForDeadlocks_commit, Hsat.
  - rewrite deadlock_flagged_saturated. intros Hsat.
    rewrite checkForDeadlocks_commit. by destruct (saturated st).
  - intros a b c ab bc ca Hab Hbc Hac Ha Hb Hc Hpa Hpb Hpc demo.
    pose proof (deadlockDemo_saturated a b c ab bc ca Hab Hbc Hac) as Hsat.
    subst demo. split_and!.
    + apply (detectDeadlockCycles_three_cycle env _ _
               a b c (active_memory ab a b) (active_memory bc b c)
               (active_memory ca c a)
               {| own := [(a, [b]); (b, [c]); (c, [a])]; proto := None |}
               [] [b; c]).
      * by apply deadlockDemo_usable.
      * by split_and!.
      * by apply deadlockDemo_graph.
      * rewrite Object_keys_plain; [done|]. by repeat constructor.
      * apply not_elem_of_nil.
      * apply not_elem_of_nil.
      * apply not_elem_of_nil.
    + by apply deadlock_flagged_saturated.
    + by rewrite checkForDeadlocks_commit, Hsat.
Qed.

Lemma C2_deadlock_marking_witness :
  let demo := activate_all (deadlockDemo "A" "B" "C" "ab" "bc" "ca") in
  detectDeadlockCycles sample_env (processes demo) (connections demo)
  = Returns [reported sample_env 0 ["A"; "B"; "C"; "A"] ["ab"; "bc"; "ca"]] /\
  deadlock_flagged (run (checkForDeadlocks sample_env demo)) /\
  p_state <$> processes (commit demo (run (checkForDeadlocks sample_env demo)))
  = [PDeadlocked; PDeadlocked; PDeadlocked].
Proof.
  apply (proj2 (proj2 (C2_deadlock_marking sample_env
                         (activate_all (deadlockDemo "A" "B" "C" "ab" "bc" "ca"))))
           "A" "B" "C" "ab" "bc" "ca"); try done;
    apply (bool_decide_unpack _); vm_compute; exact I.
Defined.

(** In a cycle A -> B -> C -> A with a fourth process D sending to A,
    the cycle search reports only [A; B; C; A], yet the check marks D
    deadlocked too. *)
Lemma C2_marks_bystander_counterexample :
  ~ marks_only_implicated sample_env cycle_with_feeder.
Proof.
  intros H.
  destruct (H [reported sample_env 0 ["A"; "B"; "C"; "A"] ["ab"; "bc"; "ca"]]
              3%nat (idle_process "D")
              (p_set_state PDeadlocked (idle_process "D")))
    as (cyc & Hcyc & Hin); [reflexivity..|discriminate|].
  apply list_elem_of_singleton in Hcyc as ->. simpl in Hin.
  set_unfold. naive_solver.
Qed.

(** ** Creating connections *)

Lemma connectionExists_iff cs f t :
  connectionExists cs f t = true <->
  exists c, c ∈ cs /\
    ((c_from c = f /\ c_to c = t) \/ (c_from c = t /\ c_to c = f /\ c_type c = Pipe)).
Proof.
  unfold connectionExists. rewrite existsb_exists. split.
  - intros (c & Hin & Hc). apply list_elem_of_In in Hin.
    apply bool_decide_eq_true in Hc. by exists c.
  - intros (c & Hin & Hc). apply list_elem_of_In in Hin. exists c.
    by rewrite bool_decide_eq_true.
Qed.

Lemma find_reusable cs :
  match List.find (fun conn => bool_decide (c_type conn = Memory) &&
                               bool_decide (is_Some (c_memoryRegion conn))) cs with
  | Some existing =>
      existing ∈ cs /\ c_type existing = Memory /\ is_Some (c_memoryRegion existing)
  | None => ~ exists c, c ∈ cs /\ c_type c = Memory /\ is_Some (c_memoryRegion c)
  end.
Proof.
  destruct (List.find _ cs) as [existing|] eqn:Hfind.
  - apply find_some in Hfind as [Hin%list_elem_of_In Hb].
    apply andb_true_iff in Hb as [?%bool_decide_eq_true ?%bool_decide_eq_true]. done.
  - intros (c & Hin%list_elem_of_In & Hm & Hr).
    apply (find_none _ _ Hfind) in Hin. apply andb_false_iff in Hin.
    rewrite !bool_decide_eq_false in Hin. tauto.
Qed.

Lemma completeConnection_ignored env st toProcessId :
  cm_active (connectMode st) = false \/
  cm_fromProcess (connectMode st) = None \/
  cm_fromProcess (connectMode st) = Some "" \/
  cm_fromProcess (connectMode st) = Some toProcessId ->
  run (completeConnection env st toProcessId) = no_effects.
Proof.
  unfold completeConnection.
  destruct (cm_fromProcess (connectMode st)) as [from|]; [|done].
  intros [->|[?|[[= ->]|[= ->]]]]; [done|done| |].
  - rewrite (bool_decide_eq_true_2 ("" = "")) by done.
    by rewrite orb_true_r.
  - rewrite (bool_decide_eq_true_2 (toProcessId = toProcessId)) by done.
    by rewrite orb_true_r.
Qed.

(** C7 (as amended).  With a connection started from a process [from]
    other than the target, [completeConnection] rejects the connection as
    a duplicate exactly when no memory region can be reused (the type is
    not memory, or no memory connection with a region exists yet) and
    some existing connection of any type joins the same directed pair or
    is a pipe in the reverse direction.  A rejection adds no connection;
    otherwise exactly one connection from [from] to the target of the
    requested type is appended; and a memory connection that finds a
    memory connection with a region is always accepted and shares that
    region. *)
Theorem C7_duplicate_connection env st from toProcessId type :
  connectMode st = connecting from type ->
  from <> "" -> from <> toProcessId ->
  let e := run (completeConnection env st toProcessId) in
  (duplicate_rejected e <->
   duplicate_in_code (connections st) from toProcessId type) /\
  (duplicate_rejected e ->
   set_connections e = [] /\ connections (commit st e) = connections st) /\
  (~ duplicate_rejected e ->
   exists new,
     set_connections e = [connections st ++ [new]] /\
     connections (commit st e) = connections st ++ [new] /\
     c_from new = from /\ c_to new = toProcessId /\ c_type new = type /\
     c_state new = CIdle) /\
  (reusable_region (connections st) type ->
   ~ duplicate_rejected e /\
   exists new existing,
     set_connections e = [connections st ++ [new]] /\
     existing ∈ connections st /\ c_type existing = Memory /\
     is_Some (c_memoryRegion existing) /\
     c_memoryRegion new = c_memoryRegion existing).
Proof.
  intros Hmode Hne1 Hne2 e. subst e.
  unfold completeConnection, duplicate_in_code, reusable_region, duplicate_rejected.
  rewrite Hmode. cbn [cm_fromProcess cm_active cm_type connecting negb orb].
  rewrite !bool_decide_eq_false_2 by done. cbn [orb].
  pose proof (find_reusable (connections st)) as Hreuse.
  pose proof (connectionExists_iff (connections st) from toProcessId) as Hexists.
  destruct (decide (type = Memory)) as [->|Hty].
  - destruct (List.find _ (connections st)) as [existing|].
    + destruct Hreuse as (Hin & Hm & Hr). run_handlers. split_and!.
      * split; [by intros ?%elem_of_nil|]. intros [Hno _]. destruct Hno.
        split; [done|]. by exists existing.
      * by intros ?%elem_of_nil.
      * intros _. eexists. by split_and!.
      * intros _. split; [by intros ?%elem_of_nil|].
        eexists _, existing. by split_and!.
    + destruct (connectionExists _ _ _) eqn:Hdup; run_handlers.
      * split_and!.
        -- split; [|intros _; set_solver]. intros _. split; [tauto|].
           by apply Hexists.
        -- intros _. by destruct st.
        -- intros Hno. destruct Hno. set_solver.
        -- tauto.
      * split_and!.
        -- split; [set_solver|]. intros [_ Hc%Hexists]. congruence.
        -- set_solver.
        -- intros _. eexists. by split_and!.
        -- tauto.
  - destruct (connectionExists _ _ _) eqn:Hdup; run_handlers.
    + split_and!.
      * split; [|intros _; set_solver]. intros _. split; [tauto|]. by apply Hexists.
      * intros _. by destruct st.
      * intros Hno. destruct Hno. set_solver.
      * tauto.
    + split_and!.
      * split; [set_solver|]. intros [_ Hc%Hexists]. congruence.
      * set_solver.
      * intros _. eexists. by split_and!.
      * tauto.
Qed.

Lemma C7_duplicate_connection_witness :
  duplicate_rejected (run (completeConnection sample_env pipe_over_queue "B")) <->
  duplicate_in_code (connections pipe_over_queue) "A" "B" Pipe.
Proof.
  apply (C7_duplicate_connection sample_env pipe_over_queue "A" "B" Pipe);
    [reflexivity|discriminate|discriminate].
Defined.

(** A pipe from A to B is rejected because a queue from A to B exists,
    although no connection of the same type joins the pair and no pipe
    runs the other way. *)
Lemma C7_other_type_rejected_counterexample :
  ~ rejects_as_specified sample_env pipe_over_queue "B".
Proof.
  intros H. destruct (H "A" Pipe eq_refl) as [Hrej _].
  destruct Hrej as [_ [(c & Hc & _ & _ & Hty)|[_ (c & Hc & _ & _ & Hty)]]].
  - vm_compute. set_solver.
  - apply list_elem_of_singleton in Hc as ->. discriminate Hty.
  - apply list_elem_of_singleton in Hc as ->. discriminate Hty.
Qed.

(** ** Memory connections without a region *)

Lemma send_regionless env st f t connection :
  find_connection (connections st) f t = Some connection ->
  c_type connection = Memory -> c_memoryRegion connection = None ->
  run (sendData env st f t) = send_success env st connection f 0.
Proof.
  intros Hthis Hmem Hnone.
  send_cases env st f t; simplify_eq; congruence.
Qed.

Lemma consume_regionless env st f t connection :
  find_connection (connections st) f t = Some connection ->
  c_type connection = Memory -> c_memoryRegion connection = None ->
  run (consumeData env st f t) = consume_success env st connection t.
Proof.
  intros Hthis Hmem Hnone.
  consume_cases env st f t; simplify_eq; congruence.
Qed.

Lemma guarded_region_regionless connection :
  c_memoryRegion connection = None -> guarded_region connection = None.
Proof. unfold guarded_region. intros ->. by case_decide. Qed.

Lemma never_blocks_map_process pid g ps :
  (forall p, p_waitingFor (g p) = p_waitingFor p /\ p_state (g p) <> PBlocked) ->
  never_blocks ps (map_process pid g ps).
Proof.
  intros Hg. unfold never_blocks, map_process.
  apply Forall2_fmap_r, Forall2_same_length_lookup.
  split; [done|]. intros i p p' Hp Hp'. simplify_eq. simpl.
  case_decide; [|done]. destruct (Hg p) as [-> ?]. done.
Qed.

Lemma never_blocks_deadlocked ps : never_blocks ps (p_set_state PDeadlocked <$> ps).
Proof.
  unfold never_blocks. apply Forall2_fmap_r, Forall2_same_length_lookup.
  split; [done|]. intros i p p' Hp Hp'. simplify_eq. by simpl.
Qed.

Lemma send_success_process_writes env' env st connection f randoms :
  guarded_region connection = None ->
  process_writes env' (send_success env st connection f randoms)
  = (map_process f (holding (send_resource env connection)) (processes st)
     :: if saturated st then [p_set_state PDeadlocked <$> processes st] else []) ++
    [map_process f (released (send_resource env connection)) (processes st)].
Proof.
  intros Hg. unfold process_writes, send_success.
  cbn [effects set_processes timers mbind list_bind].
  unfold run_timer, timer. cbn [tm_closure tm_body].
  erewrite release_processes by (left; done). rewrite Hg. by rewrite app_nil_r.
Qed.

Lemma consume_success_process_writes env' env st connection t :
  guarded_region connection = None ->
  process_writes env' (consume_success env st connection t)
  = [map_process t (holding (genId env 0)) (processes st);
     map_process t (released (genId env 0)) (processes st)].
Proof.
  intros Hg. unfold process_writes, consume_success.
  cbn [effects set_processes timers mbind list_bind].
  unfold run_timer, timer. cbn [tm_closure tm_body].
  erewrite release_processes by (right; done). rewrite Hg. by rewrite app_nil_r.
Qed.

Lemma find_fmap {A} (p : A -> bool) (h : A -> A) (l : list A) :
  (forall x, p (h x) = p x) -> List.find p (h <$> l) = h <$> List.find p l.
Proof.
  intros Hp. induction l as [|x l IH]; simpl; [done|].
  rewrite Hp. by destruct (p x).
Qed.

Lemma c_set_semaphore_regionless g c :
  c_memoryRegion c = None -> c_set_semaphore g c = c.
Proof. destruct c. simpl. by intros ->. Qed.

Lemma filter_is_active_semaphores g (cs : list Connection) :
  filter is_active (c_set_semaphore g <$> cs) = c_set_semaphore g <$> filter is_active cs.
Proof.
  induction cs as [|c cs IH]; [done|].
  rewrite fmap_cons, !filter_cons.
  destruct (decide (is_active c)) as [H|H],
    (decide (is_active (c_set_semaphore g c))) as [H'|H'];
    rewrite ?fmap_cons, ?IH; done.
Qed.

Lemma busyProcesses_semaphores g (cs : list Connection) :
  busyProcesses (c_set_semaphore g <$> cs) = busyProcesses cs.
Proof.
  unfold busyProcesses. generalize (∅ : gset string).
  induction cs as [|c cs IH]; intros acc; [done|].
  rewrite fmap_cons. cbn [foldl]. apply IH.
Qed.

Lemma saturated_semaphores g st : saturated (with_semaphores g st) = saturated st.
Proof.
  unfold saturated, with_semaphores. cbn [connections processes].
  by rewrite filter_is_active_semaphores, busyProcesses_semaphores, length_fmap.
Qed.

Lemma find_connection_semaphores g cs f t :
  find_connection (c_set_semaphore g <$> cs) f t
  = c_set_semaphore g <$> find_connection cs f t.
Proof. unfold find_connection. by apply find_fmap. Qed.

Lemma map_connection_semaphores g id h (cs : list Connection) :
  (forall c, h (c_set_semaphore g c) = c_set_semaphore g (h c)) ->
  (forall c, c_id (h c) = c_id c) ->
  map_connection id h (c_set_semaphore g <$> cs)
  = c_set_semaphore g <$> map_connection id h cs.
Proof.
  intros Hh Hid. unfold map_connection. rewrite <- !list_fmap_compose.
  apply list_fmap_ext. intros _ c _. simpl. case_decide; [by rewrite Hh|done].
Qed.

Lemma deadlock_mark_semaphores g (cs : list Connection) :
  deadlock_mark <$> (c_set_semaphore g <$> cs)
  = c_set_semaphore g <$> (deadlock_mark <$> cs).
Proof. rewrite <- !list_fmap_compose. by apply list_fmap_ext. Qed.

Lemma send_regionless_ignores env st f t connection :
  find_connection (connections st) f t = Some connection ->
  c_type connection = Memory -> c_memoryRegion connection = None ->
  ignores_semaphores st (fun s => run (sendData env s f t)).
Proof.
  intros Hfind Hm Hnone g. simpl.
  rewrite (send_regionless env st f t connection) by done.
  rewrite (send_regionless env (with_semaphores g st) f t connection); try done.
  2:{ simpl. rewrite find_connection_semaphores, Hfind. simpl.
      by rewrite c_set_semaphore_regionless. }
  unfold send_success. rewrite saturated_semaphores.
  rewrite guarded_region_regionless by done.
  cbn [effects toasts logs set_processes set_dataTransfers set_connections
       with_semaphores processes connections dataTransfers app].
  split_and!; try done.
  rewrite map_connection_semaphores by done.
  destruct (saturated st); [|done]. simpl. by rewrite deadlock_mark_semaphores.
Qed.

Lemma consume_regionless_ignores env st f t connection :
  find_connection (connections st) f t = Some connection ->
  c_type connection = Memory -> c_memoryRegion connection = None ->
  ignores_semaphores st (fun s => run (consumeData env s f t)).
Proof.
  intros Hfind Hm Hnone g. simpl.
  rewrite (consume_regionless env st f t connection) by done.
  rewrite (consume_regionless env (with_semaphores g st) f t connection); try done.
  2:{ simpl. rewrite find_connection_semaphores, Hfind. simpl.
      by rewrite c_set_semaphore_regionless. }
  unfold consume_success. rewrite guarded_region_regionless by done.
  cbn [effects toasts logs set_processes set_dataTransfers set_connections
       with_semaphores processes connections dataTransfers app].
  split_and!; try done.
  by rewrite map_connection_semaphores.
Qed.

(** C10.  When [sendData] or [consumeData] resolves the pair to a memory
    connection that carries no region, the operation goes through like
    one on a pipe: no failure is reported (neither MemoryLocked nor
    MaxReadersReached; the only toast possible is the deadlock alarm of a
    send), a transfer is started, no connection list written by the
    operation or by the release it schedules changes a memory region, no
    process list they write blocks a process or makes it wait, and the
    effects do not depend on the value of any semaphore. *)
Theorem C10_memory_without_region env env' st f t connection :
  find_connection (connections st) f t = Some connection ->
  c_type connection = Memory ->
  c_memoryRegion connection = None ->
  proceeds_like_pipe env' st f t connection Produce (run (sendData env st f t)) /\
  proceeds_like_pipe env' st f t connection Consume (run (consumeData env st f t)) /\
  ignores_semaphores st (fun s => run (sendData env s f t)) /\
  ignores_semaphores st (fun s => run (consumeData env s f t)).
Proof.
  intros Hfind Hm Hnone.
  pose proof (guarded_region_regionless connection Hnone) as Hg.
  split_and!; [| |by eapply send_regionless_ignores|by eapply consume_regionless_ignores].
  - rewrite (send_regionless env st f t connection) by done.
    unfold proceeds_like_pipe. split_and!.
    + by eapply (failure_of_success _ _ _ _ _ (saturated st)).
    + unfold send_success. cbn [effects toasts].
      destruct (saturated st); by repeat constructor.
    + eexists. by split_and!.
    + rewrite send_success_writes, Hg. simpl.
      destruct (saturated st); repeat constructor;
        auto using map_connection_regions, deadlock_mark_regions.
    + rewrite send_success_process_writes by done.
      destruct (saturated st); repeat constructor;
        auto using never_blocks_deadlocked, never_blocks_map_process.
      all: by apply never_blocks_map_process.
  - rewrite (consume_regionless env st f t connection) by done.
    unfold proceeds_like_pipe. split_and!.
    + by eapply (failure_of_success _ _ _ _ _ false).
    + by constructor.
    + unfold consume_success. rewrite Hg. eexists. by split_and!.
    + rewrite consume_success_writes, Hg. simpl. repeat constructor.
      by apply map_connection_regions.
    + rewrite consume_success_process_writes by done.
      repeat constructor; by apply never_blocks_map_process.
Qed.

Lemma C10_memory_without_region_witness :
  proceeds_like_pipe sample_env regionless_demo "A" "B" (demo_memory "ab" "A" "B")
    Produce (run (sendData sample_env regionless_demo "A" "B")).
Proof.
  apply (C10_memory_without_region sample_env sample_env regionless_demo "A" "B"
           (demo_memory "ab" "A" "B")); reflexivity.
Defined.

(** ** Sends to a bounded queue *)

(** A send to a queue of positive capacity fails with QueueFull exactly
    when the load has reached the capacity, and then changes nothing. *)
Lemma sendData_queue_full env st f t connection capacity :
  find_connection (connections st) f t = Some connection ->
  c_type connection = Queue ->
  c_capacity connection = Some capacity -> 0 < capacity ->
  (failure st f t (run (sendData env st f t)) = Some QueueFull <->
   capacity <= or_default (c_currentLoad connection) 0) /\
  (failure st f t (run (sendData env st f t)) = Some QueueFull ->
   commit st (run (sendData env st f t)) = st).
Proof.
  intros Hthis Hqueue Hcap Hpos.
  assert (Hc : or_default (c_capacity connection) 10 = capacity).
  { rewrite Hcap. simpl. destruct (Z.eqb_spec capacity 0); [lia|done]. }
  split.
  - unfold failure. rewrite Hthis.
    send_cases env st f t; simplify_eq; try congruence.
    + simpl. split; [lia|done].
    + simpl. split; [done|lia].
    + unfold send_success. cbn [effects toasts].
      destruct (saturated st); simpl; split; (done || lia).
  - intros Hfail.
    by apply sendData_failure_outcome in Hfail.
Qed.

(** C6 (the code against the claim).  In the producer-consumer demo
    with the consumer removed (producer, buffer and one queue of capacity
    5 and load 0), five sends in a row all go through, none reporting a
    failure and each starting a transfer, and yet leave the load at 3; a
    sixth send still reports no QueueFull.  Every second send finds the
    queue active and both processes busy, so that the deadlock check at
    its end writes a connection list, computed from the state before the
    send, which replaces the one with the incremented load.  The same
    happens in the full demo once both queues are active. *)
Theorem C6_send_increment_lost :
  let w := producer_and_buffer in
  c_capacity <$> connections (current w) = [Some 5] /\
  loads w = [Some 0] /\
  (send_repeatedly sample_env w "P" "B" 5).1 = [None; None; None; None; None] /\
  length (dataTransfers (current (send_repeatedly sample_env w "P" "B" 5).2)) = 5%nat /\
  loads (send_repeatedly sample_env w "P" "B" 1).2 = [Some 1] /\
  loads (send_repeatedly sample_env w "P" "B" 2).2 = [Some 1] /\
  loads (send_repeatedly sample_env w "P" "B" 5).2 = [Some 3] /\
  (send_repeatedly sample_env w "P" "B" 6).1 = [None; None; None; None; None; None] /\
  loads busy_queue_demo = [Some 1; Some 1] /\
  (send_repeatedly sample_env busy_queue_demo "P" "B" 1).1 = [None] /\
  loads (send_repeatedly sample_env busy_queue_demo "P" "B" 1).2 = [Some 1; Some 1].
Proof. vm_compute. by split_and!. Qed.

(** * Further properties of the code *)

(** ** Handlers that leave a cell alone *)

Lemma preserves_ret {A B} (field : Effects -> B) (a : A) : preserves field (ret a).
Proof. done. Qed.

Lemma preserves_bind {A A' B} (field : Effects -> B) (m : Handler A)
    (k : A -> Handler A') :
  preserves field m -> (forall a, preserves field (k a)) ->
  preserves field (bind m k).
Proof.
  intros Hm Hk e. unfold bind. specialize (Hm e).
  destruct (m e) as [a e']. simpl in *. by rewrite Hk.
Qed.

Lemma preserves_run {B} (field : Effects -> list B) (h : Handler unit) :
  preserves field h -> field (run h) = field no_effects.
Proof. intros H. apply H. Qed.

Create HintDb handlers.

#[local] Hint Resolve preserves_ret : handlers.
#[local] Hint Extern 1 (preserves _ (bind _ _)) =>
  apply preserves_bind; [|intros ?] : handlers.
#[local] Hint Extern 1 (preserves _ (setProcesses _)) => done : handlers.
#[local] Hint Extern 1 (preserves _ (setConnections _)) => done : handlers.
#[local] Hint Extern 1 (preserves _ (setDataTransfers _)) => done : handlers.
#[local] Hint Extern 1 (preserves _ (setConnectMode _)) => done : handlers.
#[local] Hint Extern 1 (preserves _ (setTimeout _ _ _)) => done : handlers.
#[local] Hint Extern 1 (preserves _ (toast _ _)) => done : handlers.
#[local] Hint Extern 1 (preserves _ (generateId _)) => done : handlers.
#[local] Hint Extern 1 (preserves _ (Math_random _)) => done : handlers.
#[local] Hint Extern 1 (preserves _ (push_log _)) => done : handlers.
#[local] Hint Extern 1 (preserves _ (logEvent _ _ _)) =>
  unfold logEvent : handlers.
#[local] Hint Extern 2 (preserves _ (match ?x with _ => _ end)) =>
  destruct x : handlers.

Ltac preserved := auto 30 with handlers.

Lemma addProcess_transfers env st position :
  preserves set_dataTransfers (addProcess env st position).
Proof. unfold addProcess. preserved. Qed.

Lemma removeProcess_transfers env st processId :
  preserves set_dataTransfers (removeProcess env st processId).
Proof. unfold removeProcess. preserved. Qed.

Lemma startConnection_transfers env st processId type :
  preserves set_dataTransfers (startConnection env st processId type).
Proof. unfold startConnection. preserved. Qed.

Lemma completeConnection_transfers env st toProcessId :
  preserves set_dataTransfers (completeConnection env st toProcessId).
Proof. unfold completeConnection. preserved. Qed.

Lemma run_timer_transfers env t :
  preserves set_dataTransfers (run_timer env t).
Proof.
  unfold run_timer, run_timer_body, release_process, wake_waiters. preserved.
Qed.

(** ** Transfers under way *)

Lemma commit_dataTransfers (P : list DataTransfer -> Prop) st e :
  P (dataTransfers st) -> Forall P (set_dataTransfers e) ->
  P (dataTransfers (commit st e)).
Proof.
  intros Hst He. simpl.
  destruct (last (set_dataTransfers e)) as [ts|] eqn:Hlast; [|done].
  simpl. rewrite Forall_forall in He. apply He.
  apply last_Some in Hlast as [l ->]. set_solver.
Qed.

Lemma commit_same_dataTransfers st (h : Handler unit) :
  preserves set_dataTransfers h ->
  dataTransfers (commit st (run h)) = dataTransfers st.
Proof. intros H. simpl. by rewrite (preserves_run _ _ H). Qed.

Lemma in_flight_new env id r connection type :
  in_flight (new_transfer env id r connection type).
Proof. unfold in_flight. simpl. lia. Qed.

Lemma sendData_in_flight env st f t :
  Forall in_flight (dataTransfers st) ->
  Forall (Forall in_flight) (set_dataTransfers (run (sendData env st f t))).
Proof.
  intros Hst.
  send_cases env st f t; simpl; repeat constructor;
    apply Forall_app; (split; [done|]); repeat constructor;
    apply in_flight_new.
Qed.

Lemma consumeData_in_flight env st f t :
  Forall in_flight (dataTransfers st) ->
  Forall (Forall in_flight) (set_dataTransfers (run (consumeData env st f t))).
Proof.
  intros Hst.
  consume_cases env st f t; simpl; repeat constructor;
    apply Forall_app; (split; [done|]); repeat constructor;
    apply in_flight_new.
Qed.

Lemma none_completed (ts : list DataTransfer) :
  Forall in_flight ts -> filter (fun t => 100 <= t_progress t) ts = [].
Proof.
  induction 1 as [|t ts [_ Ht] _ IH]; [done|].
  rewrite filter_cons. case_decide; [lia|done].
Qed.

Lemma tick_quiet closure st :
  Forall in_flight (dataTransfers st) ->
  processes (tick closure st) = processes st /\
  connections (tick closure st) = connections st /\
  connectMode (tick closure st) = connectMode st.
Proof. intros H. unfold tick. simpl. by rewrite none_completed. Qed.

Lemma advance_progressed d t :
  t_progress t + d < 100 -> advance (progressed d t) = progressed (d + 10) t.
Proof.
  intros H. unfold advance, progressed. simpl.
  case_decide; [lia|]. f_equal. lia.
Qed.

Lemma tick_advances d (ts : list DataTransfer) :
  0 <= d ->
  filter (fun t => t_progress t < 100)
    (advance <$> (progressed d <$> filter (fun t => t_progress t + d < 100) ts))
  = progressed (d + 10) <$> filter (fun t => t_progress t + (d + 10) < 100) ts.
Proof.
  intros Hd. induction ts as [|t ts IH]; [done|].
  rewrite (filter_cons _ t ts), (filter_cons _ t ts).
  destruct (decide (t_progress t + d < 100)) as [Hnow|Hnow].
  - rewrite !fmap_cons, advance_progressed, filter_cons by done. simpl.
    destruct (decide (t_progress t + (d + 10) < 100)).
    + by rewrite fmap_cons, IH.
    + apply IH.
  - rewrite decide_False by lia. apply IH.
Qed.

Lemma progressed_0 (ts : list DataTransfer) :
  Forall in_flight ts ->
  progressed 0 <$> filter (fun t => t_progress t + 0 < 100) ts = ts.
Proof.
  induction 1 as [|t ts [_ Ht] _ IH]; [done|].
  rewrite filter_cons. case_decide; [|lia]. rewrite fmap_cons, IH. f_equal.
  destruct t. unfold progressed. simpl. f_equal. lia.
Qed.

Lemma ticks_transfers n st :
  Forall in_flight (dataTransfers st) ->
  dataTransfers (ticks n st)
  = progressed (10 * Z.of_nat n)
    <$> filter (fun t => t_progress t + 10 * Z.of_nat n < 100) (dataTransfers st).
Proof.
  intros Hst. induction n as [|n IH].
  - simpl. by rewrite progressed_0.
  - unfold ticks in *. rewrite Nat.iter_succ.
    set (s := Nat.iter n _ st) in *. unfold tick at 1. cbn [dataTransfers].
    rewrite IH, tick_advances by lia.
    replace (10 * Z.of_nat (S n)) with (10 * Z.of_nat n + 10) by lia. done.
Qed.

Lemma step_in_flight env w op :
  Forall in_flight (dataTransfers (current w)) ->
  Forall in_flight (dataTransfers (current (step env w op))).
Proof.
  intros Hw. destruct op; unfold step, after; cbn [current].
  - by rewrite commit_same_dataTransfers by apply addProcess_transfers.
  - by rewrite commit_same_dataTransfers by apply removeProcess_transfers.
  - by rewrite commit_same_dataTransfers by apply startConnection_transfers.
  - by rewrite commit_same_dataTransfers by apply completeConnection_transfers.
  - apply (commit_dataTransfers (Forall in_flight)); [done|].
    by apply sendData_in_flight.
  - apply (commit_dataTransfers (Forall in_flight)); [done|].
    by apply consumeData_in_flight.
  - destruct (pending w !! n) as [t|]; [|done]. cbn [current].
    by rewrite commit_same_dataTransfers by apply run_timer_transfers.
  - change (tick (current w) (current w)) with (ticks 1 (current w)).
    rewrite (ticks_transfers 1 (current w)) by done.
    apply Forall_fmap, Forall_forall. intros t [Ht Hin]%list_elem_of_filter.
    rewrite Forall_forall in Hw. apply Hw in Hin. unfold in_flight in *.
    simpl in *. lia.
Qed.

Lemma demo_clears_transfers env st button :
  dataTransfers (played_state (play_demo env st (demo_of button))) = [].
Proof. by destruct button. Qed.

Lemma perform_in_flight env w a :
  Forall in_flight (dataTransfers (current w)) ->
  Forall in_flight (dataTransfers (current (perform env w a))).
Proof.
  intros Hw. destruct a as [op|button]; [by apply step_in_flight|].
  unfold perform. cbn [current]. rewrite demo_clears_transfers. constructor.
Qed.

(** X1.  Every transfer on a canvas is under way: it starts at progress 0, a
    tick of the transfer effect advances it by 10 and drops it before it
    shows a progress of 100. So the tick never sees a completed transfer:
    whatever was done before, it changes neither the connections (the
    decrement of the load on completion never runs) nor the processes. *)
Theorem transfers_never_complete env w actions :
  Forall in_flight (dataTransfers (current w)) ->
  let st := current (performs env w actions) in
  Forall in_flight (dataTransfers st) /\
  forall closure,
    processes (tick closure st) = processes st /\
    connections (tick closure st) = connections st /\
    connectMode (tick closure st) = connectMode st.
Proof.
  intros Hw. simpl.
  assert (Forall in_flight (dataTransfers (current (performs env w actions)))) as H.
  { unfold performs. revert w Hw.
    induction actions as [|a actions IH]; intros w Hw; [done|].
    simpl. by apply IH, perform_in_flight. }
  split; [done|]. intros closure. by apply tick_quiet.
Qed.

Lemma transfers_never_complete_witness :
  let st := current (performs sample_env empty_canvas
                       [ PlayDemo ProducerConsumerButton;
                         Operate (OpSend "id1" "id3"); Operate OpTick;
                         Operate (OpConsume "id1" "id3"); Operate OpTick ]) in
  Forall in_flight (dataTransfers st) /\
  forall closure,
    processes (tick closure st) = processes st /\
    connections (tick closure st) = connections st /\
    connectMode (tick closure st) = connectMode st.
Proof.
  apply (transfers_never_complete sample_env empty_canvas). constructor.
Defined.

(** X2.  After [n] ticks of the transfer effect the transfers left are those
    that had a progress below 100 - 10 n, each advanced by 10 n; after ten
    ticks none of them is left. *)
Theorem ticks_expire_transfers n st :
  Forall in_flight (dataTransfers st) ->
  dataTransfers (ticks n st)
  = progressed (10 * Z.of_nat n)
    <$> filter (fun t => t_progress t + 10 * Z.of_nat n < 100) (dataTransfers st) /\
  ((10 <= n)%nat -> dataTransfers (ticks n st) = []) /\
  connections (ticks n st) = connections st /\
  processes (ticks n st) = processes st.
Proof.
  intros Hst. split_and!.
  - by apply ticks_transfers.
  - intros Hn. rewrite ticks_transfers by done.
    replace (filter _ _) with (@nil DataTransfer); [done|].
    symmetry. induction Hst as [|t ts [Ht _] _ IH]; [done|].
    rewrite filter_cons. case_decide; [lia|done].
  - induction n as [|n IH]; [done|]. unfold ticks in *. rewrite Nat.iter_succ.
    set (s := Nat.iter n _ st) in *.
    destruct (tick_quiet s s) as (_ & -> & _); [|done].
    fold (ticks n st) in s. subst s. rewrite ticks_transfers by done.
    apply Forall_fmap, Forall_forall. intros t [Ht Hin]%list_elem_of_filter.
    rewrite Forall_forall in Hst. apply Hst in Hin. unfold in_flight in *.
    simpl. lia.
  - induction n as [|n IH]; [done|]. unfold ticks in *. rewrite Nat.iter_succ.
    set (s := Nat.iter n _ st) in *. by unfold tick.
Qed.

Lemma ticks_expire_transfers_witness :
  let st := commit queue_demo (run (sendData sample_env queue_demo "P" "B")) in
  Forall in_flight (dataTransfers st) /\ dataTransfers (ticks 10 st) = [].
Proof.
  intros st.
  assert (Forall in_flight (dataTransfers st)) as H
    by (by apply (bool_decide_unpack _); vm_compute).
  split; [done|].
  destruct (ticks_expire_transfers 10 st H) as (_ & Hgone & _).
  apply Hgone. lia.
Defined.

(** ** What the handlers leave of a process and of a connection *)

Lemma same_processes_map (f : Process -> Process) ps :
  (forall p, same_process p (f p)) -> same_processes ps (f <$> ps).
Proof.
  intros Hf. unfold same_processes. apply Forall2_fmap_r, Forall_Forall2_diag.
  apply Forall_forall. auto.
Qed.

Lemma same_processes_map_process pid (f : Process -> Process) ps :
  (forall p, same_process p (f p)) -> same_processes ps (map_process pid f ps).
Proof.
  intros Hf. apply same_processes_map. intros p. case_decide; [done|].
  by split_and!.
Qed.

Lemma same_wiring_map (f : Connection -> Connection) cs :
  (forall c, same_connection c (f c)) -> same_wiring cs (f <$> cs).
Proof.
  intros Hf. unfold same_wiring. apply Forall2_fmap_r, Forall_Forall2_diag.
  apply Forall_forall. auto.
Qed.

Lemma same_connection_refl c : same_connection c c.
Proof. by split_and!. Qed.

Lemma same_connection_semaphore g c :
  (forall s, maxReaders (g s) = maxReaders s) ->
  same_connection c (c_set_semaphore g c).
Proof.
  intros Hg. unfold same_connection, c_set_semaphore. simpl.
  destruct (c_memoryRegion c) as [r|]; simpl; [|by split_and!].
  split_and!; try done. unfold compose. simpl. by rewrite Hg.
Qed.

Lemma same_wiring_map_connection id (f : Connection -> Connection) cs :
  (forall c, same_connection c (f c)) -> same_wiring cs (map_connection id f cs).
Proof.
  intros Hf. apply same_wiring_map. intros c.
  case_decide; [done|apply same_connection_refl].
Qed.

Lemma same_wiring_map_region rid g cs :
  (forall s, maxReaders (g s) = maxReaders s) -> same_wiring cs (map_region rid g cs).
Proof.
  intros Hg. apply same_wiring_map. intros c.
  case_decide; [by apply same_connection_semaphore|apply same_connection_refl].
Qed.

Lemma same_wiring_deadlock_mark cs : same_wiring cs (deadlock_mark <$> cs).
Proof. apply same_wiring_map. intros c. by split_and!. Qed.

Lemma same_connection_sent c : same_connection c (sent c).
Proof. by split_and!. Qed.

Lemma same_connection_consumed c : same_connection c (consumed c).
Proof. by split_and!. Qed.

Create HintDb wiring.

#[local] Hint Resolve same_wiring_map_connection same_wiring_map_region
  same_wiring_deadlock_mark same_connection_sent same_connection_consumed
  same_processes_map same_processes_map_process : wiring.
#[local] Hint Extern 1 (same_process _ _) => by split_and! : wiring.
#[local] Hint Extern 1 (maxReaders _ = maxReaders _) => done : wiring.
#[local] Hint Extern 1 (Forall _ []) => apply Forall_nil_2 : wiring.
#[local] Hint Extern 1 (Forall _ (_ :: _)) => apply Forall_cons_2 : wiring.
#[local] Hint Extern 1 (Forall _ (_ ++ _)) => apply Forall_app_2 : wiring.
#[local] Hint Extern 2 (Forall _ (if ?b then _ else _)) => destruct b : wiring.
#[local] Hint Extern 2 (Forall _ (match ?x with _ => _ end)) => destruct x : wiring.

Lemma send_success_wiring env st connection f randoms :
  Forall (same_wiring (connections st))
    (set_connections (send_success env st connection f randoms)).
Proof. unfold send_success. simpl. auto 10 with wiring. Qed.

Lemma consume_success_wiring env st connection t :
  Forall (same_wiring (connections st))
    (set_connections (consume_success env st connection t)).
Proof. unfold consume_success. simpl. auto 10 with wiring. Qed.

Lemma sendData_wiring env st f t :
  Forall (same_wiring (connections st)) (set_connections (run (sendData env st f t))).
Proof.
  send_cases env st f t;
    first [apply send_success_wiring | simpl; auto with wiring].
Qed.

Lemma consumeData_wiring env st f t :
  Forall (same_wiring (connections st))
    (set_connections (run (consumeData env st f t))).
Proof.
  consume_cases env st f t;
    first [apply consume_success_wiring | simpl; auto with wiring].
Qed.

Lemma run_timer_wiring env t :
  Forall (same_wiring (connections (tm_closure t)))
    (set_connections (run (run_timer env t))).
Proof.
  unfold run_timer. destruct (tm_body t) as [pid|c pid rid|c pid rid].
  - apply Forall_nil_2.
  - rewrite (release_connections _ _ _ c pid rid (sem_set_hasWriter false))
      by (by left).
    auto 10 with wiring.
  - rewrite (release_connections _ _ _ c pid rid drop_reader) by (by right).
    auto 10 with wiring.
Qed.

Lemma same_wiring_refl cs : same_wiring cs cs.
Proof.
  apply Forall_Forall2_diag, Forall_forall. intros. apply same_connection_refl.
Qed.

Lemma same_wiring_trans cs1 cs2 cs3 :
  same_wiring cs1 cs2 -> same_wiring cs2 cs3 -> same_wiring cs1 cs3.
Proof.
  unfold same_wiring. intros H12. revert cs3.
  induction H12 as [|c1 c2 cs1 cs2 Hc _ IH]; intros cs3 H23;
    inversion H23 as [|? c3 ? cs3' Hc' H23']; subst; constructor; [|by apply IH].
  unfold same_connection in *. destruct Hc as (?&?&?&?&?&?&?).
  destruct Hc' as (?&?&?&?&?&?&?). split_and!; congruence.
Qed.

Lemma tick_wiring closure st : same_wiring (connections st) (connections (tick closure st)).
Proof.
  unfold tick. simpl.
  generalize (filter (fun t => 100 <= t_progress t) (dataTransfers st)) as done.
  intros done. generalize (connections st) as cs.
  induction done as [|tr done IH]; intros cs; simpl.
  - apply same_wiring_refl.
  - eapply same_wiring_trans; [|apply IH]. unfold complete_transfer. case_match.
    + apply same_wiring_map_connection. intros c'. by split_and!.
    + apply same_wiring_refl.
Qed.

Lemma send_success_processes env st connection f randoms :
  Forall (same_processes (processes st))
    (set_processes (send_success env st connection f randoms)).
Proof. unfold send_success. simpl. auto 10 with wiring. Qed.

Lemma consume_success_processes env st connection t :
  Forall (same_processes (processes st))
    (set_processes (consume_success env st connection t)).
Proof. unfold consume_success. simpl. auto 10 with wiring. Qed.

Lemma sendData_processes env st f t :
  Forall (same_processes (processes st)) (set_processes (run (sendData env st f t))).
Proof.
  send_cases env st f t;
    first [apply send_success_processes | simpl; auto with wiring].
Qed.

Lemma consumeData_processes env st f t :
  Forall (same_processes (processes st))
    (set_processes (run (consumeData env st f t))).
Proof.
  consume_cases env st f t;
    first [apply consume_success_processes | simpl; auto with wiring].
Qed.

Lemma same_process_woken regionId p : same_process p (woken regionId p).
Proof. unfold woken. case_decide; by split_and!. Qed.

#[local] Hint Resolve same_process_woken : wiring.

Lemma run_timer_processes env t :
  set_processes (run (run_timer env t)) <> [] /\
  Forall (same_processes (processes (tm_closure t)))
    (set_processes (run (run_timer env t))).
Proof.
  unfold run_timer. destruct (tm_body t) as [pid|c pid rid|c pid rid].
  - split; [done|]. simpl. auto with wiring.
  - rewrite (release_processes _ _ _ c pid rid) by (by left).
    split; [done|]. auto 10 with wiring.
  - rewrite (release_processes _ _ _ c pid rid) by (by right).
    split; [done|]. auto 10 with wiring.
Qed.

(** ** The invariants of a canvas over time *)

Lemma drawn_before_mono env n m id :
  (n <= m)%nat -> drawn_before env n id -> drawn_before env m id.
Proof. intros Hnm (k & Hk & ->). exists k. split; [lia|done]. Qed.

Lemma same_processes_ids ps ps' : same_processes ps ps' -> p_id <$> ps' = p_id <$> ps.
Proof. induction 1 as [|p p' ps ps' (Hid & _) _ IH]; [done|]. simpl. by f_equal. Qed.

Lemma same_wiring_ids cs cs' : same_wiring cs cs' -> c_id <$> cs' = c_id <$> cs.
Proof. induction 1 as [|c c' cs cs' (Hid & _) _ IH]; [done|]. simpl. by f_equal. Qed.

Lemma good_processes_mono env n m ps :
  (n <= m)%nat -> good_processes env n ps -> good_processes env m ps.
Proof.
  intros Hnm [Hnd Hids]. split; [done|].
  eapply Forall_impl; [done|]. intros id. by apply drawn_before_mono.
Qed.

Lemma good_connections_mono env n m cs :
  (n <= m)%nat -> good_connections env n cs -> good_connections env m cs.
Proof.
  intros Hnm (Hnd & Hids & Hrest). split; [done|]. split; [|done].
  eapply Forall_impl; [done|]. intros id. by apply drawn_before_mono.
Qed.

Lemma sound_state_mono env n m st :
  (n <= m)%nat -> sound_state env n st -> sound_state env m st.
Proof.
  intros Hnm [Hps Hcs].
  split; [by eapply good_processes_mono|by eapply good_connections_mono].
Qed.

Lemma good_processes_same env n ps ps' :
  same_processes ps ps' -> good_processes env n ps -> good_processes env n ps'.
Proof. intros Hsame%same_processes_ids [Hnd Hids]. split; by rewrite Hsame. Qed.

Lemma good_processes_sublist env n ps ps' :
  ps' `sublist_of` ps -> good_processes env n ps -> good_processes env n ps'.
Proof.
  intros Hsub [Hnd Hids]. assert (p_id <$> ps' `sublist_of` p_id <$> ps) as Hsub'
    by (by apply fmap_sublist).
  split; [by eapply sublist_NoDup|].
  rewrite Forall_forall in *. intros id Hid. apply Hids.
  by eapply sublist_subseteq.
Qed.

Lemma regions_ok_subseteq cs cs' : cs' ⊆ cs -> regions_ok cs -> regions_ok cs'.
Proof.
  intros Hsub [Hsem Hagree]. split.
  - intros c r Hc. apply Hsem. by apply Hsub.
  - intros c1 c2 r1 r2 H1 H2. apply Hagree; by apply Hsub.
Qed.

Lemma good_connections_sublist env n cs cs' :
  cs' `sublist_of` cs -> good_connections env n cs -> good_connections env n cs'.
Proof.
  intros Hsub (Hnd & Hids & Hload & Hreg & Hmem).
  assert (c_id <$> cs' `sublist_of` c_id <$> cs) as Hsub' by (by apply fmap_sublist).
  pose proof (sublist_subseteq _ _ Hsub) as Hin.
  pose proof (sublist_subseteq _ _ Hsub') as Hin'.
  split_and!.
  - by eapply sublist_NoDup.
  - rewrite Forall_forall in *. auto.
  - rewrite Forall_forall in *. auto.
  - by eapply regions_ok_subseteq.
  - rewrite Forall_forall in *. auto.
Qed.

Lemma same_wiring_memory cs cs' :
  same_wiring cs cs' ->
  Forall (fun c => is_Some (c_memoryRegion c) -> c_type c = Memory) cs ->
  Forall (fun c => is_Some (c_memoryRegion c) -> c_type c = Memory) cs'.
Proof.
  induction 1 as [|c c' cs cs' (_ & _ & _ & Htype & _ & Hreg & _) _ IH]; [done|].
  intros [Hc Hcs]%Forall_cons. constructor; [|by apply IH].
  intros Hsome. rewrite Htype. apply Hc.
  destruct (c_memoryRegion c), (c_memoryRegion c'); try done.
Qed.

(** A connection list written over a sound one keeps its invariants when
    it keeps the wiring, the bounds of the queues and the invariant of the
    semaphores. *)
Lemma good_connections_written env n cs cs' :
  good_connections env n cs -> same_wiring cs cs' -> Forall load_ok cs' ->
  regions_ok cs' -> good_connections env n cs'.
Proof.
  intros (Hnd & Hids & _ & _ & Hmem) Hsame Hload Hreg.
  pose proof (same_wiring_ids _ _ Hsame) as Heq.
  split_and!; [by rewrite Heq|by rewrite Heq|done|done|].
  by eapply same_wiring_memory.
Qed.

Lemma Forall_written env n cs (l : list (list Connection)) :
  good_connections env n cs ->
  Forall (same_wiring cs) l -> Forall (Forall load_ok) l -> Forall regions_ok l ->
  Forall (good_connections env n) l.
Proof.
  intros Hgood. rewrite !Forall_forall. intros H1 H2 H3 cs' Hin.
  apply (good_connections_written env n cs); auto.
Qed.

Lemma loads_sendData env' env st f t :
  NoDup (c_id <$> connections st) -> Forall load_ok (connections st) ->
  Forall (Forall load_ok) (connection_writes env' (run (sendData env st f t))).
Proof.
  intros Hnd Hok.
  send_cases env st f t;
    try (apply Forall_nil_2);
    apply loads_send_success; eauto using find_connection_elem; congruence.
Qed.

Lemma loads_consumeData env' env st f t :
  Forall load_ok (connections st) ->
  Forall (Forall load_ok) (connection_writes env' (run (consumeData env st f t))).
Proof.
  intros Hok.
  consume_cases env st f t;
    try (apply Forall_nil_2); by apply loads_consume_success.
Qed.

Lemma written_now {P : list Connection -> Prop} env' e :
  Forall P (connection_writes env' e) -> Forall P (set_connections e).
Proof. unfold connection_writes. by intros [? _]%Forall_app. Qed.

Lemma sendData_good env0 n env st f t :
  good_connections env0 n (connections st) ->
  Forall (good_connections env0 n) (set_connections (run (sendData env st f t))).
Proof.
  intros Hgood. pose proof Hgood as (Hnd & _ & Hload & Hreg & _).
  apply (Forall_written env0 n (connections st)); [done|..].
  - apply sendData_wiring.
  - by apply (written_now env), loads_sendData.
  - by apply (written_now env), regions_send.
Qed.

Lemma consumeData_good env0 n env st f t :
  good_connections env0 n (connections st) ->
  Forall (good_connections env0 n) (set_connections (run (consumeData env st f t))).
Proof.
  intros Hgood. pose proof Hgood as (Hnd & _ & Hload & Hreg & _).
  apply (Forall_written env0 n (connections st)); [done|..].
  - apply consumeData_wiring.
  - by apply (written_now env), loads_consumeData.
  - by apply (written_now env), regions_consume.
Qed.

Lemma run_timer_good env env' n t :
  good_connections env n (connections (tm_closure t)) ->
  Forall (good_connections env n) (set_connections (run (run_timer env' t))).
Proof.
  intros Hgood. pose proof Hgood as (Hnd & _ & Hload & Hreg & _).
  apply (Forall_written env n (connections (tm_closure t))); [done|..].
  - apply run_timer_wiring.
  - unfold run_timer. destruct (tm_body t) as [pid|c pid rid|c pid rid].
    + apply Forall_nil_2.
    + rewrite (release_connections _ _ _ c pid rid (sem_set_hasWriter false))
        by (by left).
      destruct (guarded_region c); [|apply Forall_nil_2].
      apply Forall_cons_2; [|apply Forall_nil_2]. by apply loads_map_region.
    + rewrite (release_connections _ _ _ c pid rid drop_reader) by (by right).
      destruct (guarded_region c); [|apply Forall_nil_2].
      apply Forall_cons_2; [|apply Forall_nil_2]. by apply loads_map_region.
  - unfold run_timer. destruct (tm_body t) as [pid|c pid rid|c pid rid].
    + apply Forall_nil_2.
    + rewrite (release_connections _ _ _ c pid rid (sem_set_hasWriter false))
        by (by left).
      destruct (guarded_region c); [|apply Forall_nil_2].
      apply Forall_cons_2; [|apply Forall_nil_2].
      apply regions_map_region; [done|]. intros c' r Hc' Hr _.
      apply sem_ok_unwrite. destruct Hreg as [Hsem _]. by eapply Hsem.
    + rewrite (release_connections _ _ _ c pid rid drop_reader) by (by right).
      destruct (guarded_region c); [|apply Forall_nil_2].
      apply Forall_cons_2; [|apply Forall_nil_2].
      apply regions_map_region; [done|]. intros c' r Hc' Hr _.
      apply sem_ok_drop_reader. destruct Hreg as [Hsem _]. by eapply Hsem.
Qed.

Lemma addProcess_run env st position :
  run (addProcess env st position)
  = effects
      [processes st ++
       [ {| p_id := genId env 0;
            p_name := String.append "Process " (pretty (S (length (processes st))));
            p_position := position; p_state := PIdle; p_resources := [];
            p_waitingFor := None; p_memoryAccess := None |} ]]
      [] [] [] [log_entry env 1 LInfo "Process Created"] [] 2 0.
Proof. reflexivity. Qed.

Lemma removeProcess_run env st processId :
  run (removeProcess env st processId)
  = effects [filter (fun p => p_id p <> processId) (processes st)]
      [filter (fun c => c_from c <> processId /\ c_to c <> processId)
              (connections st)]
      [] [] [log_entry env 0 LWarning "Process Removed"] [] 1 0.
Proof. reflexivity. Qed.

Lemma completeConnection_writes env st toProcessId :
  let e := run (completeConnection env st toProcessId) in
  (e = no_effects /\
   (cm_active (connectMode st) = false \/
    cm_fromProcess (connectMode st) = None \/
    cm_fromProcess (connectMode st) = Some "" \/
    cm_fromProcess (connectMode st) = Some toProcessId)) \/
  (set_connections e = [] /\ set_connectMode e = [idle_mode] /\
   exists from, cm_fromProcess (connectMode st) = Some from /\
                connectionExists (connections st) from toProcessId = true) \/
  exists c,
    set_connections e = [connections st ++ [c]] /\
    set_connectMode e = [idle_mode] /\
    c_id c = genId env 0 /\ c_to c = toProcessId /\
    cm_fromProcess (connectMode st) = Some (c_from c) /\
    c_from c <> toProcessId /\ c_state c = CIdle /\ load_ok c /\
    (0 < ids_used e)%nat /\
    ((exists c0, c0 ∈ connections st /\ c_type c = Memory /\
                 is_Some (c_memoryRegion c0) /\
                 c_memoryRegion c = c_memoryRegion c0) \/
     (c_memoryRegion c = None /\
      connectionExists (connections st) (c_from c) toProcessId = false) \/
     (c_type c = Memory /\
      connectionExists (connections st) (c_from c) toProcessId = false /\
      (forall c0, c0 ∈ connections st -> c_type c0 = Memory ->
                  c_memoryRegion c0 = None) /\
      exists rid, c_memoryRegion c
                  = Some {| mr_id := rid; mr_semaphore := new_region_semaphore |})).
Proof.
  unfold completeConnection.
  destruct (cm_fromProcess (connectMode st)) as [from|]; [|left; auto].
  destruct (cm_active (connectMode st)) eqn:Hactive; [|left; auto].
  case_bool_decide as Hempty; [left; subst; auto|].
  case_bool_decide as Hself; [left; subst; auto 6|]. cbn [negb orb].
  destruct (decide (cm_type (connectMode st) = Memory)) as [Hmem|Hmem].
  - destruct (List.find _ (connections st)) as [c0|] eqn:Hfind.
    + right. right. eexists. split; [reflexivity|]. simpl.
      apply find_some in Hfind as [Hin [Ht Hr]%andb_prop].
      apply bool_decide_eq_true in Hr.
      split_and!; try done; [lia|]. left. exists c0. split_and!; try done.
      by apply list_elem_of_In.
    + destruct (connectionExists (connections st) from toProcessId) eqn:Hexists;
        [right; left; eauto|].
      right. right. eexists. split; [reflexivity|]. simpl.
      split_and!; try done; [|lia|].
      { unfold load_ok. simpl. rewrite Hmem. done. }
      right. right. split_and!; [done|done| |by eexists].
      intros c0 Hc0%list_elem_of_In Htype.
      apply (find_none _ _ Hfind) in Hc0.
      rewrite bool_decide_eq_true_2 in Hc0 by done. simpl in Hc0.
      apply bool_decide_eq_false in Hc0.
      destruct (c_memoryRegion c0); [by destruct Hc0|done].
  - destruct (connectionExists (connections st) from toProcessId) eqn:Hexists;
      [right; left; eauto|].
    right. right. eexists. split; [reflexivity|]. simpl.
    split_and!; try done; [|lia|by right; left].
    unfold load_ok. simpl. intros _. case_decide; simpl; lia.
Qed.

Lemma commit_processes (P : list Process -> Prop) st e :
  P (processes st) -> Forall P (set_processes e) -> P (processes (commit st e)).
Proof.
  intros Hst He. simpl. destruct (last (set_processes e)) as [ps|] eqn:Hlast; [|done].
  simpl. rewrite Forall_forall in He. apply He.
  apply last_Some in Hlast as [l ->]. set_solver.
Qed.

Lemma fresh_id env n (ids : list string) :
  Inj (=) (=) (genId env) -> Forall (drawn_before env n) ids ->
  genId env (n + 0) ∉ ids.
Proof.
  intros Hinj Hall Hin. rewrite Forall_forall in Hall.
  destruct (Hall _ Hin) as (k & Hk & Heq). apply Hinj in Heq. lia.
Qed.

Lemma regions_ok_snoc cs c :
  regions_ok cs ->
  (forall r, c_memoryRegion c = Some r ->
     sem_ok (mr_semaphore r) /\
     forall c' r', c' ∈ cs -> c_memoryRegion c' = Some r' ->
       mr_id r' = mr_id r -> mr_semaphore r' = mr_semaphore r) ->
  regions_ok (cs ++ [c]).
Proof.
  intros [Hsem Hagree] Hc. split.
  - intros c1 r1 [H1|H1]%elem_of_app Hr1; [by eapply Hsem|].
    apply list_elem_of_singleton in H1 as ->. by apply Hc.
  - intros c1 c2 r1 r2 [H1|H1]%elem_of_app [H2|H2]%elem_of_app Hr1 Hr2 Hid.
    + exact (Hagree c1 c2 r1 r2 H1 H2 Hr1 Hr2 Hid).
    + apply list_elem_of_singleton in H2 as ->.
      destruct (Hc r2 Hr2) as [_ Hsame]. exact (Hsame c1 r1 H1 Hr1 Hid).
    + apply list_elem_of_singleton in H1 as ->.
      destruct (Hc r1 Hr1) as [_ Hsame]. symmetry.
      exact (Hsame c2 r2 H2 Hr2 (eq_sym Hid)).
    + apply list_elem_of_singleton in H1 as ->.
      apply list_elem_of_singleton in H2 as ->. congruence.
Qed.

Lemma completeConnection_good env0 n m env st toProcessId :
  good_connections env0 n (connections st) ->
  genId env 0 ∉ c_id <$> connections st ->
  ((0 < ids_used (run (completeConnection env st toProcessId)))%nat ->
   drawn_before env0 m (genId env 0)) ->
  (n <= m)%nat ->
  Forall (good_connections env0 m)
    (set_connections (run (completeConnection env st toProcessId))).
Proof.
  intros (Hnd & Hids & Hload & Hreg & Hmem) Hfresh Hdrawn Hnm.
  destruct (completeConnection_writes env st toProcessId)
    as [[-> _]|[(-> & _)|(c & -> & _ & Hid & _ & _ & _ & _ & Hc & Hused & Hregion)]];
    [apply Forall_nil_2..|].
  apply Forall_cons_2; [|apply Forall_nil_2]. split_and!.
  - rewrite fmap_app. apply NoDup_app. split_and!; [done| |apply NoDup_singleton].
    intros id Hin ->%list_elem_of_singleton. simpl in *. congruence.
  - rewrite fmap_app. apply Forall_app. split.
    + eapply Forall_impl; [done|]. intros id. by apply drawn_before_mono.
    + apply Forall_cons_2; [|apply Forall_nil_2]. rewrite Hid. auto.
  - apply Forall_app. split; [done|]. by apply Forall_cons_2.
  - apply regions_ok_snoc; [done|]. intros r Hr.
    destruct Hregion
      as [(c0 & Hc0 & _ & _ & Hcopy)|[[Hnone _]|(_ & _ & Hfree & rid & Hnew)]].
    + rewrite Hcopy in Hr. destruct Hreg as [Hsem Hagree]. split; [by eapply Hsem|].
      intros c' r' Hc' Hr' Hsame. exact (Hagree c' c0 r' r Hc' Hc0 Hr' Hr Hsame).
    + congruence.
    + rewrite Hnew in Hr. simplify_eq. split.
      * unfold sem_ok, new_region_semaphore. simpl. split_and!; (done || lia).
      * intros c' r' Hc' Hr' _. rewrite Forall_forall in Hmem.
        rewrite Hfree in Hr'; [done|done|]. apply Hmem; [done|]. by rewrite Hr'.
  - apply Forall_app. split; [done|]. apply Forall_cons_2; [|apply Forall_nil_2].
    intros Hsome.
    destruct Hregion as [(c0 & Hc0 & Ht & _ & _)|[[Hnone _]|(Ht & _)]]; try done.
    rewrite Hnone in Hsome. by destruct Hsome.
Qed.

Lemma sendData_timers env st f t :
  Forall (fun tm => tm_closure tm = st) (timers (run (sendData env st f t))).
Proof. send_cases env st f t; simpl; by repeat constructor. Qed.

Lemma consumeData_timers env st f t :
  Forall (fun tm => tm_closure tm = st) (timers (run (consumeData env st f t))).
Proof. consume_cases env st f t; simpl; by repeat constructor. Qed.

Lemma addProcess_timers env st position : preserves timers (addProcess env st position).
Proof. unfold addProcess. preserved. Qed.

Lemma removeProcess_timers env st processId :
  preserves timers (removeProcess env st processId).
Proof. unfold removeProcess. preserved. Qed.

Lemma startConnection_timers env st processId type :
  preserves timers (startConnection env st processId type).
Proof. unfold startConnection. preserved. Qed.

Lemma completeConnection_timers env st toProcessId :
  preserves timers (completeConnection env st toProcessId).
Proof. unfold completeConnection. preserved. Qed.

Lemma run_timer_timers env t : preserves timers (run_timer env t).
Proof.
  unfold run_timer, run_timer_body, release_process, wake_waiters. preserved.
Qed.

Lemma startConnection_processes env st processId type :
  preserves set_processes (startConnection env st processId type).
Proof. unfold startConnection. preserved. Qed.

Lemma startConnection_connections env st processId type :
  preserves set_connections (startConnection env st processId type).
Proof. unfold startConnection. preserved. Qed.

Lemma completeConnection_processes env st toProcessId :
  preserves set_processes (completeConnection env st toProcessId).
Proof. unfold completeConnection. preserved. Qed.

Lemma after_sound env w pending' (h : Handler unit) :
  good_processes env (ids_drawn w + ids_used (run h))
    (processes (commit (current w) (run h))) ->
  good_connections env (ids_drawn w + ids_used (run h))
    (connections (commit (current w) (run h))) ->
  Forall (fun t => sound_state env (ids_drawn w) (tm_closure t)) pending' ->
  Forall (fun t => sound_state env (ids_drawn w) (tm_closure t)) (timers (run h)) ->
  sound_world env (after w pending' h).
Proof.
  intros Hps Hcs Hpending Htimers. unfold after. split; [done|]. cbn [pending ids_drawn].
  apply Forall_app. split; (eapply Forall_impl; [done|]); intros t;
    apply sound_state_mono; lia.
Qed.

Lemma tick_regions closure st :
  c_memoryRegion <$> connections (tick closure st) = c_memoryRegion <$> connections st.
Proof.
  unfold tick. simpl.
  generalize (filter (fun t => 100 <= t_progress t) (dataTransfers st)) as done.
  intros done. generalize (connections st) as cs.
  induction done as [|tr done IH]; intros cs; simpl; [done|].
  rewrite IH. unfold complete_transfer. case_match; [|done].
  by apply map_connection_regions.
Qed.

Lemma step_sound env w op :
  Inj (=) (=) (genId env) -> sound_world env w -> sound_world env (step env w op).
Proof.
  intros Hinj [[Hps Hcs] Hpending].
  assert (forall k, good_processes env (ids_drawn w + k) (processes (current w)))
    as Hps' by (intros k; eapply good_processes_mono; [|done]; lia).
  assert (forall k, good_connections env (ids_drawn w + k) (connections (current w)))
    as Hcs' by (intros k; eapply good_connections_mono; [|done]; lia).
  destruct op as [position|processId|processId type|toProcessId|f t|f t|n|];
    unfold step.
  - apply after_sound; [| |done|by rewrite (preserves_run _ _ (addProcess_timers _ _ _))].
    + rewrite addProcess_run. simpl. destruct Hps as [Hnd Hids].
      split; rewrite fmap_app; simpl.
      * apply NoDup_app. split_and!; [done| |apply NoDup_singleton].
        intros id Hin ->%list_elem_of_singleton. by eapply fresh_id.
      * apply Forall_app. split.
        -- eapply Forall_impl; [done|]. intros id. apply drawn_before_mono. lia.
        -- apply Forall_cons_2; [|apply Forall_nil_2].
           exists (ids_drawn w + 0)%nat. split; [lia|done].
    + rewrite addProcess_run. apply Hcs'.
  - apply after_sound;
      [| |done|by rewrite (preserves_run _ _ (removeProcess_timers _ _ _))].
    + rewrite removeProcess_run. simpl.
      eapply good_processes_sublist; [apply sublist_filter|apply Hps'].
    + rewrite removeProcess_run. simpl.
      eapply good_connections_sublist; [apply sublist_filter|apply Hcs'].
  - apply after_sound;
      [| |done|by rewrite (preserves_run _ _ (startConnection_timers _ _ _ _))].
    + apply commit_processes; [apply Hps'|].
      rewrite (preserves_run _ _ (startConnection_processes _ _ _ _)).
      apply Forall_nil_2.
    + apply commit_connections; [apply Hcs'|].
      rewrite (preserves_run _ _ (startConnection_connections _ _ _ _)).
      apply Forall_nil_2.
  - apply after_sound;
      [| |done|by rewrite (preserves_run _ _ (completeConnection_timers _ _ _))].
    + apply commit_processes; [apply Hps'|].
      rewrite (preserves_run _ _ (completeConnection_processes _ _ _)).
      apply Forall_nil_2.
    + apply commit_connections; [apply Hcs'|].
      apply (completeConnection_good env (ids_drawn w)); [done| | |lia].
      * simpl. destruct Hcs as (_ & Hids & _). by eapply fresh_id.
      * intros Hused. exists (ids_drawn w + 0)%nat. split; [lia|done].
  - apply after_sound; [| |done|].
    + apply commit_processes; [apply Hps'|].
      eapply Forall_impl; [apply sendData_processes|].
      intros ps Hsame. eapply good_processes_same; [done|apply Hps'].
    + apply commit_connections; [apply Hcs'|]. apply sendData_good, Hcs'.
    + eapply Forall_impl; [apply sendData_timers|]. by intros tm ->.
  - apply after_sound; [| |done|].
    + apply commit_processes; [apply Hps'|].
      eapply Forall_impl; [apply consumeData_processes|].
      intros ps Hsame. eapply good_processes_same; [done|apply Hps'].
    + apply commit_connections; [apply Hcs'|]. apply consumeData_good, Hcs'.
    + eapply Forall_impl; [apply consumeData_timers|]. by intros tm ->.
  - destruct (pending w !! n) as [tm|] eqn:Hn; [|done].
    assert (sound_state env (ids_drawn w) (tm_closure tm)) as [Hps0 Hcs0].
    { rewrite Forall_forall in Hpending. by eapply Hpending, list_elem_of_lookup_2. }
    apply after_sound;
      [| | |by rewrite (preserves_run _ _ (run_timer_timers _ _))].
    + apply commit_processes; [apply Hps'|].
      eapply Forall_impl; [apply run_timer_processes|].
      intros ps Hsame. eapply good_processes_same; [done|].
      eapply good_processes_mono; [|done]. lia.
    + apply commit_connections; [apply Hcs'|]. apply run_timer_good.
      eapply good_connections_mono; [|done]. lia.
    + rewrite Forall_forall in *. intros tm' Hin. apply Hpending.
      by eapply sublist_subseteq; [apply sublist_delete|].
  - split; [|done]. split; [done|]. cbn [current ids_drawn].
    eapply good_connections_written; [done|apply tick_wiring|by apply loads_tick, Hcs|].
    eapply regions_same; [apply tick_regions|apply Hcs].
Qed.

Lemma empty_canvas_sound env : sound_world env empty_canvas.
Proof.
  split; [|apply Forall_nil_2]. split.
  - split; [apply NoDup_nil_2|apply Forall_nil_2].
  - split_and!; try apply Forall_nil_2; [apply NoDup_nil_2|].
    split; intros ? ? ?; set_solver.
Qed.

Lemma sample_env_fresh : Inj (=) (=) (genId sample_env).
Proof.
  intros n m H. simpl in H. injection H as H.
  by apply pretty_nat_inj.
Qed.

(** The demos. *)
Lemma play_producerConsumer env st :
  play_demo env st createProducerConsumerSimulation
  = {| played_state :=
         in_mode (connectMode st)
           (producerConsumerDemo (genId env 1) (genId env 2) (genId env 3)
              (genId env 4) (genId env 5));
       played_interval := Some {| ci_closure := st; ci_buffer := genId env 3;
                                  ci_consumer := genId env 2 |};
       played_ids := 7 |}.
Proof. reflexivity. Qed.

Lemma play_deadlockDemo env st :
  play_demo env st createDeadlockDemoSimulation
  = {| played_state :=
         in_mode (connectMode st)
           (deadlockDemo (genId env 1) (genId env 2) (genId env 3)
              (genId env 4) (genId env 5) (genId env 6));
       played_interval := None;
       played_ids := 8 |}.
Proof. reflexivity. Qed.

Lemma play_pipeDemo env st :
  play_demo env st createPipeDemoSimulation
  = {| played_state :=
         in_mode (connectMode st)
           (pipeDemo (genId env 1) (genId env 2) (genId env 3));
       played_interval := None;
       played_ids := 5 |}.
Proof. reflexivity. Qed.

Lemma fresh_ids env m (ks : list nat) :
  Inj (=) (=) (genId env) -> NoDup ks -> Forall (fun k => (k < m)%nat) ks ->
  NoDup (genId env <$> ks) /\ Forall (drawn_before env m) (genId env <$> ks).
Proof.
  intros Hinj Hnd Hks. split; [by apply (NoDup_fmap_2 _)|].
  apply Forall_fmap. eapply Forall_impl; [done|]. intros k Hk. by exists k.
Qed.

Lemma regions_ok_none cs :
  Forall (fun c => c_memoryRegion c = None) cs -> regions_ok cs.
Proof.
  rewrite Forall_forall. intros Hnone.
  split; intros c; intros; specialize (Hnone c); naive_solver.
Qed.

Ltac distinct_numbers :=
  repeat (apply NoDup_cons; split; [rewrite ?elem_of_cons, elem_of_nil; lia|]);
  apply NoDup_nil_2.

Lemma demo_sound env w button :
  Inj (=) (=) (genId env) -> sound_world env w ->
  sound_world env (perform env w (PlayDemo button)).
Proof.
  intros Hinj [_ Hpending]. unfold perform.
  set (n := ids_drawn w).
  assert (forall k, Forall (fun t => sound_state env (n + k) (tm_closure t))
                      (pending w)) as Hpending'.
  { intros k. eapply Forall_impl; [done|]. intros t. apply sound_state_mono. lia. }
  destruct button.
  - rewrite play_producerConsumer. split; [|apply Hpending'].
    cbn [current ids_drawn played_state played_ids]. split.
    + by apply (fresh_ids env (n + 7) [n + 1; n + 2; n + 3])%nat;
        [|distinct_numbers|repeat constructor; lia].
    + destruct (fresh_ids env (n + 7) [n + 4; n + 5]%nat Hinj);
        [distinct_numbers|repeat constructor; lia|].
      split_and!; [done|done| | |].
      * repeat constructor; unfold load_ok; simpl; lia.
      * apply regions_ok_none. by repeat constructor.
      * repeat constructor; by intros [].
  - rewrite play_deadlockDemo. split; [|apply Hpending'].
    cbn [current ids_drawn played_state played_ids]. split.
    + by apply (fresh_ids env (n + 8) [n + 1; n + 2; n + 3])%nat;
        [|distinct_numbers|repeat constructor; lia].
    + destruct (fresh_ids env (n + 8) [n + 4; n + 5; n + 6]%nat Hinj);
        [distinct_numbers|repeat constructor; lia|].
      split_and!; [done|done| | |].
      * repeat constructor; unfold load_ok; simpl; done.
      * apply regions_ok_none. by repeat constructor.
      * repeat constructor; by intros [].
  - rewrite play_pipeDemo. split; [|apply Hpending'].
    cbn [current ids_drawn played_state played_ids]. split.
    + by apply (fresh_ids env (n + 5) [n + 1; n + 2])%nat;
        [|distinct_numbers|repeat constructor; lia].
    + destruct (fresh_ids env (n + 5) [n + 3]%nat Hinj);
        [distinct_numbers|repeat constructor; lia|].
      split_and!; [done|done| | |].
      * repeat constructor; unfold load_ok; simpl; done.
      * apply regions_ok_none. by repeat constructor.
      * repeat constructor; by intros [].
Qed.

Lemma performs_sound env w actions :
  Inj (=) (=) (genId env) -> sound_world env w ->
  sound_world env (performs env w actions).
Proof.
  intros Hinj. unfold performs. revert w.
  induction actions as [|a actions IH]; intros w Hw; [done|].
  simpl. apply IH. destruct a; [by apply step_sound|by apply demo_sound].
Qed.

(** X3.  When [generateId] never repeats itself, the processes of a canvas
    have identifiers of their own, and so have its connections, whatever is
    done on it: additions, removals, new connections, sends and
    consumptions, timers that fire early or late, ticks of the transfer
    effect, demos. *)
Theorem canvas_identifiers_distinct env w actions :
  Inj (=) (=) (genId env) ->
  sound_world env w ->
  let st := current (performs env w actions) in
  NoDup (p_id <$> processes st) /\ NoDup (c_id <$> connections st).
Proof.
  intros Hinj Hw.
  destruct (performs_sound env w actions Hinj Hw) as [[[? _] [? _]] _].
  by split.
Qed.

Lemma canvas_identifiers_distinct_witness :
  let st := current (performs sample_env empty_canvas
                       [ Operate (OpAddProcess {| pos_x := 0; pos_y := 0 |});
                         Operate (OpAddProcess {| pos_x := 1; pos_y := 1 |});
                         Operate (OpStartConnection "id0" Queue);
                         Operate (OpCompleteConnection "id2");
                         Operate (OpSend "id0" "id2");
                         Operate (OpRemoveProcess "id2");
                         Operate (OpFire 0) ]) in
  NoDup (p_id <$> processes st) /\ NoDup (c_id <$> connections st).
Proof.
  apply (canvas_identifiers_distinct sample_env empty_canvas).
  - apply sample_env_fresh.
  - apply empty_canvas_sound.
Defined.

(** X4.  Under the same condition every queue of a canvas keeps its load
    between 0 and its capacity, whatever is done on it, stale timers
    included. *)
Theorem canvas_loads_bounded env w actions :
  Inj (=) (=) (genId env) ->
  sound_world env w ->
  Forall load_ok (connections (current (performs env w actions))).
Proof.
  intros Hinj Hw.
  by destruct (performs_sound env w actions Hinj Hw) as [[_ (_ & _ & ? & _)] _].
Qed.

Lemma canvas_loads_bounded_witness :
  Forall load_ok
    (connections (current (performs sample_env empty_canvas
       [ PlayDemo ProducerConsumerButton;
         Operate (OpSend "id1" "id3"); Operate (OpSend "id1" "id3");
         Operate (OpFire 1); Operate OpTick;
         Operate (OpConsume "id3" "id2") ]))).
Proof.
  apply (canvas_loads_bounded sample_env empty_canvas).
  - apply sample_env_fresh.
  - apply empty_canvas_sound.
Defined.

(** X5.  And every semaphore of a canvas keeps its invariant, the copies of
    a region that the connections carry agree, and only memory connections
    carry a region. *)
Theorem canvas_semaphores_sound env w actions :
  Inj (=) (=) (genId env) ->
  sound_world env w ->
  let cs := connections (current (performs env w actions)) in
  regions_ok cs /\
  Forall (fun c => is_Some (c_memoryRegion c) -> c_type c = Memory) cs.
Proof.
  intros Hinj Hw.
  by destruct (performs_sound env w actions Hinj Hw)
    as [[_ (_ & _ & _ & ? & ?)] _].
Qed.

Lemma canvas_semaphores_sound_witness :
  let cs := connections (current (performs sample_env empty_canvas
       [ Operate (OpAddProcess {| pos_x := 0; pos_y := 0 |});
         Operate (OpAddProcess {| pos_x := 1; pos_y := 1 |});
         Operate (OpStartConnection "id0" Memory);
         Operate (OpCompleteConnection "id2");
         Operate (OpSend "id0" "id2"); Operate (OpConsume "id0" "id2");
         Operate (OpFire 0) ])) in
  regions_ok cs /\
  Forall (fun c => is_Some (c_memoryRegion c) -> c_type c = Memory) cs.
Proof.
  apply (canvas_semaphores_sound sample_env empty_canvas).
  - apply sample_env_fresh.
  - apply empty_canvas_sound.
Defined.

(** X6.  A send, a consumption, the deadlock check, a timer and a tick of
    the transfer effect write process lists and connection lists that have
    the processes and connections of the render they were created in, in the
    same order: they change neither the identifier, the name or the position
    of a process, nor the identifier, the ends, the type, the capacity, the
    region or the reader limit of a connection. *)
Theorem handlers_keep_wiring env st f t tm cur :
  let acquired := [run (sendData env st f t); run (consumeData env st f t);
                   run (checkForDeadlocks env st)] in
  (forall e, e ∈ acquired ->
     Forall (same_processes (processes st)) (set_processes e) /\
     Forall (same_wiring (connections st)) (set_connections e)) /\
  Forall (same_processes (processes (tm_closure tm)))
    (set_processes (run (run_timer env tm))) /\
  Forall (same_wiring (connections (tm_closure tm)))
    (set_connections (run (run_timer env tm))) /\
  same_wiring (connections cur) (connections (tick st cur)) /\
  processes (tick st cur) = processes cur.
Proof.
  split_and!.
  - intros e He. repeat (apply elem_of_cons in He as [->|He]).
    + split; [apply sendData_processes|apply sendData_wiring].
    + split; [apply consumeData_processes|apply consumeData_wiring].
    + rewrite checkForDeadlocks_run. destruct (saturated st); simpl;
        split; auto 10 with wiring.
    + by apply elem_of_nil in He.
  - apply run_timer_processes.
  - apply run_timer_wiring.
  - apply tick_wiring.
  - done.
Qed.

(** X7.  A timer that fires puts back the processes of the render that
    registered it, each with its identifier, name and position: a process
    added since is gone and a process removed since is back. It leaves the
    connections alone, unless it releases a region of a memory connection:
    then it puts back the connections of that render as well. *)
Theorem timer_restores_its_render env w n tm :
  pending w !! n = Some tm ->
  let w' := step env w (OpFire n) in
  same_processes (processes (tm_closure tm)) (processes (current w')) /\
  match tm_body tm with
  | UnblockProcess _ => connections (current w') = connections (current w)
  | ReleaseSend connection _ _ | ReleaseConsume connection _ _ =>
      match guarded_region connection with
      | Some _ => same_wiring (connections (tm_closure tm)) (connections (current w'))
      | None => connections (current w') = connections (current w)
      end
  end /\
  dataTransfers (current w') = dataTransfers (current w) /\
  pending w' = delete n (pending w).
Proof.
  intros Hn. simpl. rewrite Hn. unfold after. cbn [current pending].
  destruct (run_timer_processes (rest_of env w) tm) as [Hsome Hsame].
  split_and!.
  - simpl. destruct (last _) as [ps|] eqn:Hlast.
    + simpl. rewrite Forall_forall in Hsame. apply Hsame.
      apply last_Some in Hlast as [l ->]. set_solver.
    + apply last_None in Hlast. done.
  - pose proof (run_timer_wiring (rest_of env w) tm) as Hwiring.
    unfold commit. cbn [connections]. unfold run_timer in *.
    destruct (tm_body tm) as [pid|c pid rid|c pid rid]; [done|..].
    + rewrite (release_connections _ _ _ c pid rid (sem_set_hasWriter false))
        in * by (by left).
      destruct (guarded_region c); [|done]. simpl.
      by apply Forall_cons in Hwiring as [? _].
    + rewrite (release_connections _ _ _ c pid rid drop_reader) in * by (by right).
      destruct (guarded_region c); [|done]. simpl.
      by apply Forall_cons in Hwiring as [? _].
  - by apply commit_same_dataTransfers, run_timer_transfers.
  - rewrite (preserves_run _ _ (run_timer_timers _ _)). apply app_nil_r.
Qed.

Lemma timer_restores_its_render_witness :
  let w := steps sample_env (on_state queue_demo)
             [OpSend "P" "B"; OpRemoveProcess "C";
              OpAddProcess {| pos_x := 0; pos_y := 0 |}] in
  same_processes (processes queue_demo)
    (processes (current (step sample_env w (OpFire 0)))).
Proof.
  intros w.
  refine (proj1 (timer_restores_its_render sample_env w 0
                   (timer 2000 queue_demo (ReleaseSend (demo_queue "q1" "P" "B")
                                             "P" "res_id0")) _)).
  reflexivity.
Defined.

(** ** Building and taking apart the canvas *)

(** X8.  [removeProcess] removes every process with the identifier and every
    connection from or to it, keeps the others in their order, and keeps the
    transfers, those of the removed connections included. If every
    connection joined two processes of the canvas before, so it does after. *)
Theorem removeProcess_leaves_no_end env st processId :
  let st' := commit st (run (removeProcess env st processId)) in
  (processId ∉ p_id <$> processes st') /\
  (forall c, c ∈ connections st' -> c_from c <> processId /\ c_to c <> processId) /\
  processes st' `sublist_of` processes st /\
  connections st' `sublist_of` connections st /\
  (forall p, p ∈ processes st -> p_id p <> processId -> p ∈ processes st') /\
  (forall c, c ∈ connections st -> c_from c <> processId -> c_to c <> processId ->
             c ∈ connections st') /\
  dataTransfers st' = dataTransfers st /\
  connectMode st' = connectMode st /\
  (connected st -> connected st').
Proof.
  rewrite removeProcess_run. simpl. split_and!; try done.
  - intros (p & Hid & [Hp _]%list_elem_of_filter)%list_elem_of_fmap. done.
  - by intros c [Hc _]%list_elem_of_filter.
  - apply sublist_filter.
  - apply sublist_filter.
  - intros p Hin Hid. by apply list_elem_of_filter.
  - intros c Hin Hf Ht. by apply list_elem_of_filter.
  - intros Hconn c [[Hf Ht] Hin]%list_elem_of_filter. simpl.
    destruct (Hconn c Hin) as
      [(p & Hp & Hpin)%list_elem_of_fmap (q & Hq & Hqin)%list_elem_of_fmap].
    split; apply list_elem_of_fmap; [exists p|exists q];
      (split; [done|]); apply list_elem_of_filter; (split; [congruence|done]).
Qed.

Lemma removeProcess_leaves_no_end_witness :
  connected queue_demo /\
  connected (commit queue_demo (run (removeProcess sample_env queue_demo "C"))).
Proof.
  assert (connected queue_demo) as H.
  { intros c Hc. simpl in Hc.
    repeat (apply elem_of_cons in Hc as [->|Hc]); [| |by apply elem_of_nil in Hc];
      simpl; split; set_solver. }
  split; [done|].
  by apply (removeProcess_leaves_no_end sample_env queue_demo "C").
Defined.

Lemma no_connection_left cs processId other :
  connectionExists
    (filter (fun c => c_from c <> processId /\ c_to c <> processId) cs)
    processId other = false.
Proof.
  apply not_true_is_false. intros (c & [[Hf Ht] _]%list_elem_of_filter & Hc)%connectionExists_iff.
  destruct Hc as [[? _]|(_ & ? & _)]; done.
Qed.

Lemma step_startConnection env w processId type :
  current (step env w (OpStartConnection processId type))
  = {| processes := processes (current w); connections := connections (current w);
       dataTransfers := dataTransfers (current w);
       connectMode := connecting processId type |}.
Proof. reflexivity. Qed.

Lemma step_removeProcess env w processId :
  current (step env w (OpRemoveProcess processId))
  = {| processes := filter (fun p => p_id p <> processId) (processes (current w));
       connections := filter (fun c => c_from c <> processId /\ c_to c <> processId)
                             (connections (current w));
       dataTransfers := dataTransfers (current w);
       connectMode := connectMode (current w) |}.
Proof. reflexivity. Qed.

Lemma step_completeConnection env w toProcessId :
  current (step env w (OpCompleteConnection toProcessId))
  = commit (current w)
      (run (completeConnection (rest_of env w) (current w) toProcessId)).
Proof. reflexivity. Qed.

(** X9.  A connection can be started at a process, the process removed, and
    the connection completed all the same: the new connection then starts at
    a process that is not on the canvas, and the canvas does not draw it. *)
Theorem connection_from_removed_process env st processId type toProcessId :
  processId <> "" ->
  processId <> toProcessId ->
  let w := steps env (on_state st)
             [ OpStartConnection processId type; OpRemoveProcess processId;
               OpCompleteConnection toProcessId ] in
  (exists c, connections (current w)
             = filter (fun c => c_from c <> processId /\ c_to c <> processId)
                      (connections st) ++ [c] /\
             c_from c = processId /\ c_to c = toProcessId) /\
  (processId ∉ p_id <$> processes (current w)) /\
  ~ connected (current w) /\
  forall d, d ∈ drawn_connections (current w) ->
            c_from (cp_connection d) <> processId.
Proof.
  intros Hempty Hself w.
  subst w. unfold steps. cbn [foldl].
  remember (step env (on_state st) (OpStartConnection processId type)) as w1 eqn:Hw1.
  remember (step env w1 (OpRemoveProcess processId)) as w2 eqn:Hw2.
  remember (step env w2 (OpCompleteConnection toProcessId)) as w eqn:Hw.
  apply (f_equal current) in Hw1, Hw2, Hw.
  rewrite step_startConnection in Hw1. rewrite step_removeProcess, Hw1 in Hw2.
  rewrite step_completeConnection in Hw. cbn [processes connections connectMode
    dataTransfers on_state current] in Hw2. clear Hw1 w1.
  set (env3 := rest_of env w2) in Hw. clearbody env3.
  assert (processes (current w2)
          = filter (fun p => p_id p <> processId) (processes st)) as Hps2
    by (by rewrite Hw2).
  assert (connections (current w2)
          = filter (fun c => c_from c <> processId /\ c_to c <> processId)
                   (connections st)) as Hcs2 by (by rewrite Hw2).
  assert (connectMode (current w2) = connecting processId type) as Hcm2
    by (by rewrite Hw2).
  clear Hw2.
  assert (processes (current w) = processes (current w2)) as Hps.
  { rewrite Hw. simpl.
    by rewrite (preserves_run _ _ (completeConnection_processes _ _ _)). }
  assert (processId ∉ p_id <$> processes (current w)) as Hgone.
  { rewrite Hps, Hps2.
    by intros (p & Hid & [Hp _]%list_elem_of_filter)%list_elem_of_fmap. }
  assert (exists c, connections (current w) = connections (current w2) ++ [c] /\
                    c_from c = processId /\ c_to c = toProcessId)
    as (c & Hcs & Hfrom & Hto).
  { rewrite Hw.
    destruct (completeConnection_writes env3 (current w2) toProcessId)
      as [[_ Hguard]|[(_ & _ & from & Hfrom & Hexists)
         |(c & Hset & _ & _ & Hto & Hfrom & _)]].
    - rewrite Hcm2 in Hguard. simpl in Hguard.
      destruct Hguard as [|[|[|]]]; congruence.
    - rewrite Hcm2 in Hfrom. simpl in Hfrom. injection Hfrom as <-.
      by rewrite Hcs2, no_connection_left in Hexists.
    - exists c. rewrite Hcm2 in Hfrom. simpl in Hfrom. injection Hfrom as Hfrom.
      unfold commit. cbn [connections]. rewrite Hset. by split_and!. }
  rewrite Hcs2 in Hcs. split_and!; [by exists c|done| |].
  - intros Hconn. destruct (Hconn c) as [Hin _].
    { rewrite Hcs. apply elem_of_app. right. by apply list_elem_of_singleton. }
    by rewrite Hfrom in Hin.
  - intros d (c' & Hin & Hd)%list_elem_of_omap.
    destruct (List.find _ (processes (current w))) as [p|] eqn:Hfind; [|done].
    destruct (List.find (fun p => bool_decide (p_id p = c_to c')) _); [|done].
    injection Hd as <-. cbn [cp_connection]. intros Heq.
    apply find_some in Hfind as [Hp%list_elem_of_In Hid%bool_decide_eq_true].
    apply Hgone, list_elem_of_fmap. exists p. split; [congruence|done].
Qed.

Lemma connection_from_removed_process_witness :
  ~ connected (current (steps sample_env (on_state queue_demo)
                          [ OpStartConnection "P" Pipe; OpRemoveProcess "P";
                            OpCompleteConnection "C" ])).
Proof.
  by apply (connection_from_removed_process sample_env queue_demo "P" Pipe "C").
Defined.

(** ** Sends that find no connection *)

Lemma find_connection_None cs f t :
  find_connection cs f t = None <->
  forall c, c ∈ cs ->
    ~ (c_from c = f /\ c_to c = t) /\
    ~ (c_type c = Pipe /\ c_from c = t /\ c_to c = f).
Proof.
  unfold find_connection. split.
  - intros Hnone c Hc%list_elem_of_In. apply (find_none _ _ Hnone) in Hc.
    apply bool_decide_eq_false in Hc. tauto.
  - intros Hall. destruct (List.find _ cs) as [c|] eqn:Hfind; [|done].
    apply find_some in Hfind as [Hc%list_elem_of_In Hb%bool_decide_eq_true].
    destruct (Hall c Hc). tauto.
Qed.

Lemma sendData_silent env st f t :
  run (sendData env st f t) = no_effects <->
  find_connection (connections st) f t = None.
Proof.
  split.
  - intros Hrun.
    assert (ids_used (run (sendData env st f t)) = 0%nat /\
            randoms_used (run (sendData env st f t)) = 0%nat) as [Hids Hrandoms]
      by (by rewrite Hrun).
    clear Hrun. revert Hids Hrandoms.
    send_cases env st f t; try done; try (simpl; discriminate).
  - intros Hnone. unfold sendData. by rewrite Hnone.
Qed.

Lemma consumeData_silent env st f t :
  run (consumeData env st f t) = no_effects <->
  find_connection (connections st) f t = None.
Proof.
  split.
  - intros Hrun.
    assert (ids_used (run (consumeData env st f t)) = 0%nat) as Hids
      by (by rewrite Hrun).
    clear Hrun. revert Hids.
    consume_cases env st f t; try done; try (simpl; discriminate);
      unfold consume_success; simpl; by destruct (guarded_region c).
  - intros Hnone. unfold consumeData. by rewrite Hnone.
Qed.

(** X10.  A send or a consumption between two processes does nothing at all
    (no state change, no log entry, no toast) exactly when no connection
    leads from the first to the second and no pipe from the second to the
    first: a pipe serves both directions, a queue and a memory connection
    only their own. *)
Theorem unconnected_acquisition_is_silent env st f t :
  let unconnected :=
    forall c, c ∈ connections st ->
      ~ (c_from c = f /\ c_to c = t) /\
      ~ (c_type c = Pipe /\ c_from c = t /\ c_to c = f) in
  (run (sendData env st f t) = no_effects <-> unconnected) /\
  (run (consumeData env st f t) = no_effects <-> unconnected).
Proof.
  simpl. rewrite sendData_silent, consumeData_silent, find_connection_None. done.
Qed.

(** X11.  The menu of a process offers a send for every connection that ends
    at the process, as well as for those that start there; the count shown
    on the node is that of all of them. The offer for a connection that ends
    at the process, when nothing leads back, does nothing when it is chosen. *)
Theorem menu_offers_dead_sends env st process c :
  c ∈ connections st ->
  c_to c = p_id process ->
  c_from c <> p_id process ->
  find_connection (connections st) (p_id process) (c_from c) = None ->
  length (connectionOptions st process)
  = length (filter (fun c => c_from c = p_id process \/ c_to c = p_id process)
                   (connections st)) /\
  exists option,
    option ∈ connectionOptions st process /\
    co_processId option = c_from c /\ co_type option = c_type c /\
    run (onSendData env st process option) = no_effects.
Proof.
  intros Hin Hto Hfrom Hnone. split.
  - unfold connectionOptions. by rewrite length_fmap.
  - eexists. split_and!.
    + unfold connectionOptions. apply list_elem_of_fmap. exists c.
      split; [reflexivity|]. apply list_elem_of_filter. auto.
    + simpl. by rewrite decide_False.
    + done.
    + unfold onSendData. simpl. rewrite decide_False by done.
      by apply sendData_silent.
Qed.

Lemma menu_offers_dead_sends_witness :
  exists option,
    option ∈ connectionOptions queue_demo (demo_process "B" "Buffer" 350 350) /\
    co_processId option = "P" /\ co_type option = Queue /\
    run (onSendData sample_env queue_demo (demo_process "B" "Buffer" 350 350) option)
    = no_effects.
Proof.
  refine (proj2 (menu_offers_dead_sends sample_env queue_demo
                   (demo_process "B" "Buffer" 350 350) (demo_queue "q1" "P" "B")
                   _ _ _ _)).
  - simpl. apply elem_of_cons. by left.
  - done.
  - done.
  - reflexivity.
Defined.

(** ** Clicks on the canvas and on a node *)

Lemma state_eta st :
  {| processes := processes st; connections := connections st;
     dataTransfers := dataTransfers st; connectMode := connectMode st |} = st.
Proof. by destruct st. Qed.



(** X13.  A click on a node while a connection from another process is being
    made always ends the making: either the one connection asked for is
    added at the end of the list, idle, or nothing is added. No process and
    no transfer changes. A click on the process that the connection starts
    from changes nothing and leaves the connection in the making. *)
Theorem node_click_ends_connecting env st process from type :
  connectMode st = connecting from type ->
  from <> "" ->
  let st' := commit st (run (handleNodeClick env st process)) in
  (p_id process = from -> st' = st) /\
  (p_id process <> from ->
   connectMode st' = idle_mode /\
   processes st' = processes st /\
   dataTransfers st' = dataTransfers st /\
   (connections st' = connections st \/
    exists c, connections st' = connections st ++ [c] /\
              c_id c = genId env 0 /\ c_from c = from /\
              c_to c = p_id process /\ c_state c = CIdle)).
Proof.
  intros Hmode Hempty. simpl. unfold handleNodeClick. rewrite Hmode. cbn [cm_active
    cm_fromProcess connecting andb]. split.
  - intros ->. rewrite bool_decide_eq_true_2 by done. simpl.
    apply state_eta.
  - intros Hother. rewrite bool_decide_eq_false_2 by congruence. cbn [negb].
    rewrite (preserves_run _ _ (completeConnection_processes _ _ _)).
    rewrite (preserves_run _ _ (completeConnection_transfers _ _ _)).
    destruct (completeConnection_writes env st (p_id process))
      as [[_ Hguard]|[(Hcs & Hcm & _)
         |(c & Hcs & Hcm & Hid & Hto & Hfrom & _ & Hidle & _)]].
    + rewrite Hmode in Hguard. simpl in Hguard.
      destruct Hguard as [|[|[|]]]; congruence.
    + rewrite Hcs, Hcm. simpl. auto.
    + rewrite Hcs, Hcm. simpl. split_and!; try done. right. exists c.
      rewrite Hmode in Hfrom. simpl in Hfrom. split_and!; congruence.
Qed.

Lemma node_click_ends_connecting_witness :
  connectMode (commit pipe_over_queue
                 (run (handleNodeClick sample_env pipe_over_queue (idle_process "B"))))
  = idle_mode.
Proof.
  by refine (proj1 (proj2 (node_click_ends_connecting sample_env pipe_over_queue
                             (idle_process "B") "A" Pipe _ _) _)).
Defined.

(** ** The demos *)

(** X14.  A demo replaces the processes and the connections of the canvas by
    its own (three processes and two queues of capacity 5, three processes
    and a ring of three memory connections without a region, or two
    processes and a pipe), all idle and joined to processes of the demo, and
    drops the transfers; it keeps the connect mode. Only the
    producer-consumer demo starts an interval, which keeps the state of the
    render in which the button was clicked. *)
Theorem demos_replace_canvas env st button :
  let played := play_demo env st (demo_of button) in
  played_state played
  = in_mode (connectMode st)
      match button with
      | ProducerConsumerButton =>
          producerConsumerDemo (genId env 1) (genId env 2) (genId env 3)
            (genId env 4) (genId env 5)
      | DeadlockButton =>
          deadlockDemo (genId env 1) (genId env 2) (genId env 3)
            (genId env 4) (genId env 5) (genId env 6)
      | PipeButton => pipeDemo (genId env 1) (genId env 2) (genId env 3)
      end /\
  played_interval played
  = match button with
    | ProducerConsumerButton =>
        Some {| ci_closure := st; ci_buffer := genId env 3;
                ci_consumer := genId env 2 |}
    | _ => None
    end /\
  connected (played_state played) /\
  Forall (fun c => c_state c = CIdle /\ c_currentLoad c = Some 0 /\
                   c_memoryRegion c = None)
         (connections (played_state played)).
Proof.
  assert (forall demo : State,
            Forall (fun c => c_from c ∈ p_id <$> processes demo /\
                             c_to c ∈ p_id <$> processes demo) (connections demo) ->
            connected (in_mode (connectMode st) demo)) as Hconnected.
  { intros demo Hall c Hc. rewrite Forall_forall in Hall. by apply Hall. }
  destruct button; cbn [demo_of].
  - rewrite play_producerConsumer. cbn [played_state played_interval].
    split_and!; [done|done| |by repeat constructor].
    apply Hconnected. repeat constructor; simpl; rewrite !elem_of_cons; auto.
  - rewrite play_deadlockDemo. cbn [played_state played_interval].
    split_and!; [done|done| |by repeat constructor].
    apply Hconnected. repeat constructor; simpl; rewrite !elem_of_cons; auto.
  - rewrite play_pipeDemo. cbn [played_state played_interval].
    split_and!; [done|done| |by repeat constructor].
    apply Hconnected. repeat constructor; simpl; rewrite !elem_of_cons; auto.
Qed.

(** X15.  The automatic consumer of the producer-consumer demo looks for the
    queue from the buffer to the consumer among the connections of the
    render in which the button was clicked, where the buffer of the demo did
    not exist yet: if no connection there starts at an identifier equal to
    that of the new buffer, a run of the interval does nothing, whatever the
    load of the queue of the demo. *)
Theorem demo_consumer_never_consumes env env' st :
  (forall c, c ∈ connections st -> c_from c <> genId env 3) ->
  exists interval,
    played_interval (play_demo env st createProducerConsumerSimulation)
    = Some interval /\
    ci_closure interval = st /\
    run (consumeInterval env' interval) = no_effects.
Proof.
  intros Hfresh. rewrite play_producerConsumer. eexists. split; [reflexivity|].
  split; [done|]. unfold consumeInterval. simpl.
  destruct (List.find _ (connections st)) as [c|] eqn:Hfind; [|done].
  apply find_some in Hfind as [Hc%list_elem_of_In [Hb _]%bool_decide_eq_true].
  by apply Hfresh in Hc.
Qed.

Lemma demo_consumer_never_consumes_witness :
  exists interval,
    played_interval (play_demo sample_env queue_demo createProducerConsumerSimulation)
    = Some interval /\
    ci_closure interval = queue_demo /\
    run (consumeInterval sample_env interval) = no_effects.
Proof.
  apply (demo_consumer_never_consumes sample_env sample_env queue_demo).
  intros c Hc. simpl in Hc.
  repeat (apply elem_of_cons in Hc as [->|Hc]); try (by apply elem_of_nil in Hc);
    done.
Defined.

(** ** Reporting a cycle *)

Lemma elem_of_distinct {A} `{EqDecision A} (seen l : list A) x :
  x ∈ distinct seen l <-> x ∈ l /\ x ∉ seen.
Proof.
  revert seen. induction l as [|y l IH]; intros seen; simpl.
  - split; [by intros ?%elem_of_nil|by intros [?%elem_of_nil _]].
  - destruct (decide (y ∈ seen)) as [Hy|Hy].
    + rewrite IH, elem_of_cons. split; [tauto|].
      intros [[->|?] ?]; [done|tauto].
    + rewrite !elem_of_cons, IH, elem_of_cons. split.
      * intros [->|[? ?]]; [tauto|]. split; [tauto|]. tauto.
      * intros [[->|?] ?]; [tauto|]. destruct (decide (x = y)); [tauto|]. tauto.
Qed.

Lemma distinct_NoDup {A} `{EqDecision A} (seen l : list A) :
  NoDup (distinct seen l).
Proof.
  revert seen. induction l as [|y l IH]; intros seen; simpl; [constructor|].
  destruct (decide (y ∈ seen)); [apply IH|].
  constructor; [|apply IH]. rewrite elem_of_distinct, elem_of_cons. tauto.
Qed.

Lemma createDeadlockLogEntry_throws env cycle processes connections :
  createDeadlockLogEntry env cycle processes connections = None <->
  dc_processes cycle = [].
Proof.
  unfold createDeadlockLogEntry, processDetails.
  destruct (dc_processes cycle); simpl; split; done.
Qed.

Lemma walk_length active nodes ids last :
  walk active nodes ids last -> length ids = length nodes.
Proof.
  revert ids. induction nodes as [|u nodes IH]; intros [|i ids]; simpl; try done.
  intros [_ Hwalk]. f_equal. by apply IH.
Qed.

Lemma walk_edges active nodes ids last i u v :
  walk active nodes ids last ->
  (nodes ++ [last]) !! i = Some u -> (nodes ++ [last]) !! S i = Some v ->
  exists c, c ∈ active /\ c_from c = u /\ c_to c = v.
Proof.
  revert ids i. induction nodes as [|n nodes IH]; intros [|id ids] i; simpl; try done.
  intros [(c & Hc & _ & Hfrom & Hto) Hwalk] Hu Hv. destruct i as [|i].
  - simpl in Hu, Hv. injection Hu as <-. exists c. split_and!; [done..|].
    rewrite Hto. destruct nodes; simpl in *; congruence.
  - simpl in Hu, Hv. by eapply IH.
Qed.

Lemma held_resources cycle processes connections :
  ps_heldResources <$> (summary <$> processDetails cycle processes connections)
  = (fun id => c_id <$> filter (fun c => c_from c = id /\ c_state c = CActive)
                               connections)
    <$> dc_processes cycle.
Proof.
  unfold processDetails. rewrite <- !list_fmap_compose.
  apply list_fmap_ext. intros _ id _. unfold compose, summary. simpl.
  induction connections as [|c cs IH]; [done|].
  rewrite !filter_cons.
  destruct (decide (c_from c = id \/ c_to c = id)) as [Hc|Hc].
  - rewrite fmap_cons, filter_cons. cbn [ri_outgoing ri_state].
    destruct (decide (c_from c = id /\ c_state c = CActive)) as [[Hf Hs]|Hno].
    + rewrite decide_True by (by rewrite bool_decide_eq_true).
      rewrite !fmap_cons. cbn [ri_id]. f_equal. exact IH.
    + rewrite decide_False; [exact IH|]. rewrite bool_decide_eq_true. tauto.
  - rewrite decide_False by tauto. exact IH.
Qed.

Lemma waiting_resources cycle processes connections :
  ps_waitingForResources <$> (summary <$> processDetails cycle processes connections)
  = (fun id => c_id <$> filter (fun c => c_to c = id /\ c_from c <> id /\
                                         c_state c = CActive) connections)
    <$> dc_processes cycle.
Proof.
  unfold processDetails. rewrite <- !list_fmap_compose.
  apply list_fmap_ext. intros _ id _. unfold compose, summary. simpl.
  induction connections as [|c cs IH]; [done|].
  rewrite !filter_cons.
  destruct (decide (c_from c = id \/ c_to c = id)) as [Hc|Hc].
  - rewrite fmap_cons, filter_cons. cbn [ri_outgoing ri_state].
    destruct (decide (c_to c = id /\ c_from c <> id /\ c_state c = CActive))
      as [(Ht & Hf & Hs)|Hno].
    + rewrite decide_True by (by rewrite bool_decide_eq_false).
      rewrite !fmap_cons. cbn [ri_id]. f_equal. exact IH.
    + rewrite decide_False; [exact IH|]. rewrite bool_decide_eq_false. tauto.
  - rewrite decide_False by tauto. exact IH.
Qed.

Lemma cycle_sources active first rest ids id :
  walk active (first :: rest) ids first ->
  id ∈ first :: rest ++ [first] ->
  exists c, c ∈ active /\ c_from c = id.
Proof.
  intros Hwalk Hin.
  assert (id ∈ first :: rest) as [i Hi]%list_elem_of_lookup_1.
  { rewrite app_comm_cons in Hin. apply elem_of_app in Hin as [?|Hin]; [done|].
    apply list_elem_of_singleton in Hin as ->. apply elem_of_cons. by left. }
  pose proof (lookup_lt_Some _ _ _ Hi) as Hlt.
  destruct (lookup_lt_is_Some_2 ((first :: rest) ++ [first]) (S i)) as [v Hv].
  { rewrite length_app. simpl in *. lia. }
  destruct (walk_edges active (first :: rest) ids first i id v Hwalk)
    as (c & Hc & Hfrom & _); [by rewrite lookup_app_l|done|].
  by exists c.
Qed.

Lemma cycle_targets active first rest ids id :
  NoDup (first :: rest) -> rest <> [] ->
  walk active (first :: rest) ids first ->
  id ∈ first :: rest ++ [first] ->
  exists c, c ∈ active /\ c_to c = id /\ c_from c <> id.
Proof.
  intros Hnd Hrest Hwalk Hin.
  assert (id ∈ first :: rest) as [i Hi]%list_elem_of_lookup_1.
  { rewrite app_comm_cons in Hin. apply elem_of_app in Hin as [?|Hin]; [done|].
    apply list_elem_of_singleton in Hin as ->. apply elem_of_cons. by left. }
  pose proof (lookup_lt_Some _ _ _ Hi) as Hlt.
  destruct i as [|j].
  - simpl in Hi. injection Hi as <-.
    destruct (lookup_lt_is_Some_2 (first :: rest) (length rest)) as [u Hu];
      [simpl; lia|].
    destruct (walk_edges active (first :: rest) ids first (length rest) u first Hwalk)
      as (c & Hc & Hfrom & Hto).
    + by rewrite lookup_app_l by (simpl; lia).
    + rewrite lookup_app_r by (simpl; lia). simpl.
      by rewrite Nat.sub_diag.
    + exists c. split_and!; [done..|]. rewrite Hfrom. intros ->.
      assert (length rest = 0%nat) as Hlen
        by (by eapply (NoDup_lookup (first :: rest))).
      by destruct rest.
  - destruct (lookup_lt_is_Some_2 (first :: rest) j) as [u Hu]; [lia|].
    destruct (walk_edges active (first :: rest) ids first j u id Hwalk)
      as (c & Hc & Hfrom & Hto).
    + by rewrite lookup_app_l by lia.
    + by rewrite lookup_app_l by lia.
    + exists c. split_and!; [done..|]. rewrite Hfrom. intros ->.
      assert (j = S j) by (by eapply (NoDup_lookup (first :: rest))). lia.
Qed.

(** X16.  [createDeadlockLogEntry] fails only on a cycle without
    processes.  When no process is called "__proto__" and no active
    connection starts or ends at the name of a member of
    [Object.prototype] that no process bears, [detectDeadlockCycles]
    returns, and every cycle that it reports can be turned into a log
    entry: an
    error of high severity that lists the processes of the cycle, the
    first of them a second time at the end, so one more than there are
    connections; each with an active connection that starts at it as a
    held resource and, unless the cycle is a single connection from a
    process to itself, with an active connection from another process as a
    resource that it waits for. *)
Theorem reported_cycles_get_entries env env' processes connections :
  (forall cycle,
     createDeadlockLogEntry env' cycle processes connections = None <->
     dc_processes cycle = []) /\
  (usable_ids processes (filter is_active connections) ->
   exists found,
    detectDeadlockCycles env processes connections = Returns found /\
    Forall (fun cyc =>
      exists entry,
        createDeadlockLogEntry env' cyc processes connections = Some entry /\
        dl_type entry = LError /\ dl_severity entry = High /\
        length (dl_processes entry) = S (length (dc_connections cyc)) /\
        head (dl_processes entry) = last (dl_processes entry) /\
        Forall (fun s => ps_heldResources s <> []) (dl_processes entry) /\
        ((2 < length (dc_processes cyc))%nat ->
         Forall (fun s => ps_waitingForResources s <> []) (dl_processes entry)))
      found).
Proof.
  split; [intros cycle; apply createDeadlockLogEntry_throws|]. intros Hplain.
  destruct (detectDeadlockCycles_sound_complete env processes connections Hplain)
    as (found & Hfound & Htraces & _).
  exists found. split; [done|]. eapply Forall_impl; [exact Htraces|].
  intros cyc (first & rest & Hps & Hnd & Hwalk).
  destruct (createDeadlockLogEntry env' cyc processes connections) as [entry|] eqn:He;
    [|apply createDeadlockLogEntry_throws in He; congruence].
  exists entry. split; [done|].
  assert (dl_processes entry = summary <$> processDetails cyc processes connections
          /\ dl_type entry = LError /\ dl_severity entry = High) as (Hsum & Ht & Hs).
  { unfold createDeadlockLogEntry in He.
    destruct (processDetails cyc processes connections); [done|].
    by injection He as <-. }
  split_and!; [done|done|..].
  - rewrite Hsum. unfold processDetails. rewrite !length_fmap, Hps.
    rewrite (walk_length _ _ _ _ Hwalk). simpl. rewrite length_app. simpl. lia.
  - rewrite Hsum. unfold processDetails. rewrite Hps.
    rewrite !fmap_cons, !fmap_app, !fmap_cons. simpl.
    by rewrite app_comm_cons, last_snoc.
  - assert (Forall (fun l : list string => l <> [])
              (ps_heldResources <$> dl_processes entry)) as H;
      [|apply Forall_forall; intros s Hin;
       apply (proj1 (Forall_forall _ _) H), list_elem_of_fmap; eauto].
    rewrite Hsum, held_resources. apply Forall_forall.
    intros l (id & -> & Hid)%list_elem_of_fmap. rewrite Hps in Hid.
    destruct (cycle_sources _ _ _ _ id Hwalk Hid)
      as (c & [Hactive Hc]%list_elem_of_filter & Hfrom).
    intros Hnil%fmap_nil_inv.
    assert (c ∈ filter (fun c => c_from c = id /\ c_state c = CActive) connections)
      as Hin by (by apply list_elem_of_filter).
    rewrite Hnil in Hin. by apply elem_of_nil in Hin.
  - intros Hlen.
    assert (Forall (fun l : list string => l <> [])
              (ps_waitingForResources <$> dl_processes entry)) as H;
      [|apply Forall_forall; intros s Hin;
       apply (proj1 (Forall_forall _ _) H), list_elem_of_fmap; eauto].
    rewrite Hsum, waiting_resources. apply Forall_forall.
    intros l (id & -> & Hid)%list_elem_of_fmap. rewrite Hps in Hid, Hlen.
    assert (rest <> []) as Hrest by (intros ->; simpl in Hlen; lia).
    destruct (cycle_targets _ _ _ _ id Hnd Hrest Hwalk Hid)
      as (c & [Hactive Hc]%list_elem_of_filter & Hto & Hfrom).
    intros Hnil%fmap_nil_inv.
    assert (c ∈ filter (fun c => c_to c = id /\ c_from c <> id /\
                                 c_state c = CActive) connections)
      as Hin by (by apply list_elem_of_filter).
    rewrite Hnil in Hin. by apply elem_of_nil in Hin.
Qed.

Lemma reported_cycles_get_entries_witness :
  let processes := [idle_process "A"; idle_process "B"; idle_process "C"] in
  let connections := [active_memory "ab" "A" "B"; active_memory "bc" "B" "C";
                      active_memory "ca" "C" "A"] in
  exists found,
    detectDeadlockCycles sample_env processes connections = Returns found /\
    Forall (fun cyc =>
      exists entry,
        createDeadlockLogEntry sample_env cyc processes connections = Some entry /\
        dl_type entry = LError /\ dl_severity entry = High /\
        length (dl_processes entry) = S (length (dc_connections cyc)) /\
        head (dl_processes entry) = last (dl_processes entry) /\
        Forall (fun s => ps_heldResources s <> []) (dl_processes entry) /\
        ((2 < length (dc_processes cyc))%nat ->
         Forall (fun s => ps_waitingForResources s <> []) (dl_processes entry)))
      found.
Proof.
  apply (reported_cycles_get_entries sample_env sample_env
           [idle_process "A"; idle_process "B"; idle_process "C"]
           [active_memory "ab" "A" "B"; active_memory "bc" "B" "C";
            active_memory "ca" "C" "A"]).
  apply (bool_decide_unpack _). vm_compute. exact I.
Defined.

Lemma type_in_connectionTypes cycle connections type :
  Some type ∈ connectionTypes cycle connections <->
  exists id c,
    id ∈ dc_connections cycle /\
    List.find (fun c => bool_decide (c_id c = id)) connections = Some c /\
    c_type c = type.
Proof.
  unfold connectionTypes. rewrite elem_of_distinct, list_elem_of_fmap. split.
  - intros [(id & Heq & Hid) _].
    destruct (List.find _ connections) as [c|] eqn:Hfind; [|done].
    exists id, c. split_and!; [done..|]. simpl in Heq. congruence.
  - intros (id & c & Hid & Hfind & Htype).
    split; [|apply not_elem_of_nil]. exists id. rewrite Hfind. simpl.
    split; [congruence|done].
Qed.

(** X17.  The solutions of a log entry are the four general strategies, then
    the two for queues when an identifier of the cycle is that of a queue,
    then the two for pipes when one is that of a pipe, where each identifier
    stands for the first connection that bears it; an identifier of no
    connection and a memory connection add nothing. The connection types are
    listed once each. *)
Theorem entry_solutions_by_type env cycle processes connections :
  dc_processes cycle <> [] ->
  let resolves type :=
    exists id c,
      id ∈ dc_connections cycle /\
      List.find (fun c => bool_decide (c_id c = id)) connections = Some c /\
      c_type c = type in
  exists entry (queues pipes : bool),
    createDeadlockLogEntry env cycle processes connections = Some entry /\
    dl_solutions entry
    = general_strategies ++ (if queues then queue_strategies else [])
      ++ (if pipes then pipe_strategies else []) /\
    (queues = true <-> resolves Queue) /\
    (pipes = true <-> resolves Pipe) /\
    NoDup (dl_connectionTypes entry).
Proof.
  intros Hps resolves.
  destruct (createDeadlockLogEntry env cycle processes connections) as [entry|] eqn:He;
    [|apply createDeadlockLogEntry_throws in He; congruence].
  assert (dl_solutions entry
          = resolutionStrategies (connectionTypes cycle connections) /\
          dl_connectionTypes entry = connectionTypes cycle connections)
    as [Hsol Htypes].
  { unfold createDeadlockLogEntry in He.
    destruct (processDetails cycle processes connections); [done|].
    by injection He as <-. }
  exists entry,
    (bool_decide (Some Queue ∈ connectionTypes cycle connections)),
    (bool_decide (Some Pipe ∈ connectionTypes cycle connections)).
  split_and!; [done| | | |].
  - rewrite Hsol. unfold resolutionStrategies.
    by repeat case_decide; repeat case_bool_decide.
  - rewrite bool_decide_eq_true. apply type_in_connectionTypes.
  - rewrite bool_decide_eq_true. apply type_in_connectionTypes.
  - rewrite Htypes. apply distinct_NoDup.
Qed.

Lemma entry_solutions_by_type_witness :
  exists entry (queues pipes : bool),
    createDeadlockLogEntry sample_env
      (reported sample_env 0 ["P"; "B"; "P"] ["q1"; "nothing"])
      (processes queue_demo) (connections queue_demo) = Some entry /\
    dl_solutions entry
    = general_strategies ++ (if queues then queue_strategies else [])
      ++ (if pipes then pipe_strategies else []) /\
    (queues = true <->
     exists id c,
       id ∈ ["q1"; "nothing"] /\
       List.find (fun c => bool_decide (c_id c = id)) (connections queue_demo)
       = Some c /\ c_type c = Queue) /\
    (pipes = true <->
     exists id c,
       id ∈ ["q1"; "nothing"] /\
       List.find (fun c => bool_decide (c_id c = id)) (connections queue_demo)
       = Some c /\ c_type c = Pipe) /\
    NoDup (dl_connectionTypes entry).
Proof.
  by apply (entry_solutions_by_type sample_env
              (reported sample_env 0 ["P"; "B"; "P"] ["q1"; "nothing"])).
Defined.

(** X18.  [suggestDeadlockResolution] always suggests one of its five
    strategies: for a random number that is a double from 0 up to, but
    not including, 1, the product with 5, rounded to a double, is below 5,
    and the index drawn lies inside the array. *)
Theorem suggestion_in_range env cycle :
  is_double (random env 0) -> (0 <= random env 0)%Q -> (random env 0 < 1)%Q ->
  exists strategy,
    suggestDeadlockResolution env cycle = Some strategy /\ strategy ∈ strategies.
Proof.
  intros Hdouble Hlo Hhi. unfold suggestDeadlockResolution.
  change (inject_Z (Z.of_nat (length strategies))) with 5%Q.
  pose proof (random_index (random env 0) Hdouble Hlo Hhi) as [H0 H5].
  set (index := Qfloor (double_mul (random env 0) 5)) in *.
  rewrite (proj2 (Z.ltb_ge _ _)) by done.
  destruct (lookup_lt_is_Some_2 strategies (Z.to_nat index)) as [s Hs].
  { change (length strategies) with 5%nat. lia. }
  exists s. split; [done|]. by eapply list_elem_of_lookup_2.
Qed.

Lemma suggestion_in_range_witness :
  exists strategy,
    suggestDeadlockResolution sample_env (reported sample_env 0 [] [])
    = Some strategy /\ strategy ∈ strategies.
Proof.
  apply (suggestion_in_range sample_env (reported sample_env 0 [] []));
    [apply (bool_decide_unpack _); vm_compute; exact I|done..].
Defined.

(** ** The log of the synchronizer *)

(** X19.  The flag behind the "Issues Detected" button is set exactly while
    the log holds an error or a warning of high severity, whatever the
    canvas has logged and whatever has been clicked: only clearing the log
    resets it, and toggling the demo mode, which logs an information, never
    sets it. *)
Theorem issues_flag_tracks_log events :
  let s := foldl sync_step synchronizer_start events in
  issuesDetected s = true <->
  exists log, log ∈ panel_logs s /\ alarming log = true.
Proof.
  simpl.
  set (tracked := fun s => issuesDetected s = true <->
                           exists log, log ∈ panel_logs s /\ alarming log = true).
  assert (forall s, tracked s -> tracked (foldl sync_step s events)) as H.
  { induction events as [|ev events IH]; intros s Hs; [done|].
    cbn [foldl]. apply IH.
    assert (forall s log, tracked s -> alarming log = false ->
                          tracked (handleLogEvent s log)) as Hquiet.
    { intros s' log Hs' Hlog. unfold tracked, handleLogEvent in *. simpl.
      rewrite Hlog, Hs'. split.
      - intros (l & Hl & Ha). exists l. split; [|done]. apply elem_of_app. by left.
      - intros (l & [Hl|Hl%list_elem_of_singleton]%elem_of_app & Ha); [by exists l|].
        congruence. }
    destruct ev as [log| |id ts| | | | |]; cbn [sync_step]; try exact Hs.
    - destruct (alarming log) eqn:Hlog; [|by apply Hquiet].
      unfold tracked, handleLogEvent. simpl. rewrite Hlog. split; [|done].
      intros _. exists log. split; [|done]. apply elem_of_app. right.
      by apply list_elem_of_singleton.
    - unfold tracked. simpl. split; [done|]. by intros (l & ?%elem_of_nil & _).
    - unfold toggleDemoMode. by apply Hquiet. }
  apply H. unfold tracked. simpl. split; [done|]. by intros (l & ?%elem_of_nil & _).
Qed.

Lemma keeps_ret {A} (I : Effects -> Prop) (a : A) : keeps I (ret a).
Proof. by intros e. Qed.

Lemma keeps_bind {A B} (I : Effects -> Prop) (m : Handler A) (k : A -> Handler B) :
  keeps I m -> (forall a, keeps I (k a)) -> keeps I (bind m k).
Proof.
  intros Hm Hk e He. unfold bind. specialize (Hm e He).
  destruct (m e) as [a e']. by apply Hk.
Qed.

Lemma keeps_run (I : Effects -> Prop) (h : Handler unit) :
  keeps I h -> I no_effects -> I (run h).
Proof. intros H H0. by apply H. Qed.

Lemma logEvent_no_error env type message :
  type <> LError -> keeps no_error (logEvent env type message).
Proof.
  intros Htype e He. unfold no_error in *. simpl.
  apply Forall_app. split; [done|]. by repeat constructor.
Qed.

Create HintDb logging.

#[local] Hint Resolve keeps_ret : logging.
#[local] Hint Extern 1 (keeps _ (bind _ _)) =>
  apply keeps_bind; [|intros ?] : logging.
#[local] Hint Extern 1 (keeps no_error (logEvent _ _ _)) =>
  by apply logEvent_no_error : logging.
#[local] Hint Extern 1 (keeps no_error (setProcesses _)) => by intros ? : logging.
#[local] Hint Extern 1 (keeps no_error (setConnections _)) => by intros ? : logging.
#[local] Hint Extern 1 (keeps no_error (setDataTransfers _)) => by intros ? : logging.
#[local] Hint Extern 1 (keeps no_error (setConnectMode _)) => by intros ? : logging.
#[local] Hint Extern 1 (keeps no_error (setTimeout _ _ _)) => by intros ? : logging.
#[local] Hint Extern 1 (keeps no_error (toast _ _)) => by intros ? : logging.
#[local] Hint Extern 1 (keeps no_error (generateId _)) => by intros ? : logging.
#[local] Hint Extern 1 (keeps no_error (Math_random _)) => by intros ? : logging.
#[local] Hint Extern 2 (keeps _ (match ?x with _ => _ end)) =>
  destruct x : logging.

Ltac logged := auto 30 with logging.

Lemma no_error_start : no_error no_effects.
Proof. constructor. Qed.

Lemma forEach_keeps {A} (I : Effects -> Prop) (f : A -> Handler unit) l :
  (forall x, keeps I (f x)) -> keeps I (forEach f l).
Proof.
  intros Hf. induction l as [|x l IH]; [apply keeps_ret|].
  simpl. apply keeps_bind; [apply Hf|by intros _].
Qed.

Lemma forwarded_issues s logs entries :
  forwarded logs entries ->
  issuesDetected (foldl handleLogEvent s entries)
  = if decide (Forall (fun l => log_type l <> LError) logs)
    then issuesDetected s else true.
Proof.
  intros Hf. revert s. induction Hf as [|l entry logs entries [Ht Hi] _ IH];
    intros s; [by rewrite decide_True by constructor|].
  cbn [foldl]. rewrite IH.
  assert (alarming entry = bool_decide (log_type l = LError)) as Halarm.
  { unfold alarming. rewrite Ht, Hi. simpl. by rewrite andb_false_r, orb_false_r. }
  unfold handleLogEvent at 1. cbn [issuesDetected]. rewrite Halarm.
  destruct (decide (log_type l = LError)) as [Herr|Herr].
  - rewrite bool_decide_eq_true_2 by done.
    rewrite (decide_False (P := Forall _ (l :: logs))).
    + by case_decide.
    + by intros [? _]%Forall_cons.
  - rewrite bool_decide_eq_false_2 by done.
    destruct (decide (Forall (fun l => log_type l <> LError) logs)).
    + rewrite decide_True; [done|]. by constructor.
    + rewrite decide_False; [done|]. by intros [_ ?]%Forall_cons.
Qed.

(** X20.  The canvas raises the "Issues Detected" flag of the synchronizer
    only by the deadlock alarm of a send: a send logs an error exactly when
    it flags a deadlock, and no other handler of the canvas logs an error or
    a warning with a severity, the timers, the demos and the bottleneck
    warning included. *)
Theorem only_deadlocks_raise_issues env st f t s entries :
  let sent := run (sendData env st f t) in
  forwarded (logs sent) entries ->
  (issuesDetected (foldl handleLogEvent s entries) = true <->
   issuesDetected s = true \/ deadlock_flagged sent) /\
  forall position processId type toProcessId tm interactionMode canvas click
         process button,
    Forall no_error
      [ run (consumeData env st f t);
        run (addProcess env st position);
        run (removeProcess env st processId);
        run (startConnection env st processId type);
        run (completeConnection env st toProcessId);
        run (run_timer env tm);
        run (handleCanvasClick env st interactionMode canvas click);
        run (handleNodeClick env st process);
        run (bottleneckEffect env st);
        (demo_of button env no_effects).2 ].
Proof.
  intros sent Hf. split.
  - rewrite (forwarded_issues s (logs sent) entries Hf). clear Hf.
    subst sent. unfold deadlock_flagged.
    send_cases env st f t; try (unfold send_success; destruct (saturated st));
      simpl; try case_decide as Hall;
      first
        [ (* no error logged, no alarm *)
          split; [by left|]; intros [?|Hin]; [done|]; exfalso;
          repeat (apply elem_of_cons in Hin as [Hin|Hin]; [discriminate|]);
          by apply elem_of_nil in Hin
        | (* an error logged and the alarm *)
          split; [|done]; intros _; right; apply elem_of_cons; by left
        | exfalso; repeat (apply Forall_cons in Hall as [? Hall]); done
        | exfalso; apply Hall; by repeat constructor ].
  - intros. apply Forall_forall. intros e He.
    repeat (apply elem_of_cons in He as [->|He]); [..|by apply elem_of_nil in He].
    + consume_cases env st f t; try (unfold consume_success);
        unfold no_error; simpl; by repeat constructor.
    + apply (keeps_run no_error); [|apply no_error_start]. unfold addProcess. logged.
    + apply (keeps_run no_error); [|apply no_error_start]. unfold removeProcess. logged.
    + apply (keeps_run no_error); [|apply no_error_start]. unfold startConnection. logged.
    + apply (keeps_run no_error); [|apply no_error_start]. unfold completeConnection. logged.
    + apply (keeps_run no_error); [|apply no_error_start].
      unfold run_timer, run_timer_body, release_process, wake_waiters. logged.
    + apply (keeps_run no_error); [|apply no_error_start].
      unfold handleCanvasClick, addProcess. logged.
    + apply (keeps_run no_error); [|apply no_error_start].
      unfold handleNodeClick, completeConnection. logged.
    + apply (keeps_run no_error); [|apply no_error_start]. unfold bottleneckEffect.
      apply forEach_keeps. intros c. logged.
    + assert (keeps no_error (demo_of button env)) as Hkeeps.
      { destruct button; cbn [demo_of];
          [unfold createProducerConsumerSimulation
          |unfold createDeadlockDemoSimulation
          |unfold createPipeDemoSimulation]; logged. }
      apply Hkeeps, no_error_start.
Qed.

Lemma forwarded_canvas_entry timestamp details logs :
  forwarded logs (canvas_entry timestamp details <$> logs).
Proof.
  unfold forwarded. apply Forall2_fmap_r, Forall_Forall2_diag, Forall_forall.
  by intros l _.
Qed.

Lemma only_deadlocks_raise_issues_witness :
  let sent := run (sendData sample_env busy_pair "A" "B") in
  issuesDetected (foldl handleLogEvent synchronizer_start
                    (canvas_entry 0 None <$> logs sent)) = true <->
  issuesDetected synchronizer_start = true \/ deadlock_flagged sent.
Proof.
  intros sent.
  apply (only_deadlocks_raise_issues sample_env busy_pair "A" "B"
           synchronizer_start (canvas_entry 0 None <$> logs sent)).
  apply forwarded_canvas_entry.
Defined.

(** ** Warnings on the canvas *)

Lemma truthy_Some x : truthy x = true <-> exists v, x = Some v /\ v <> 0.
Proof.
  destruct x as [v|]; simpl.
  - rewrite negb_true_iff, Z.eqb_neq. naive_solver.
  - naive_solver.
Qed.

Lemma bottleneck_iff conn :
  bottleneck conn = true <->
  c_type conn = Queue /\
  exists capacity load,
    c_capacity conn = Some capacity /\ c_currentLoad conn = Some load /\
    capacity <> 0 /\ load <> 0 /\ 4 * capacity <= 5 * load.
Proof.
  unfold bottleneck. rewrite !andb_true_iff, bool_decide_eq_true, !truthy_Some.
  rewrite Qle_bool_iff. split.
  - intros [[[Ht (cap & Hcap & Hc0)] (load & Hload & Hl0)] Hle].
    split; [done|]. exists cap, load. rewrite Hcap, Hload in Hle. simpl in Hle.
    split_and!; try done. unfold Qle in Hle. simpl in Hle. lia.
  - intros [Ht (cap & load & Hcap & Hload & Hc0 & Hl0 & Hle)].
    split_and!; try done; [by exists cap|by exists load|].
    rewrite Hcap, Hload. unfold Qle. simpl. lia.
Qed.

Lemma capacity_label_amber connection :
  capacity_label connection = Some true <->
  c_type connection = Queue /\
  exists capacity load,
    c_capacity connection = Some capacity /\ c_currentLoad connection = Some load /\
    capacity <> 0 /\ load <> 0 /\ 4 * capacity < 5 * load.
Proof.
  unfold capacity_label.
  destruct (bool_decide (c_type connection = Queue)) eqn:Ht; simpl;
    [apply bool_decide_eq_true in Ht|apply bool_decide_eq_false in Ht; naive_solver].
  destruct (truthy (c_capacity connection)) eqn:Hcap;
    [apply truthy_Some in Hcap as (cap & Hcap & Hc0)|].
  - split.
    + intros [= [(load & Hload & Hl0)%truthy_Some Hlt%negb_true_iff]%andb_true_iff].
      split; [done|]. exists cap, load. split_and!; try done.
      rewrite Hcap, Hload in Hlt. simpl in Hlt.
      apply not_true_iff_false in Hlt. rewrite Qle_bool_iff in Hlt.
      unfold Qle in Hlt. simpl in Hlt. lia.
    + intros [_ (cap' & load & Hcap' & Hload & _ & Hl0 & Hlt)]. f_equal.
      rewrite Hcap, Hload in *. simplify_eq. simpl.
      rewrite andb_true_iff, negb_true_iff. split.
      * by apply Z.eqb_neq.
      * apply negb_true_iff, not_true_iff_false. rewrite Qle_bool_iff.
        unfold Qle. simpl. lia.
  - split; [done|]. intros [_ (cap & load & Hcap' & _ & Hc0 & _)].
    assert (truthy (c_capacity connection) = true) as Htrue
      by (apply truthy_Some; eauto).
    congruence.
Qed.

Lemma forEach_cons {A} (f : A -> Handler unit) x l e :
  forEach f (x :: l) e = forEach f l (f x e).2.
Proof. simpl. unfold bind. by destruct (f x e) as [[] e']. Qed.

Lemma bottleneckEffect_effects env cs e0 :
  let e := (forEach (fun conn =>
              if bottleneck conn then
                logEvent env LWarning "Queue Bottleneck";;
                toast "Bottleneck Detected" false
              else ret tt) cs e0).2 in
  set_processes e = set_processes e0 /\
  set_connections e = set_connections e0 /\
  set_dataTransfers e = set_dataTransfers e0 /\
  set_connectMode e = set_connectMode e0 /\
  length (logs e)
  = (length (logs e0) + length (filter (fun c => bottleneck c = true) cs))%nat /\
  length (toasts e)
  = (length (toasts e0) + length (filter (fun c => bottleneck c = true) cs))%nat /\
  (Forall (fun l => log_type l = LWarning) (logs e0) ->
   Forall (fun l => log_type l = LWarning) (logs e)).
Proof.
  cbv zeta. revert e0. induction cs as [|c cs IH]; intros e0.
  - simpl. split_and!; try done; lia.
  - rewrite forEach_cons, filter_cons.
    destruct (IH ((if bottleneck c
                   then logEvent env LWarning "Queue Bottleneck";;
                        toast "Bottleneck Detected" false
                   else ret tt) e0).2)
      as (H1 & H2 & H3 & H4 & H5 & H6 & Hall).
    rewrite H1, H2, H3, H4, H5, H6. clear H1 H2 H3 H4 H5 H6.
    destruct (bottleneck c) eqn:Hc.
    + rewrite decide_True by done. simpl in *. rewrite !length_app. simpl.
      split_and!; try done; try lia.
      intros H0. apply Hall, Forall_app. split; [done|]. by repeat constructor.
    + rewrite decide_False by congruence. simpl in *. split_and!; try done.
Qed.

(** X21.  The bottleneck effect warns, once with a log entry and once with a
    toast, about each queue with a capacity and a load other than 0 whose
    load has reached four fifths of the capacity, and changes nothing on the
    canvas. So it warns about every queue that a send finds full, given the
    queue has a capacity of its own. The label of the queue turns amber only
    above four fifths: at four fifths exactly there is a warning and no
    amber label. *)
Theorem bottleneck_warnings env st conn :
  let e := run (bottleneckEffect env st) in
  commit st e = st /\
  length (logs e) = length (filter (fun c => bottleneck c = true) (connections st)) /\
  length (toasts e) = length (logs e) /\
  Forall (fun l => log_type l = LWarning) (logs e) /\
  (bottleneck conn = true <->
   c_type conn = Queue /\
   exists capacity load,
     c_capacity conn = Some capacity /\ c_currentLoad conn = Some load /\
     capacity <> 0 /\ load <> 0 /\ 4 * capacity <= 5 * load) /\
  (forall capacity,
     c_type conn = Queue -> c_capacity conn = Some capacity -> 0 < capacity ->
     or_default (c_capacity conn) 10 <= or_default (c_currentLoad conn) 0 ->
     bottleneck conn = true) /\
  (capacity_label conn = Some true -> bottleneck conn = true) /\
  (bottleneck conn = true /\ capacity_label conn = Some false <->
   c_type conn = Queue /\
   exists capacity load,
     c_capacity conn = Some capacity /\ c_currentLoad conn = Some load /\
     capacity <> 0 /\ 4 * capacity = 5 * load).
Proof.
  simpl. unfold bottleneckEffect, run.
  destruct (bottleneckEffect_effects env (connections st) no_effects)
    as (Hps & Hcs & Hts & Hcm & Hlogs & Htoasts & Hall).
  split_and!.
  - by apply commit_nothing.
  - by rewrite Hlogs.
  - by rewrite Hlogs, Htoasts.
  - apply Hall. constructor.
  - apply bottleneck_iff.
  - intros capacity Ht Hcap Hpos Hfull. apply bottleneck_iff. split; [done|].
    rewrite Hcap in Hfull. simpl in Hfull.
    destruct (Z.eqb_spec capacity 0) as [|_]; [lia|].
    destruct (c_currentLoad conn) as [load|] eqn:Hload; simpl in Hfull; [|lia].
    destruct (Z.eqb_spec load 0) as [|Hl0]; [lia|].
    exists capacity, load. split_and!; try done; lia.
  - intros (Ht & cap & load & ? & ? & ? & ? & ?)%capacity_label_amber.
    apply bottleneck_iff. split; [done|]. exists cap, load. split_and!; try done. lia.
  - split.
    + intros [(Ht & cap & load & Hcap & Hload & Hc0 & Hl0 & Hle)%bottleneck_iff
               Hlabel].
      split; [done|]. exists cap, load. split_and!; try done.
      destruct (decide (4 * cap = 5 * load)) as [|Hne]; [done|].
      assert (capacity_label conn = Some true) as Hamber; [|congruence].
      apply capacity_label_amber. split; [done|]. exists cap, load.
      split_and!; try done. lia.
    + intros (Ht & cap & load & Hcap & Hload & Hc0 & Heq).
      assert (load <> 0) as Hl0 by lia.
      split.
      * apply bottleneck_iff. split; [done|]. exists cap, load.
        split_and!; try done. lia.
      * destruct (capacity_label conn) as [[|]|] eqn:Hlabel; [|done|].
        -- apply capacity_label_amber in Hlabel
             as (_ & cap' & load' & ? & ? & _ & _ & ?).
           simplify_eq. lia.
        -- unfold capacity_label in Hlabel.
           rewrite bool_decide_eq_true_2 in Hlabel by done.
           rewrite (proj2 (truthy_Some _)) in Hlabel by eauto. done.
Qed.

(** ** Drawing a connection *)

(** X22.  The particle of a consumption never leaves the height of the
    receiving end of the connection, whatever the progress: its height is
    computed from the difference of the sending end with itself. It starts
    at the receiving end, as the particle of a send starts at the sending
    end. *)
Theorem consume_particle_keeps_height fromPosition toPosition transfer :
  let position := (particle fromPosition toPosition transfer).1 in
  (t_type transfer = Consume -> (pos_y position == pos_y toPosition)%Q) /\
  (t_type transfer = Consume -> t_progress transfer = 0 ->
   (pos_x position == pos_x toPosition)%Q) /\
  (t_type transfer = Produce -> t_progress transfer = 0 ->
   (pos_x position == pos_x fromPosition)%Q /\
   (pos_y position == pos_y fromPosition)%Q).
Proof.
  unfold particle. simpl. split_and!.
  - intros ->. ring.
  - intros -> ->. unfold Qdiv. ring.
  - intros -> ->. unfold Qdiv. split; ring.
Qed.

Lemma consume_particle_keeps_height_witness :
  (pos_y (particle {| pos_x := 0; pos_y := 0 |} {| pos_x := 30; pos_y := 40 |}
            (progressed 50
               (new_transfer sample_env 0 0 (demo_queue "q" "A" "B") Consume))).1
   == 40)%Q.
Proof.
  by apply (consume_particle_keeps_height {| pos_x := 0; pos_y := 0 |}
              {| pos_x := 30; pos_y := 40 |}
              (progressed 50
                 (new_transfer sample_env 0 0 (demo_queue "q" "A" "B") Consume))).
Defined.

Lemma guarded_region_None_queue connection :
  guarded_region connection = None <->
  c_type connection <> Memory \/ c_memoryRegion connection = None.
Proof. unfold guarded_region. case_decide; naive_solver. Qed.

(** X23.  The label of a memory connection with a region is amber exactly
    when a consumption over the connection is refused, because of a writer
    or because the readers have reached their limit. A send is refused as
    soon as the region has a writer or any reader, so also under a label
    that is not amber. *)
Theorem semaphore_label_predicts_refusal env st f t connection :
  find_connection (connections st) f t = Some connection ->
  let read := failure st f t (run (consumeData env st f t)) in
  let written := failure st f t (run (sendData env st f t)) in
  (semaphore_label connection = Some true <->
   read = Some MemoryLocked \/ read = Some MaxReadersReached) /\
  (written = Some MemoryLocked <->
   exists region,
     guarded_region connection = Some region /\
     (hasWriter (mr_semaphore region) = true \/
      0 < currentReaders (mr_semaphore region))) /\
  (semaphore_label connection = None <-> guarded_region connection = None).
Proof.
  intros Hthis. simpl. unfold failure. rewrite Hthis. split_and!.
  - unfold semaphore_label.
    consume_cases env st f t; simplify_eq; simpl.
    + rewrite (proj2 (guarded_region_None_queue _)) by (left; congruence). naive_solver.
    + unfold consume_success. simpl.
      rewrite (proj2 (guarded_region_None_queue _)) by (left; congruence). naive_solver.
    + unfold guarded_region. rewrite decide_True by done. rewrite Hreg, Hw.
      naive_solver.
    + unfold guarded_region. rewrite decide_True by done. rewrite Hreg, Hw.
      rewrite bool_decide_eq_true_2 by done. naive_solver.
    + unfold consume_success, guarded_region.
      rewrite decide_True by done. rewrite Hreg. simpl. rewrite Hw.
      rewrite bool_decide_eq_false_2 by lia. naive_solver.
    + unfold consume_success. rewrite Hg. simpl. naive_solver.
  - send_cases env st f t; simplify_eq; simpl.
    + rewrite (proj2 (guarded_region_None_queue _)) by (left; congruence). naive_solver.
    + rewrite (proj2 (guarded_region_None_queue _)) by (left; congruence). naive_solver.
    + unfold send_success. rewrite (proj2 (guarded_region_None_queue _)) by (left; congruence).
      destruct (saturated st); simpl; naive_solver.
    + unfold guarded_region. rewrite decide_True by done. rewrite Hreg.
      split; [|done]. intros _. by exists region.
    + unfold send_success, guarded_region. rewrite decide_True by done.
      rewrite Hreg. destruct (saturated st); simpl;
        (split; [done|]); intros (r & [= <-] & [?|?]); (congruence || lia).
    + unfold send_success. rewrite Hg.
      destruct (saturated st); simpl; naive_solver.
  - unfold semaphore_label. destruct (guarded_region connection); naive_solver.
Qed.

Lemma semaphore_label_predicts_refusal_witness :
  semaphore_label (shared_memory "pw" "P" "W" (shared_region true 0)) = Some true <->
  failure blocked_waiter "P" "W" (run (consumeData sample_env blocked_waiter "P" "W"))
  = Some MemoryLocked \/
  failure blocked_waiter "P" "W" (run (consumeData sample_env blocked_waiter "P" "W"))
  = Some MaxReadersReached.
Proof.
  by apply (semaphore_label_predicts_refusal sample_env blocked_waiter "P" "W"
              (shared_memory "pw" "P" "W" (shared_region true 0))).
Defined.

(** ** Semaphores that never lock *)

Lemma unlocked_same cs cs' :
  c_memoryRegion <$> cs' = c_memoryRegion <$> cs -> unlocked cs -> unlocked cs'.
Proof.
  unfold unlocked. rewrite !Forall_forall. intros Heq Hcs c' Hc' region Hregion.
  assert (Some region ∈ c_memoryRegion <$> cs') as Hin.
  { apply list_elem_of_fmap. by exists c'. }
  rewrite Heq in Hin. apply list_elem_of_fmap in Hin as (c & Hr & Hc).
  by apply (Hcs c).
Qed.

Lemma unlocked_map_region rid g cs :
  g new_region_semaphore = new_region_semaphore ->
  unlocked cs -> unlocked (map_region rid g cs).
Proof.
  unfold unlocked, map_region. intros Hg Hcs. apply Forall_fmap.
  eapply Forall_impl; [exact Hcs|]. intros c Hc. simpl.
  case_decide; [|done]. intros region. unfold c_set_semaphore. simpl.
  destruct (c_memoryRegion c) as [r|] eqn:Hr; [|done]. intros [= <-]. simpl.
  by rewrite (Hc r Hr).
Qed.

Lemma sendData_last_regions env st f t cs' :
  last (set_connections (run (sendData env st f t))) = Some cs' ->
  c_memoryRegion <$> cs' = c_memoryRegion <$> connections st.
Proof.
  send_cases env st f t; try done;
    unfold send_success; simpl;
    destruct (guarded_region c), (saturated st); simpl;
    intros [= <-];
    first [apply deadlock_mark_regions | by apply map_connection_regions].
Qed.

Lemma consumeData_last_regions env st f t cs' :
  last (set_connections (run (consumeData env st f t))) = Some cs' ->
  c_memoryRegion <$> cs' = c_memoryRegion <$> connections st.
Proof.
  consume_cases env st f t; try done;
    unfold consume_success; simpl;
    destruct (guarded_region c); simpl;
    intros [= <-]; by apply map_connection_regions.
Qed.

Lemma run_timer_unlocked env t :
  unlocked (connections (tm_closure t)) ->
  Forall unlocked (set_connections (run (run_timer env t))).
Proof.
  intros Hclosure. unfold run_timer.
  destruct (tm_body t) as [pid|c pid rid|c pid rid].
  - apply Forall_nil_2.
  - rewrite (release_connections _ _ _ c pid rid (sem_set_hasWriter false))
      by (by left).
    destruct (guarded_region c); [|apply Forall_nil_2].
    apply Forall_cons_2; [|apply Forall_nil_2]. by apply unlocked_map_region.
  - rewrite (release_connections _ _ _ c pid rid drop_reader) by (by right).
    destruct (guarded_region c); [|apply Forall_nil_2].
    apply Forall_cons_2; [|apply Forall_nil_2]. by apply unlocked_map_region.
Qed.

Lemma commit_last_connections (P : list Connection -> Prop) st e :
  P (connections st) ->
  (forall cs', last (set_connections e) = Some cs' -> P cs') ->
  P (connections (commit st e)).
Proof.
  intros Hst He. simpl. destruct (last (set_connections e)) as [cs|]; [|done].
  by apply He.
Qed.

Lemma step_unlocked env w op : unlocked_world w -> unlocked_world (step env w op).
Proof.
  intros [Hcur Hpending].
  destruct op as [position|processId|processId type|toProcessId|f t|f t|n|];
    unfold step.
  - split; cbn [after current pending].
    + apply commit_connections; [done|]. rewrite addProcess_run. apply Forall_nil_2.
    + rewrite (preserves_run _ _ (addProcess_timers _ _ _)). by rewrite app_nil_r.
  - split; cbn [after current pending].
    + rewrite removeProcess_run. simpl. unfold unlocked in *.
      rewrite Forall_forall in *. intros c [_ Hc]%list_elem_of_filter. by apply Hcur.
    + rewrite (preserves_run _ _ (removeProcess_timers _ _ _)). by rewrite app_nil_r.
  - split; cbn [after current pending].
    + apply commit_connections; [done|].
      rewrite (preserves_run _ _ (startConnection_connections _ _ _ _)).
      apply Forall_nil_2.
    + rewrite (preserves_run _ _ (startConnection_timers _ _ _ _)).
      by rewrite app_nil_r.
  - split; cbn [after current pending].
    + apply commit_connections; [done|].
      destruct (completeConnection_writes (rest_of env w) (current w) toProcessId)
        as [[-> _]|[(-> & _)|(c & -> & _ & _ & _ & _ & _ & _ & _ & _ & Hregion)]];
        [apply Forall_nil_2..|].
      apply Forall_cons_2; [|apply Forall_nil_2].
      apply Forall_app. split; [done|]. apply Forall_cons_2; [|apply Forall_nil_2].
      intros region Hr.
      destruct Hregion as [(c0 & Hc0 & _ & _ & Hcopy)|[[Hnone _]|(_ & _ & _ & rid & Hnew)]].
      * rewrite Hcopy in Hr. unfold unlocked in Hcur. rewrite Forall_forall in Hcur.
        by apply (Hcur c0).
      * congruence.
      * rewrite Hnew in Hr. by injection Hr as <-.
    + rewrite (preserves_run _ _ (completeConnection_timers _ _ _)).
      by rewrite app_nil_r.
  - split; cbn [after current pending].
    + apply commit_last_connections; [done|]. intros cs' Hlast.
      eapply unlocked_same; [|exact Hcur]. by eapply sendData_last_regions.
    + apply Forall_app. split; [done|].
      eapply Forall_impl; [apply sendData_timers|]. by intros tm ->.
  - split; cbn [after current pending].
    + apply commit_last_connections; [done|]. intros cs' Hlast.
      eapply unlocked_same; [|exact Hcur]. by eapply consumeData_last_regions.
    + apply Forall_app. split; [done|].
      eapply Forall_impl; [apply consumeData_timers|]. by intros tm ->.
  - destruct (pending w !! n) as [tm|] eqn:Hn; [|done].
    assert (unlocked (connections (tm_closure tm))) as Hclosure.
    { rewrite Forall_forall in Hpending. by eapply Hpending, list_elem_of_lookup_2. }
    split; cbn [after current pending].
    + apply commit_connections; [done|]. by apply run_timer_unlocked.
    + rewrite (preserves_run _ _ (run_timer_timers _ _)). rewrite app_nil_r.
      rewrite Forall_forall in *. intros tm' Hin. apply Hpending.
      by eapply sublist_subseteq; [apply sublist_delete|].
  - split; [|done]. cbn [current].
    eapply unlocked_same; [apply tick_regions|done].
Qed.

Lemma perform_unlocked env w a :
  unlocked_world w -> unlocked_world (perform env w a).
Proof.
  destruct a as [op|button]; [apply step_unlocked|].
  intros [_ Hpending]. split; [|done]. unfold perform. cbn [current].
  destruct button;
    [rewrite play_producerConsumer|rewrite play_deadlockDemo|rewrite play_pipeDemo];
    simpl; by repeat constructor.
Qed.

Lemma unlocked_never_refuses env st f t :
  unlocked (connections st) ->
  failure st f t (run (sendData env st f t)) <> Some MemoryLocked /\
  failure st f t (run (consumeData env st f t)) <> Some MemoryLocked /\
  failure st f t (run (consumeData env st f t)) <> Some MaxReadersReached.
Proof.
  intros Hfree.
  assert (forall c region, find_connection (connections st) f t = Some c ->
            c_memoryRegion c = Some region ->
            mr_semaphore region = new_region_semaphore) as Hsem.
  { intros c region Hc%find_connection_elem Hr.
    unfold unlocked in Hfree. rewrite Forall_forall in Hfree. by apply (Hfree c). }
  unfold failure. split_and!.
  - send_cases env st f t; rewrite Hfind; try done;
      try (unfold send_success; destruct (saturated st); done).
    rewrite (Hsem c region Hfind Hreg) in Hbusy. simpl in Hbusy.
    destruct Hbusy; [done|lia].
  - consume_cases env st f t; rewrite Hfind; try done.
    by rewrite (Hsem c region Hfind Hreg) in Hw.
  - consume_cases env st f t; rewrite Hfind; try done.
    rewrite (Hsem c region Hfind Hreg) in Hr. simpl in Hr. lia.
Qed.

(** X24.  On a canvas whose semaphores are as they are created (no writer,
    no reader), no operation ever changes a semaphore for the next render:
    the connection list with the writer flag or the reader count of an
    acquisition is replaced in the same handler by the one with the new
    load, and a release finds the semaphore already free. So a send or a
    consumption over shared memory is never refused, neither for a writer
    nor for the reader limit. *)
Theorem memory_never_locks env w actions :
  unlocked_world w ->
  let st := current (performs env w actions) in
  unlocked (connections st) /\
  forall env' f t,
    failure st f t (run (sendData env' st f t)) <> Some MemoryLocked /\
    failure st f t (run (consumeData env' st f t)) <> Some MemoryLocked /\
    failure st f t (run (consumeData env' st f t)) <> Some MaxReadersReached.
Proof.
  intros Hw. simpl.
  assert (unlocked_world (performs env w actions)) as [Hfree _].
  { unfold performs. revert w Hw.
    induction actions as [|a actions IH]; intros w Hw; [done|].
    simpl. by apply IH, perform_unlocked. }
  split; [done|]. intros env' f t. by apply unlocked_never_refuses.
Qed.

Lemma memory_never_locks_witness :
  let st := current (performs sample_env empty_canvas
       [ Operate (OpAddProcess {| pos_x := 0; pos_y := 0 |});
         Operate (OpAddProcess {| pos_x := 1; pos_y := 1 |});
         Operate (OpStartConnection "id0" Memory);
         Operate (OpCompleteConnection "id2");
         Operate (OpSend "id0" "id2"); Operate (OpSend "id0" "id2") ]) in
  unlocked (connections st) /\
  forall env' f t,
    failure st f t (run (sendData env' st f t)) <> Some MemoryLocked /\
    failure st f t (run (consumeData env' st f t)) <> Some MemoryLocked /\
    failure st f t (run (consumeData env' st f t)) <> Some MaxReadersReached.
Proof.
  apply (memory_never_locks sample_env empty_canvas).
  split; constructor.
Defined.

(** ** Releases *)















